(** * russ-fm: folder-name sanitizer, reconciler and migrator

    A shallow embedding of
      - [music_collection_manager/utils/folder_sanitizer.py]
      - [tools/artist_folder_reconciler.py]
      - [tools/find_missing_artists.py]
      - [tools/regenerate_all_with_migration.py]
      - [tools/check_sanitization_changes.py]
    followed by the properties of the specification that concern them.

    Python strings are sequences of Unicode code points: [str] is [list N].
    The ASCII rows of the Unicode character database are written out; the
    rows of the other code points are the fields of [UnicodeData]. *)

From Stdlib Require Import NArith ZArith QArith Ascii String List Lia Bool.
From stdpp Require Import base tactics option list gmap sorting.

Local Open Scope N_scope.

(** ** Python strings *)

Definition str := list N.

(** UTF-8 decoding of the bytes of a Rocq string literal, so that the tables
    below can be written with the characters the source uses. *)
Fixpoint utf8_decode (bs : list N) : str :=
  match bs with
  | [] => []
  | b0 :: r0 =>
      if b0 <? 128 then b0 :: utf8_decode r0
      else if b0 <? 224 then
        match r0 with
        | b1 :: r1 => ((b0 - 192) * 64 + (b1 - 128)) :: utf8_decode r1
        | _ => []
        end
      else if b0 <? 240 then
        match r0 with
        | b1 :: b2 :: r2 =>
            ((b0 - 224) * 4096 + (b1 - 128) * 64 + (b2 - 128)) :: utf8_decode r2
        | _ => []
        end
      else
        match r0 with
        | b1 :: b2 :: b3 :: r3 =>
            ((b0 - 240) * 262144 + (b1 - 128) * 4096 + (b2 - 128) * 64 + (b3 - 128))
              :: utf8_decode r3
        | _ => []
        end
  end.

Definition py (s : string) : str :=
  utf8_decode (map N_of_ascii (list_ascii_of_string s)).
Arguments py s%_string.

(** Named code points. *)
Definition DASH : N := 45.
Definition UNDERSCORE : N := 95.
Definition NEWLINE : N := 10.
Definition DQUOTE : N := 34.
Definition CAPITAL_SIGMA : N := 931.
Definition FINAL_SIGMA : N := 962.
Definition SMALL_SIGMA : N := 963.

(** The rows of the Unicode character database for the code points from
    128 on, as Python's [str] methods and the [re] module read them. *)
Class UnicodeData := {
  ucd_lower : N → str;            (* full lowercase mapping *)
  ucd_isspace : N → bool;         (* [str.isspace], the class [\s] *)
  ucd_isalnum : N → bool;         (* [str.isalnum] *)
  ucd_cased : N → bool;           (* property Cased *)
  ucd_case_ignorable : N → bool;  (* property Case_Ignorable *)
  ucd_ieq : N → N → bool          (* [re.IGNORECASE]: the character matches
                                     the lowercase ASCII literal *)
}.

Module PyStr.
Section builtins.
Context {U : UnicodeData}.

Definition is_ascii (c : N) : bool := c <? 128.
Definition is_upper_az (c : N) : bool := (65 <=? c) && (c <=? 90).
Definition is_az (c : N) : bool := (97 <=? c) && (c <=? 122).
Definition is_digit (c : N) : bool := (48 <=? c) && (c <=? 57).

Definition isspace (c : N) : bool :=
  if is_ascii c then ((9 <=? c) && (c <=? 13)) || ((28 <=? c) && (c <=? 32))
  else ucd_isspace c.

Definition isalnum (c : N) : bool :=
  if is_ascii c then is_digit c || is_upper_az c || is_az c
  else ucd_isalnum c.

Definition cased (c : N) : bool :=
  if is_ascii c then is_upper_az c || is_az c else ucd_cased c.

(* ASCII: apostrophe, full stop, colon, circumflex, grave accent *)
Definition case_ignorable (c : N) : bool :=
  if is_ascii c
  then (c =? 39) || (c =? 46) || (c =? 58) || (c =? 94) || (c =? 96)
  else ucd_case_ignorable c.

Definition to_lower_full (c : N) : str :=
  if is_ascii c then [if is_upper_az c then c + 32 else c] else ucd_lower c.

Fixpoint dropwhile (p : N → bool) (s : str) : str :=
  match s with
  | [] => []
  | c :: r => if p c then dropwhile p r else s
  end.

(** [final_sigma] of CPython's [unicodeobject.c]: the capital sigma at
    hand is preceded by a cased letter and not followed by one, case
    ignorable characters skipped on both sides. [before] is the text to
    its left, nearest character first. *)
Definition final_sigma (before after : str) : bool :=
  match dropwhile case_ignorable before with
  | [] => false
  | c :: _ =>
      cased c &&
      match dropwhile case_ignorable after with
      | [] => true
      | d :: _ => negb (cased d)
      end
  end.

Fixpoint lower_from (before s : str) : str :=
  match s with
  | [] => []
  | c :: r =>
      (if c =? CAPITAL_SIGMA
       then [if final_sigma before r then FINAL_SIGMA else SMALL_SIGMA]
       else to_lower_full c) ++ lower_from (c :: before) r
  end.

(** [s.lower()] *)
Definition lower (s : str) : str := lower_from [] s.

Fixpoint is_prefix (p s : str) : bool :=
  match p, s with
  | [], _ => true
  | a :: p', b :: s' => (a =? b) && is_prefix p' s'
  | _ :: _, [] => false
  end.

(** [p in s] for a non-empty [p] *)
Fixpoint contains (p s : str) : bool :=
  match s with
  | [] => is_prefix p []
  | _ :: r => is_prefix p s || contains p r
  end.

(** [s.startswith(p)] *)
Definition startswith (s p : str) : bool := is_prefix p s.

(** [s.replace(old, new)] for a non-empty [old]: the occurrences are taken
    from the left and do not overlap. [skip] counts the characters of the
    occurrence at hand that are still to be passed over. *)
Fixpoint replace_from (old new : str) (skip : nat) (s : str) : str :=
  match s with
  | [] => []
  | c :: r =>
      match skip with
      | S k => replace_from old new k r
      | O =>
          if is_prefix old s
          then new ++ replace_from old new (pred (length old)) r
          else c :: replace_from old new 0 r
      end
  end.

Definition replace (old new s : str) : str := replace_from old new 0 s.

Definition lstrip (p : N → bool) (s : str) : str := dropwhile p s.
Definition rstrip (p : N → bool) (s : str) : str := rev (dropwhile p (rev s)).

(** [s.strip()] and [s.strip(chars)] *)
Definition strip_by (p : N → bool) (s : str) : str := rstrip p (lstrip p s).
Definition strip (s : str) : str := strip_by isspace s.
Definition strip_chars (chars s : str) : str :=
  strip_by (λ c, existsb (N.eqb c) chars) s.

Definition str_eqb (a b : str) : bool := bool_decide (a = b).

(** [s in [l1, l2, ...]] *)
Definition str_in (s : str) (l : list str) : bool := existsb (str_eqb s) l.

(** [re.sub(r'\s+', '-', s)]: every maximal run of whitespace becomes one
    dash. [in_run] tells that the previous character was whitespace. *)
Fixpoint sub_whitespace_runs (in_run : bool) (s : str) : str :=
  match s with
  | [] => []
  | c :: r =>
      if isspace c
      then (if in_run then [] else [DASH]) ++ sub_whitespace_runs true r
      else c :: sub_whitespace_runs false r
  end.

Definition head_is (p : N → bool) (s : str) : bool :=
  match s with [] => false | c :: _ => p c end.

(** [re.sub(r'([a-z])_([a-z])(?![a-z])', r'\1\2', s)]: the scan goes from
    left to right; where the pattern matches, the two letters are kept
    and the scan resumes after the second letter. *)
Fixpoint sub_letter_underscore_letter (s : str) : str :=
  match s with
  | [] => []
  | x :: t =>
      match t with
      | u :: y :: r =>
          if is_az x && (u =? UNDERSCORE) && is_az y && negb (head_is is_az r)
          then x :: y :: sub_letter_underscore_letter r
          else x :: sub_letter_underscore_letter t
      | _ => x :: sub_letter_underscore_letter t
      end
  end.
End builtins.
End PyStr.

(** ** [folder_sanitizer.py] *)

Module Sanitizer.
Import PyStr.
Section sanitizer.
Context {U : UnicodeData}.

Definition unknown : str := py "unknown".

Definition empty_brackets : list str :=
  [py "( )"; py "()"; py "[ ]"; py "[]"; py "{ }"; py "{}"].

(** The dictionaries, in insertion order. *)
Definition accent_map : list (str * str) :=
  [ (py "á", py "a"); (py "à", py "a"); (py "ä", py "a"); (py "â", py "a");
    (py "ã", py "a"); (py "å", py "a");
    (py "é", py "e"); (py "è", py "e"); (py "ë", py "e"); (py "ê", py "e");
    (py "í", py "i"); (py "ì", py "i"); (py "ï", py "i"); (py "î", py "i");
    (py "ó", py "o"); (py "ò", py "o"); (py "ö", py "o"); (py "ô", py "o");
    (py "õ", py "o"); (py "ø", py "o");
    (py "ú", py "u"); (py "ù", py "u"); (py "ü", py "u"); (py "û", py "u");
    (py "ý", py "y"); (py "ÿ", py "y");
    (py "ñ", py "n");
    (py "ç", py "c");
    (py "ß", py "ss");
    (py "æ", py "ae");
    (py "œ", py "oe");
    (py "ð", py "d");
    (py "þ", py "th") ].

Definition symbol_map : list (str * str) :=
  [ (py "½", py "half"); (py "⅓", py "third"); (py "¼", py "quarter");
    (py "¾", py "three-quarters");
    (py "⅛", py "eighth"); (py "⅜", py "three-eighths");
    (py "⅝", py "five-eighths"); (py "⅞", py "seven-eighths");
    (py "²", py "2"); (py "³", py "3"); (py "¹", py "1");
    (py "–", py "-"); (py "—", py "-"); (py "−", py "-") ].

Definition fraction_words : list str :=
  [ py "half"; py "third"; py "quarter"; py "three-quarters"; py "eighth";
    py "three-eighths"; py "five-eighths"; py "seven-eighths" ].

(** The fifth and sixth quotes of the source line are ASCII apostrophes
    and so delimit one triple-quoted literal, the two characters comma
    and space; the next two entries are the ASCII double quote. *)
Definition remove_chars : list str :=
  [ py "°"; py "©"; py "®"; py "™"; py ", "; [DQUOTE]; [DQUOTE];
    py "«"; py "»"; py "‹"; py "›"; py "„"; py "‚";
    py "("; py ")"; py "+"; py "="; py "%"; py "@"; py "#"; py "$";
    py "€"; py "£"; py "…" ].

Definition greek_map : list (str * str) :=
  [ (py "Α", py "a"); (py "α", py "a"); (py "ά", py "a"); (py "Ά", py "a");
    (py "Β", py "b"); (py "β", py "b");
    (py "Γ", py "g"); (py "γ", py "g");
    (py "Δ", py "d"); (py "δ", py "d");
    (py "Ε", py "e"); (py "ε", py "e"); (py "έ", py "e"); (py "Έ", py "e");
    (py "Ζ", py "z"); (py "ζ", py "z");
    (py "Η", py "e"); (py "η", py "e"); (py "ή", py "e"); (py "Ή", py "e");
    (py "Θ", py "th"); (py "θ", py "th");
    (py "Ι", py "i"); (py "ι", py "i"); (py "ί", py "i"); (py "ϊ", py "i");
    (py "ΐ", py "i"); (py "Ί", py "i"); (py "Ϊ", py "i");
    (py "Κ", py "k"); (py "κ", py "k");
    (py "Λ", py "l"); (py "λ", py "l");
    (py "Μ", py "m"); (py "μ", py "m");
    (py "Ν", py "n"); (py "ν", py "n");
    (py "Ξ", py "x"); (py "ξ", py "x");
    (py "Ο", py "o"); (py "ο", py "o"); (py "ό", py "o"); (py "Ό", py "o");
    (py "Π", py "p"); (py "π", py "p");
    (py "Ρ", py "r"); (py "ρ", py "r");
    (py "Σ", py "s"); (py "σ", py "s"); (py "ς", py "s");
    (py "Τ", py "t"); (py "τ", py "t");
    (py "Υ", py "u"); (py "υ", py "u"); (py "ύ", py "u"); (py "ϋ", py "u");
    (py "ΰ", py "u"); (py "Ύ", py "u"); (py "Ϋ", py "u");
    (py "Φ", py "f"); (py "φ", py "f");
    (py "Χ", py "ch"); (py "χ", py "ch");
    (py "Ψ", py "ps"); (py "ψ", py "ps");
    (py "Ω", py "o"); (py "ω", py "o"); (py "ώ", py "o"); (py "Ώ", py "o") ].

(** [for k, v in m.items(): s = s.replace(k, v)] *)
Definition replace_all (m : list (str * str)) (s : str) : str :=
  fold_left (λ acc kv, replace kv.1 kv.2 acc) m s.

(** One round of the loop over [symbol_map]. *)
Definition apply_symbol (s : str) (kv : str * str) : str :=
  let '(symbol, replacement) := kv in
  match replacement with
  | _ :: _ =>
      if str_in replacement fraction_words
      then replace symbol (DASH :: replacement) s
      else replace symbol replacement s
  | [] => replace symbol replacement s
  end.

Definition apply_symbols (s : str) : str := fold_left apply_symbol symbol_map s.

Definition remove_all (l : list str) (s : str) : str :=
  fold_left (λ acc k, replace k [] acc) l s.

(** [c.isalnum() or c in "-"] *)
Definition keep_char (c : N) : bool := isalnum c || contains [c] [DASH].

Definition double_dash : str := [DASH; DASH].

(** [while "--" in s: s = s.replace("--", "-")]; a round shortens the
    string, so [length s] rounds are always enough (see
    [collapse_dashes_done]). *)
Fixpoint collapse_dashes_loop (fuel : nat) (s : str) : str :=
  if contains double_dash s then
    match fuel with
    | O => s
    | S f => collapse_dashes_loop f (replace double_dash [DASH] s)
    end
  else s.

Definition collapse_dashes (s : str) : str := collapse_dashes_loop (length s) s.

(** Lines 52 and 53: the underscores. *)
Definition resolve_underscores (sanitized : str) : str :=
  let sanitized := sub_letter_underscore_letter sanitized in
  replace [UNDERSCORE] [DASH] sanitized.

(** The straight-line part of [sanitize_folder_name], lines 44 to 61. *)
Definition normalise (name : str) : str :=
  let sanitized := lower name in
  let sanitized := sub_whitespace_runs false sanitized in
  let sanitized := resolve_underscores sanitized in
  let sanitized :=
    replace (py "}") [] (replace (py "{") [] (replace (py "]") []
      (replace (py "[") [] sanitized))) in
  let sanitized :=
    replace [DQUOTE] [] (replace (py "'") [] (replace (py "&") [] sanitized)) in
  let sanitized := replace (py "!") [] (replace (py ".") [] sanitized) in
  replace (py ":") [] (replace (py ";") [] (replace (py "?") [] sanitized)).

(** Lines 121 to 142: the four loops over the tables. *)
Definition transliterate (sanitized : str) : str :=
  let sanitized := replace_all accent_map sanitized in
  let sanitized := apply_symbols sanitized in
  let sanitized := remove_all remove_chars sanitized in
  replace_all greek_map sanitized.

(** Lines 144 to 152. *)
Definition tidy (sanitized : str) : str :=
  let sanitized := filter (λ c, keep_char c = true) sanitized in
  let sanitized := collapse_dashes sanitized in
  strip_chars [DASH] sanitized.

Definition sanitize_folder_name (name : str) : str :=
  match name with
  | [] => unknown
  | _ =>
      match strip name with
      | [] => unknown
      | stripped =>
          if str_in stripped empty_brackets then unknown
          else
            match tidy (transliterate (normalise name)) with
            | [] => unknown
            | sanitized => sanitized
            end
      end
  end.
End sanitizer.
End Sanitizer.

(** The rows of the character database for the blocks that the examples
    touch: Latin-1 Supplement and Latin Extended-A (U+0080 to U+017F), the
    Greek letters U+0386 to U+03CE, the Cyrillic letters U+0400 to U+045F,
    General Punctuation (U+2000 to U+206F), the euro and trade mark signs,
    the number forms U+2150 to U+215F, the minus sign and the ideographic
    space. Every other code point is entered as a caseless symbol. *)
Module Excerpt.
Definition in_range (lo hi c : N) : bool := (lo <=? c) && (c <=? hi).

Definition lower (c : N) : str :=
  if in_range 192 222 c && negb (c =? 215) then [c + 32]
  else if c =? 304 then [105; 775]
  else if in_range 256 311 c || in_range 330 375 c
  then [if N.even c then c + 1 else c]
  else if in_range 313 328 c || in_range 377 382 c
  then [if N.odd c then c + 1 else c]
  else if c =? 376 then [255]
  else if c =? 902 then [940]
  else if in_range 904 906 c then [c + 37]
  else if c =? 908 then [972]
  else if in_range 910 911 c then [c + 63]
  else if in_range 913 939 c && negb (c =? 930) then [c + 32]
  else if in_range 1024 1039 c then [c + 80]
  else if in_range 1040 1071 c then [c + 32]
  else [c].

Definition isspace (c : N) : bool :=
  (c =? 133) || (c =? 160) || (c =? 5760) || in_range 8192 8202 c
  || in_range 8232 8233 c || (c =? 8239) || (c =? 8287) || (c =? 12288).

Definition isalnum (c : N) : bool :=
  (c =? 170) || in_range 178 179 c || (c =? 181) || in_range 185 186 c
  || in_range 188 190 c || in_range 192 214 c || in_range 216 246 c
  || in_range 248 383 c
  || (c =? 902) || in_range 904 906 c || (c =? 908)
  || in_range 910 929 c || in_range 931 974 c || in_range 1024 1119 c
  || in_range 8528 8543 c.

Definition case_ignorable (c : N) : bool :=
  (c =? 168) || (c =? 173) || (c =? 175) || (c =? 180) || in_range 183 184 c
  || (c =? 903) || in_range 8203 8207 c || in_range 8216 8217 c
  || (c =? 8228) || (c =? 8231) || in_range 8234 8238 c
  || in_range 8288 8292 c || in_range 8294 8303 c.

Definition cased (c : N) : bool :=
  (c =? 170) || (c =? 181) || (c =? 186) || in_range 192 214 c
  || in_range 216 246 c || in_range 248 383 c
  || (c =? 902) || in_range 904 906 c || (c =? 908)
  || in_range 910 929 c || in_range 931 974 c || in_range 1024 1119 c.

(* the dotted capital and the dotless small letter match [i], the long s
   matches [s] *)
Definition ieq (c p : N) : bool :=
  ((p =? 105) && ((c =? 304) || (c =? 305))) || ((p =? 115) && (c =? 383)).

Definition table : UnicodeData :=
  {| ucd_lower := lower; ucd_isspace := isspace; ucd_isalnum := isalnum;
     ucd_cased := cased; ucd_case_ignorable := case_ignorable;
     ucd_ieq := ieq |}.
End Excerpt.

(** ** [difflib.SequenceMatcher]

    Modelled from the Python standard library: [SequenceMatcher(None, a, b)]
    with its default [autojunk=True], as far as [ratio()] uses it. Indices
    and sizes are natural numbers. *)

Module Difflib.
Local Open Scope nat_scope.

Definition Match := (nat * nat * nat)%type.
Definition window := (nat * nat * nat * nat)%type.

Definition msize (m : Match) : nat := m.2.

(** [__chain_b]: the positions of every element of [b], in increasing
    order. *)
Definition setdefault_append (b2j : gmap N (list nat)) (ielt : nat * N) :
    gmap N (list nat) :=
  <[ielt.2 := default [] (b2j !! ielt.2) ++ [ielt.1]]> b2j.

Definition enumerate {A} (l : list A) : list (nat * A) := zip (seq 0 (length l)) l.

Definition index_b (b : str) : gmap N (list nat) :=
  fold_left setdefault_append (enumerate b) ∅.

(** No [isjunk] function is given, so the junk set stays empty. *)
Definition bjunk : gset N := ∅.
Definition isbjunk (x : N) : bool := bool_decide (x ∈ bjunk).

(** With [autojunk], in a [b] of 200 elements or more, the elements that
    occur more than [n // 100 + 1] times are popular and lose their entry. *)
Definition is_popular (n : nat) (idxs : list nat) : bool := n / 100 + 1 <? length idxs.

Definition chain_b (b : str) : gmap N (list nat) :=
  let b2j := index_b b in
  let n := length b in
  if 200 <=? n
  then filter (λ kv, is_popular n kv.2 = false) b2j
  else b2j.

Section matcher.
Variables a b : str.

Definition b2j : gmap N (list nat) := chain_b b.

Definition same_elt (i j : nat) : bool :=
  match a !! i, b !! j with
  | Some x, Some y => N.eqb x y
  | _, _ => false
  end.

Definition junk_at (j : nat) : bool :=
  match b !! j with Some y => isbjunk y | None => false end.

(** The loop over [b2j.get(a[i], nothing)] for one [i]: [j2len] is the row
    of the previous [i], the result the row of this one and the best
    match so far. *)
Fixpoint scan_row (j2len : gmap nat nat) (i blo bhi : nat) (idxs : list nat)
    (newj2len : gmap nat nat) (best : Match) : gmap nat nat * Match :=
  match idxs with
  | [] => (newj2len, best)
  | j :: rest =>
      if j <? blo then scan_row j2len i blo bhi rest newj2len best
      else if bhi <=? j then (newj2len, best)
      else
        let k := S (match j with O => 0 | S j' => default 0 (j2len !! j') end) in
        let newj2len := <[j := k]> newj2len in
        let best := if msize best <? k then (i + 1 - k, j + 1 - k, k) else best in
        scan_row j2len i blo bhi rest newj2len best
  end.

Definition scan_step (blo bhi : nat) (st : gmap nat nat * Match) (i : nat) :
    gmap nat nat * Match :=
  match a !! i with
  | Some x => scan_row st.1 i blo bhi (default [] (b2j !! x)) ∅ st.2
  | None => (∅, st.2)
  end.

Definition longest_junk_free (alo ahi blo bhi : nat) : Match :=
  (fold_left (scan_step blo bhi) (seq alo (ahi - alo)) (∅, (alo, blo, 0))).2.

(** [while besti > alo and bestj > blo and <junk test> and
    a[besti-1] == b[bestj-1]]: the match grows to the left. *)
Fixpoint extend_left (want_junk : bool) (alo blo besti bestj bestsize : nat) : Match :=
  match besti, bestj with
  | S i', S j' =>
      if (alo <=? i') && (blo <=? j') && eqb (junk_at j') want_junk && same_elt i' j'
      then extend_left want_junk alo blo i' j' (S bestsize)
      else (besti, bestj, bestsize)
  | _, _ => (besti, bestj, bestsize)
  end.

(** [while besti+bestsize < ahi and bestj+bestsize < bhi and <junk test>
    and a[besti+bestsize] == b[bestj+bestsize]]: the match grows to the
    right; [room] is [ahi - (besti+bestsize)]. *)
Fixpoint extend_right (want_junk : bool) (room bhi besti bestj bestsize : nat) : nat :=
  match room with
  | O => bestsize
  | S room' =>
      if (bestj + bestsize <? bhi) && eqb (junk_at (bestj + bestsize)) want_junk
         && same_elt (besti + bestsize) (bestj + bestsize)
      then extend_right want_junk room' bhi besti bestj (S bestsize)
      else bestsize
  end.

Definition extend (want_junk : bool) (alo ahi blo bhi : nat) (m : Match) : Match :=
  let '(besti, bestj, bestsize) := extend_left want_junk alo blo m.1.1 m.1.2 m.2 in
  (besti, bestj,
   extend_right want_junk (ahi - (besti + bestsize)) bhi besti bestj bestsize).

Definition find_longest_match (alo ahi blo bhi : nat) : Match :=
  extend true alo ahi blo bhi
    (extend false alo ahi blo bhi (longest_junk_free alo ahi blo bhi)).

(** The loop of [get_matching_blocks]. [queue] is the Python list with
    its last element first, so that [queue.pop()] takes the head. *)
Fixpoint blocks_loop (fuel : nat) (queue : list window)
    (matching_blocks : list Match) : list Match :=
  match fuel, queue with
  | S fuel', (alo, ahi, blo, bhi) :: queue =>
      let '(i, j, k) := find_longest_match alo ahi blo bhi in
      if k =? 0 then blocks_loop fuel' queue matching_blocks
      else
        let queue := if (alo <? i) && (blo <? j)
                     then (alo, i, blo, j) :: queue else queue in
        let queue := if (i + k <? ahi) && (j + k <? bhi)
                     then (i + k, ahi, j + k, bhi) :: queue else queue in
        blocks_loop fuel' queue (matching_blocks ++ [(i, j, k)])
  | _, _ => matching_blocks
  end.

Definition match_leb (x y : Match) : bool :=
  (x.1.1 <? y.1.1) || ((x.1.1 =? y.1.1) &&
    ((x.1.2 <? y.1.2) || ((x.1.2 =? y.1.2) && (x.2 <=? y.2)))).

Fixpoint insert_sorted (x : Match) (l : list Match) : list Match :=
  match l with
  | [] => [x]
  | y :: l' => if match_leb x y then x :: l else y :: insert_sorted x l'
  end.

(** [matching_blocks.sort()] *)
Definition sort_blocks (l : list Match) : list Match := foldr insert_sorted [] l.

(** The loop that merges adjacent blocks; [cur] is [(i1, j1, k1)]. *)
Fixpoint collapse_adjacent (cur : Match) (l : list Match) : list Match :=
  match l with
  | [] => if cur.2 =? 0 then [] else [cur]
  | (i2, j2, k2) :: l' =>
      if (cur.1.1 + cur.2 =? i2) && (cur.1.2 + cur.2 =? j2)
      then collapse_adjacent (cur.1.1, cur.1.2, cur.2 + k2) l'
      else (if cur.2 =? 0 then [] else [cur]) ++ collapse_adjacent (i2, j2, k2) l'
  end.

(** One window is popped in every round, and a window that is pushed lies
    strictly inside the one it comes from: [2 * len(a) + 1] rounds empty
    the queue (see [blocks_loop_enough]). *)
Definition get_matching_blocks : list Match :=
  let la := length a in
  let lb := length b in
  let matching_blocks := blocks_loop (2 * la + 1) [(0, la, 0, lb)] [] in
  collapse_adjacent (0, 0, 0) (sort_blocks matching_blocks) ++ [(la, lb, 0)].

Definition matches : nat := list_sum (map msize get_matching_blocks).

(** [_calculate_ratio]: [2.0 * matches / length], or [1.0] when both
    sequences are empty. The quotient is kept exact. *)
Definition calculate_ratio (matches length : nat) : Q :=
  match length with
  | O => 1%Q
  | S _ => Qmake (Z.of_nat (2 * matches)) (Pos.of_nat length)
  end.

Definition ratio : Q := calculate_ratio matches (length a + length b).
End matcher.
End Difflib.

(** ** The regular expressions of [alternative_slugify]

    Modelled from the Python standard library: [re.sub(pattern, '', text,
    flags=re.IGNORECASE)] for patterns that are a sequence of single
    characters, greedy repetitions of a character class and [$]. *)

Module Re.
Import PyStr.

Inductive atom :=
  | Lit (p : N → bool)     (* one character *)
  | Star (p : N → bool)    (* [p*], greedy *)
  | Plus (p : N → bool)    (* [p+], greedy *)
  | Eol.                  (* [$] *)

(** [star p k s]: take as many [p] as there are, then give back one at a time
    until the continuation [k] matches. *)
Fixpoint star (p : N → bool) (k : str → option str) (s : str) : option str :=
  match s with
  | c :: r =>
      if p c
      then match star p k r with Some e => Some e | None => k s end
      else k s
  | [] => k []
  end.

(** The text left after the first way the pattern matches at the start of
    [s], if there is one. [$] holds at the end and before a final newline. *)
Fixpoint match_here (re : list atom) (s : str) : option str :=
  match re with
  | [] => Some s
  | Lit p :: re' =>
      match s with
      | c :: r => if p c then match_here re' r else None
      | [] => None
      end
  | Star p :: re' => star p (match_here re') s
  | Plus p :: re' =>
      match s with
      | c :: r => if p c then star p (match_here re') r else None
      | [] => None
      end
  | Eol :: re' =>
      match s with
      | [] => match_here re' s
      | [c] => if c =? NEWLINE then match_here re' s else None
      | _ => None
      end
  end.

(** [re.sub(re, '', s)] for a pattern that matches at least one character;
    [skip] counts the characters of the match at hand still to be dropped. *)
Fixpoint sub_empty (re : list atom) (skip : nat) (s : str) : str :=
  match s with
  | [] => []
  | c :: r =>
      match skip with
      | S k => sub_empty re k r
      | O =>
          match match_here re s with
          | Some rest => sub_empty re (length r - length rest) r
          | None => c :: sub_empty re 0 r
          end
      end
  end.

Section patterns.
Context {U : UnicodeData}.

Definition exactly (p : N) : atom := Lit (N.eqb p).

(** a lowercase ASCII letter of the pattern under [re.IGNORECASE] *)
Definition letter (p : N) : atom :=
  Lit (λ c, if is_ascii c then (if is_upper_az c then c + 32 else c) =? p
            else ucd_ieq c p).

Definition dot : N → bool := λ c, negb (c =? NEWLINE).

Definition word (w : str) : list atom := map letter w.

(* \s+\(.*\)$ *)
Definition trailing_parenthesis : list atom :=
  [Plus isspace; exactly 40; Star dot; exactly 41; Eol].
(* \s+featuring.*$ *)
Definition trailing_featuring : list atom :=
  Plus isspace :: word (py "featuring") ++ [Star dot; Eol].
(* \s+feat\..*$ *)
Definition trailing_feat : list atom :=
  Plus isspace :: word (py "feat") ++ [exactly 46; Star dot; Eol].
(* \s+ft\..*$ *)
Definition trailing_ft : list atom :=
  Plus isspace :: word (py "ft") ++ [exactly 46; Star dot; Eol].
End patterns.
End Re.

(** Python dictionaries with string keys, in insertion order. *)
Module Dict.
Import PyStr.
Section dict.
Context {V : Type}.

Fixpoint get (d : list (str * V)) (k : str) : option V :=
  match d with
  | [] => None
  | (k', v) :: d' => if str_eqb k' k then Some v else get d' k
  end.

(** [d[k] = v]: a key that is present keeps its place. *)
Fixpoint set (d : list (str * V)) (k : str) (v : V) : list (str * V) :=
  match d with
  | [] => [(k, v)]
  | (k', v') :: d' => if str_eqb k' k then (k, v) :: d' else (k', v') :: set d' k v
  end.
End dict.
End Dict.

(** ** Python sets of strings

    The language leaves open the order in which a [set] is iterated: it
    follows the hashes of the elements and the way the set was built.
    [list_of_set l] is [list(set(l))] and [iter_set X] is the order of
    [for x in X]; each lists every element once. *)
Class SetOrder := {
  list_of_set : list str → list str;
  iter_set : gset str → list str;
  list_of_set_perm l : list_of_set l ≡ₚ elements (list_to_set l : gset str);
  iter_set_perm X : iter_set X ≡ₚ elements X
}.

(** One such order: that of the encoding of the elements. *)
Definition by_encoding : SetOrder :=
  {| list_of_set l := elements (list_to_set l : gset str);
     iter_set := elements;
     list_of_set_perm l := reflexivity _;
     iter_set_perm X := reflexivity _ |}.

(** ** [artist_folder_reconciler.py] *)

Module Reconciler.
Import PyStr.
Section reconciler.
Context {U : UnicodeData} {O : SetOrder}.

(** The dictionary literal of [slugify]. *)
Definition accent_map : list (str * str) :=
  [ (py "á", py "a"); (py "à", py "a"); (py "ä", py "a"); (py "â", py "a");
    (py "ã", py "a"); (py "å", py "a");
    (py "é", py "e"); (py "è", py "e"); (py "ë", py "e"); (py "ê", py "e");
    (py "í", py "i"); (py "ì", py "i"); (py "ï", py "i"); (py "î", py "i");
    (py "ó", py "o"); (py "ò", py "o"); (py "ö", py "o"); (py "ô", py "o");
    (py "õ", py "o"); (py "ø", py "o");
    (py "ú", py "u"); (py "ù", py "u"); (py "ü", py "u"); (py "û", py "u");
    (py "ý", py "y"); (py "ÿ", py "y");
    (py "ñ", py "n");
    (py "ç", py "c");
    (py "ß", py "ss");
    (py "æ", py "ae");
    (py "œ", py "oe");
    (py "ð", py "d");
    (py "þ", py "th") ].

Definition slugify (text : str) : str :=
  let sanitized := replace (py " ") (py "-") (lower text) in
  let sanitized := Sanitizer.replace_all accent_map sanitized in
  let sanitized := filter (λ c, Sanitizer.keep_char c = true) sanitized in
  let sanitized := Sanitizer.collapse_dashes sanitized in
  strip_chars [DASH] sanitized.

Definition suffix_patterns : list (list Re.atom) :=
  [Re.trailing_parenthesis; Re.trailing_featuring; Re.trailing_feat; Re.trailing_ft].

(** The list [alternatives] before duplicates are removed. *)
Definition alternatives (text : str) : list str :=
  let alternatives := [slugify text] in
  let alternatives :=
    if startswith (lower text) (py "the ")
    then alternatives ++ [slugify (drop 4 text)]
    else alternatives in
  let text_lower := lower text in
  let alternatives :=
    if contains (py "&") text_lower
    then alternatives ++ [slugify (replace (py "&") (py "and") text_lower)]
    else alternatives in
  fold_left
    (λ alternatives pattern,
       let cleaned := Re.sub_empty pattern 0 text in
       if negb (str_eqb cleaned text)
       then alternatives ++ [slugify cleaned]
       else alternatives)
    suffix_patterns alternatives.

(** [return list(set(alternatives))] *)
Definition alternative_slugify (text : str) : list str :=
  list_of_set (alternatives text).

Definition similarity_score (a b : str) : Q := Difflib.ratio (lower a) (lower b).

Record artist := {
  id : Z;
  name : str;
  discogs_id : option Z;
  slug : str;
  alternative_slugs : list str
}.

(** The rows of [SELECT id, name, discogs_id FROM artists ORDER BY name]. *)
Definition row := (Z * str * option Z)%type.

Definition get_database_artists (rows : list row) : list artist :=
  map (λ r : row,
         {| id := r.1.1; name := r.1.2; discogs_id := r.2;
            slug := slugify r.1.2;
            alternative_slugs := alternative_slugify r.1.2 |}) rows.

(** [for slug in ...: if slug in public_folders: ...; break] *)
Definition first_on_disk (public_folders : gset str) (slugs : list str) : option str :=
  List.find (λ slug, bool_decide (slug ∈ public_folders)) slugs.

Definition matched_artists (db_artists : list artist) (public_folders : gset str) : gset Z :=
  fold_left
    (λ matched artist,
       match first_on_disk public_folders (alternative_slugs artist) with
       | Some _ => matched ∪ {[id artist]}
       | None => matched
       end)
    db_artists ∅.

Definition unmatched_artists (db_artists : list artist) (matched : gset Z) : list artist :=
  filter (λ a, id a ∉ matched) db_artists.

Definition matched_folders (db_artists : list artist) (public_folders : gset str)
    (matched : gset Z) : gset str :=
  fold_left
    (λ folders artist,
       if bool_decide (id artist ∈ matched) then
         match first_on_disk public_folders (alternative_slugs artist) with
         | Some slug => folders ∪ {[slug]}
         | None => folders
         end
       else folders)
    db_artists ∅.

(** [score >= threshold] and [score > best] on the exact quotients. *)
Definition Qgeb (x y : Q) : bool := Qle_bool y x.
Definition Qgtb (x y : Q) : bool := negb (Qle_bool x y).

(** The list [matches] of one folder. *)
Definition folder_matches (threshold : Q) (unmatched : list artist) (folder : str) :
    list (str * Q) :=
  flat_map
    (λ artist,
       let name_similarity := similarity_score folder (name artist) in
       (if Qgeb name_similarity threshold
        then [(name artist, name_similarity)] else [])
       ++ flat_map
            (λ slug,
               let slug_similarity := similarity_score folder slug in
               if Qgeb slug_similarity threshold
               then [(name artist, slug_similarity)] else [])
            (alternative_slugs artist))
    unmatched.

Fixpoint insert_by_score (x : str * Q) (l : list (str * Q)) : list (str * Q) :=
  match l with
  | [] => [x]
  | y :: l' => if Qgtb y.2 x.2 then y :: insert_by_score x l' else x :: l
  end.

(** [sorted(items, key=lambda x: x[1], reverse=True)]: by falling score,
    equal scores in their first order. *)
Definition sorted_by_score (l : list (str * Q)) : list (str * Q) :=
  foldr insert_by_score [] l.

(** [if name not in unique_matches or score > unique_matches[name]:
    unique_matches[name] = score] *)
Definition unique_step (unique : list (str * Q)) (ns : str * Q) : list (str * Q) :=
  match Dict.get unique ns.1 with
  | None => Dict.set unique ns.1 ns.2
  | Some best => if Qgtb ns.2 best then Dict.set unique ns.1 ns.2 else unique
  end.

(** The dictionary [unique_matches]: the best score of every name. *)
Definition unique_matches (matches : list (str * Q)) : list (str * Q) :=
  fold_left unique_step matches [].

(** One round of the loop over the orphaned folders. *)
Definition add_folder (threshold : Q) (unmatched : list artist)
    (potential_matches : list (str * list (str * Q))) (folder : str) :
    list (str * list (str * Q)) :=
  match folder_matches threshold unmatched folder with
  | [] => potential_matches
  | matches =>
      Dict.set potential_matches folder (sorted_by_score (unique_matches matches))
  end.

Definition find_potential_matches (rows : list row) (public_folders : gset str)
    (threshold : Q) : list (str * list (str * Q)) :=
  let db_artists := get_database_artists rows in
  let matched := matched_artists db_artists public_folders in
  let unmatched := unmatched_artists db_artists matched in
  let orphaned_folders :=
    public_folders ∖ matched_folders db_artists public_folders matched in
  fold_left (add_folder threshold unmatched) (iter_set orphaned_folders) [].

(** The number of candidates in the answer, all folders together. *)
Definition candidate_count (potential_matches : list (str * list (str * Q))) : nat :=
  list_sum (map (λ kv, length kv.2) potential_matches).
End reconciler.
End Reconciler.

(** ** The file system under a base directory

    [path_exists d n] is [(base_path / n).exists()], [iterdir d] the entries
    of the base directory with their [is_dir()], and [shutil_move d old new]
    is [shutil.move(str(base_path / old), str(base_path / new))]: the disk
    afterwards and whether the call returned rather than raised.

    This is a disk whose probes answer. [Path.exists] and [is_dir] answer
    [False] for a path that is not there and raise every other [OSError]
    again, and [iterdir] raises without the base directory. The migrator
    makes its base directories before it looks at them (lines 143 and 144
    of [regenerate_all_with_migration.py]), and an exception of a probe
    ends its run where it stands; it is modelled on [Disk], for the runs
    and the part of a run in which the probes answer. The checker goes on
    without the base directory (lines 169 to 172 of
    [check_sanitization_changes.py]): it is modelled on [Probe] below,
    where a probe can raise. *)
Class Disk (fs : Type) := {
  path_exists : fs → str → bool;
  iterdir : fs → list (str * bool);
  shutil_move : fs → str → str → fs * bool
}.

(** [if x:] for an optional string *)
Definition truthy (x : option str) : bool :=
  match x with Some (_ :: _) => true | _ => false end.

(** ** Probes that can raise

    [probe_exists d n] is [(base_path / n).exists()] and [probe_iterdir d]
    the entries of [base_path.iterdir()], each with its [is_dir()]; [None]
    stands for the [OSError] that the call raises: [FileNotFoundError] for
    [iterdir] without the base directory, ENAMETOOLONG for [exists] on a
    name that the file system finds too long. *)
Class Probe (fs : Type) := {
  probe_exists : fs → str → option bool;
  probe_iterdir : fs → option (list (str * option bool))
}.

(** A disk whose probes answer, as one whose probes could raise. *)
Definition answering {fs : Type} (D : Disk fs) : Probe fs :=
  {| probe_exists d n := Some (path_exists d n);
     probe_iterdir d := Some (map (λ e : str * bool, (e.1, Some e.2)) (iterdir d)) |}.

(** [for x in l: if test(x): return x], where the test can raise: the
    tests are made from the left and stop at the first that holds or
    raises. *)
Fixpoint first_that {A : Type} (test : A → option bool) (l : list A) :
    option (option A) :=
  match l with
  | [] => Some None
  | x :: l' =>
      match test x with
      | Some true => Some (Some x)
      | Some false => first_that test l'
      | None => None
      end
  end.

(** ** [regenerate_all_with_migration.py] *)

Module Migrator.
Import PyStr.
Section migrator.
Context {U : UnicodeData} {fs : Type} {D : Disk fs}.

Inductive status := correct | missing | conflict | needs_migration.

Record FolderMigrator := {
  dry_run : bool;
  migrations_needed : list (str * str);
  migrations_completed : list (str * str);
  conflicts : list (str * str)
}.

(** [FolderMigrator(base_path, dry_run)] *)
Definition init (dry_run : bool) : FolderMigrator :=
  {| dry_run := dry_run; migrations_needed := []; migrations_completed := [];
     conflicts := [] |}.

(** The disk, and the calls of [shutil.move] made so far, each with the
    disk it was made on. *)
Record world := {
  disk : fs;
  moves : list (fs * str * str)
}.

Definition analyze_folder (self : FolderMigrator) (d : fs)
    (current_name expected_name : str) : status :=
  if str_eqb current_name expected_name then correct
  else if negb (path_exists d current_name) then missing
  else if path_exists d expected_name then conflict
  else needs_migration.

Definition migrate_folder (self : FolderMigrator) (w : world) (old_name new_name : str) :
    bool * FolderMigrator * world :=
  if dry_run self then (true, self, w)
  else
    let '(d', returned) := shutil_move (disk w) old_name new_name in
    let w' := {| disk := d'; moves := moves w ++ [(disk w, old_name, new_name)] |} in
    if returned then
      (true,
       {| dry_run := dry_run self;
          migrations_needed := migrations_needed self;
          migrations_completed := migrations_completed self ++ [(old_name, new_name)];
          conflicts := conflicts self |},
       w')
    else (false, self, w').

Definition join_id (var discogs_id : str) : str := var ++ [DASH] ++ discogs_id.

(** [find_existing_folder(base_path, artist_name, discogs_id)] *)
Definition find_existing_folder (d : fs) (artist_name : str) (discogs_id : option str) :
    option str :=
  let dashed := replace (py " ") (py "-") (lower artist_name) in
  let variations :=
    [ artist_name; lower artist_name; dashed;
      replace (py " ") (py "_") (lower artist_name);
      filter (λ c, is_ascii c = true) dashed ] in
  let variations :=
    if truthy discogs_id
    then map (λ var, join_id var (default [] discogs_id)) variations
    else variations in
  match List.find (path_exists d) variations with
  | Some variant => Some variant
  | None =>
      if (5 <? length artist_name)%nat then
        let key_part := lower (take 5 artist_name) in
        fst <$> List.find
          (λ folder : str * bool,
             folder.2 && contains key_part (lower folder.1)
             && match discogs_id with
                | None => true
                | Some i => contains i folder.1
                end)
          (iterdir d)
      else None
  end.

(** The state of [main] while it goes through the entities of one kind:
    the migrator, the world, and the dictionary of the folders moved. *)
Definition run_state := (FolderMigrator * world * list (str * str))%type.

(** The body of the two loops of [main], from [if existing_folder:] on. *)
Definition migrate_entity (st : run_state) (existing_folder : option str)
    (expected_folder : str) : run_state :=
  let '(migrator, w, mappings) := st in
  if truthy existing_folder then
    let existing_folder := default [] existing_folder in
    match analyze_folder migrator (disk w) existing_folder expected_folder with
    | needs_migration =>
        let migrator :=
          {| dry_run := dry_run migrator;
             migrations_needed :=
               migrations_needed migrator ++ [(existing_folder, expected_folder)];
             migrations_completed := migrations_completed migrator;
             conflicts := conflicts migrator |} in
        let '(ok, migrator, w) :=
          migrate_folder migrator w existing_folder expected_folder in
        if ok then (migrator, w, Dict.set mappings existing_folder expected_folder)
        else (migrator, w, mappings)
    | conflict =>
        ({| dry_run := dry_run migrator;
            migrations_needed := migrations_needed migrator;
            migrations_completed := migrations_completed migrator;
            conflicts := conflicts migrator ++ [(existing_folder, expected_folder)] |},
         w, mappings)
    | _ => st
    end
  else st.

(** Phase 1 of [main]: [for artist in artists]. *)
Definition migrate_artists (st : run_state) (artist_names : list str) : run_state :=
  fold_left
    (λ st artist_name,
       let expected_folder := Sanitizer.sanitize_folder_name artist_name in
       let existing_folder := find_existing_folder (disk st.1.2) artist_name None in
       migrate_entity st existing_folder expected_folder)
    artist_names st.

(** Phase 2 of [main]: [for release in releases], each release given by
    its title and [str(release.discogs_id)]. *)
Definition migrate_releases (st : run_state) (releases : list (str * str)) : run_state :=
  fold_left
    (λ st release,
       let expected_folder :=
         join_id (Sanitizer.sanitize_folder_name release.1) release.2 in
       let existing_folder :=
         find_existing_folder (disk st.1.2) release.1 (Some release.2) in
       migrate_entity st existing_folder expected_folder)
    releases st.
End migrator.
End Migrator.

(** ** [check_sanitization_changes.py] *)

Module Checker.
Import PyStr.
Section checker.
Context {U : UnicodeData} {fs : Type} {P : Probe fs}.

(** The values that the key ['status'] takes. *)
Inductive status := unknown | missing | correct | conflict | needs_change.

(** The dictionary [result]. *)
Record result := {
  name : str;
  id : str;
  expected_folder : str;
  current_folder : str;
  status_of : status
}.

Definition set_status (r : result) (s : status) : result :=
  {| name := name r; id := id r; expected_folder := expected_folder r;
     current_folder := current_folder r; status_of := s |}.

Record SanitizationChecker := {
  changes_needed : list result;
  conflicts : list result;
  already_correct : list result;
  missing_folders : list result
}.

Definition init : SanitizationChecker :=
  {| changes_needed := []; conflicts := []; already_correct := [];
     missing_folders := [] |}.

Definition expected_name_of (name : str) (entity_id : option str) : str :=
  if truthy entity_id
  then Sanitizer.sanitize_folder_name name ++ [DASH] ++ default [] entity_id
  else Sanitizer.sanitize_folder_name name.

(** [folder.is_dir() and test(folder.name)] *)
Definition is_dir_and (test : str → bool) (folder : str * option bool) :
    option bool :=
  match folder.2 with
  | Some is_dir => Some (is_dir && test folder.1)
  | None => None
  end.

(** [None] where a probe raises, [Some None] for [return None]. *)
Definition find_existing_folder (d : fs) (name : str) (entity_id : option str) :
    option (option str) :=
  let test_name := expected_name_of name entity_id in
  match probe_exists d test_name with
  | None => None
  | Some true => Some (Some test_name)
  | Some false =>
      let dashed := replace (py " ") (py "-") (lower name) in
      let variations :=
        [ dashed; replace (py " ") (py "_") (lower name);
          filter (λ c, is_ascii c = true) dashed ] in
      let variations :=
        if truthy entity_id
        then map (λ var, var ++ [DASH] ++ default [] entity_id) variations
        else variations in
      match first_that (probe_exists d) variations with
      | None => None
      | Some (Some var) => Some (Some var)
      | Some None =>
          if truthy entity_id then
            match probe_iterdir d with
            | None => None
            | Some folders =>
                match first_that
                        (is_dir_and (contains (default [] entity_id))) folders
                with
                | None => None
                | Some (Some folder) => Some (Some folder.1)
                | Some None => Some None
                end
            end
          else
            let name_start :=
              if (5 <? length name)%nat then lower (take 5 name)
              else lower name in
            match probe_iterdir d with
            | None => None
            | Some folders =>
                match first_that
                        (is_dir_and (λ n, startswith (lower n) name_start))
                        folders
                with
                | None => None
                | Some (Some folder) => Some (Some folder.1)
                | Some None => Some None
                end
            end
      end
  end.

(** [None] where the call raises: nothing has been appended by then. *)
Definition check_entity (self : SanitizationChecker) (d : fs) (name : str)
    (entity_id : option str) : option (result * SanitizationChecker) :=
  let expected_name := expected_name_of name entity_id in
  match find_existing_folder d name entity_id with
  | None => None
  | Some existing_folder =>
      let result :=
        {| name := name;
           id := if truthy entity_id then default [] entity_id else [];
           expected_folder := expected_name;
           current_folder :=
             if truthy existing_folder then default [] existing_folder
             else py "NOT FOUND";
           status_of := unknown |} in
      if negb (truthy existing_folder) then
        let result := set_status result missing in
        Some (result,
              {| changes_needed := changes_needed self;
                 conflicts := conflicts self;
                 already_correct := already_correct self;
                 missing_folders := missing_folders self ++ [result] |})
      else if str_eqb (default [] existing_folder) expected_name then
        let result := set_status result correct in
        Some (result,
              {| changes_needed := changes_needed self;
                 conflicts := conflicts self;
                 already_correct := already_correct self ++ [result];
                 missing_folders := missing_folders self |})
      else
        match probe_exists d expected_name with
        | None => None
        | Some true =>
            let result := set_status result conflict in
            Some (result,
                  {| changes_needed := changes_needed self;
                     conflicts := conflicts self ++ [result];
                     already_correct := already_correct self;
                     missing_folders := missing_folders self |})
        | Some false =>
            let result := set_status result needs_change in
            Some (result,
                  {| changes_needed := changes_needed self ++ [result];
                     conflicts := conflicts self;
                     already_correct := already_correct self;
                     missing_folders := missing_folders self |})
        end
  end.

(** [for e in entities: checker.check_entity(e.name, e.id)], which the
    first call that raises ends: the records returned, in order, the
    checker as the loop leaves it, and the entities from the one whose
    call raised on, none if the loop came to its end. *)
Fixpoint check_all (d : fs) (self : SanitizationChecker)
    (entities : list (str * option str)) :
    list result * SanitizationChecker * list (str * option str) :=
  match entities with
  | [] => ([], self, [])
  | e :: rest =>
      match check_entity self d e.1 e.2 with
      | None => ([], self, entities)
      | Some (r, self') =>
          let '(rs, self'', pending) := check_all d self' rest in
          (r :: rs, self'', pending)
      end
  end.
End checker.
End Checker.

(** A disk that is the set of the names in the base directory, all of them
    directories. Moving onto a name that is taken puts the folder inside
    the directory of that name, as [shutil.move] does. *)
Module FlatDisk.
Definition move (d : gset str) (old new : str) : gset str * bool :=
  if bool_decide (old ∈ d) then
    if bool_decide (new ∈ d) then (d ∖ {[old]}, true)
    else ((d ∖ {[old]}) ∪ {[new]}, true)
  else (d, false).

Definition flat : Disk (gset str) :=
  {| path_exists := λ d n, bool_decide (n ∈ d);
     iterdir := λ d, map (λ n, (n, true)) (elements d);
     shutil_move := move |}.
End FlatDisk.

(** A base directory that may not be there, [None], on a file system
    that takes names of up to 255 bytes. Under a base directory that is
    not there nothing exists and [iterdir] raises; under one that is
    there [exists] raises on a longer name. Every entry is a directory. *)
Module BaseDir.
Definition utf8_length (s : str) : N :=
  fold_right
    (λ c n, (if c <? 128 then 1 else if c <? 2048 then 2
             else if c <? 65536 then 3 else 4) + n)
    0 s.

Definition NAME_MAX : N := 255.

Definition probe : Probe (option (gset str)) :=
  {| probe_exists d n :=
       match d with
       | None => Some false
       | Some names =>
           if NAME_MAX <? utf8_length n then None
           else Some (bool_decide (n ∈ names))
       end;
     probe_iterdir d :=
       match d with
       | None => None
       | Some names => Some (map (λ n, (n, Some true)) (elements names))
       end |}.
End BaseDir.

(** ** The wording of the specification

    Step 4 of the pipeline as section 4.1 words it, and as [re.sub]
    carries it out. *)

Module Spec.
Import PyStr.

Definition letter_before (prev : option N) : bool :=
  match prev with Some x => is_az x | None => false end.

(** a letter that no letter follows *)
Definition single_letter_follows (r : str) : bool :=
  match r with
  | y :: r' => is_az y && negb (head_is is_az r')
  | [] => false
  end.

(** Every underscore that stands between a letter and a letter with no
    letter after it is deleted, every other underscore becomes a dash.
    [prev] is the character before [s]. *)
Fixpoint underscores_as_claimed (prev : option N) (s : str) : str :=
  match s with
  | [] => []
  | c :: r =>
      if c =? UNDERSCORE then
        (if letter_before prev && single_letter_follows r then [] else [DASH])
        ++ underscores_as_claimed (Some c) r
      else c :: underscores_as_claimed (Some c) r
  end.

(** The same, but a letter that was merged with the letter to its left does
    not count as the letter before an underscore: the matches of [re.sub]
    do not overlap. [prev_merged] and [cur_merged] say so of [prev] and of
    the first character of [s]. *)
Fixpoint underscores_as_matched (prev : option N) (prev_merged cur_merged : bool)
    (s : str) : str :=
  match s with
  | [] => []
  | c :: r =>
      if c =? UNDERSCORE then
        let deleted :=
          letter_before prev && negb prev_merged && single_letter_follows r in
        (if deleted then [] else [DASH])
        ++ underscores_as_matched (Some c) cur_merged deleted r
      else c :: underscores_as_matched (Some c) cur_merged false r
  end.
End Spec.

(** Another order of the sets: [by_encoding] backwards. *)
Definition by_encoding_reversed : SetOrder :=
  {| list_of_set l := reverse (elements (list_to_set l : gset str));
     iter_set X := reverse (elements X);
     list_of_set_perm l := reverse_Permutation _;
     iter_set_perm X := reverse_Permutation _ |}.

(** ** More builtins *)

Module PyList.

(** [sep.join(l)] *)
Fixpoint join (sep : str) (l : list str) : str :=
  match l with
  | [] => []
  | [s] => s
  | s :: l' => s ++ sep ++ join sep l'
  end.

Fixpoint str_of_uint (d : Decimal.uint) : str :=
  match d with
  | Decimal.Nil => []
  | Decimal.D0 d => 48 :: str_of_uint d
  | Decimal.D1 d => 49 :: str_of_uint d
  | Decimal.D2 d => 50 :: str_of_uint d
  | Decimal.D3 d => 51 :: str_of_uint d
  | Decimal.D4 d => 52 :: str_of_uint d
  | Decimal.D5 d => 53 :: str_of_uint d
  | Decimal.D6 d => 54 :: str_of_uint d
  | Decimal.D7 d => 55 :: str_of_uint d
  | Decimal.D8 d => 56 :: str_of_uint d
  | Decimal.D9 d => 57 :: str_of_uint d
  end.

(** [str(n)] and [format(n)] for a length [n] *)
Definition str_of_nat (n : nat) : str := str_of_uint (Nat.to_uint n).

(** [a <= b] on strings: by code points, a prefix first. *)
Fixpoint str_leb (a b : str) : bool :=
  match a, b with
  | [], _ => true
  | _ :: _, [] => false
  | x :: a', y :: b' =>
      if x <? y then true else if y <? x then false else str_leb a' b'
  end.

Fixpoint insert_str (x : str) (l : list str) : list str :=
  match l with
  | [] => [x]
  | y :: l' => if str_leb x y then x :: l else y :: insert_str x l'
  end.

(** [sorted(l)] for a list of strings; equal strings keep their order. *)
Definition sorted (l : list str) : list str := foldr insert_str [] l.

End PyList.

(** ** [artist_folder_reconciler.py]: the coverage report and the script *)

Module Report.
Import PyStr PyList Reconciler.
Section report.
Context {U : UnicodeData} {O : SetOrder}.

(** The dictionary that [analyze_coverage] returns. *)
Record analysis := {
  total_db_artists : nat;
  total_public_folders : nat;
  exact_matches : nat;
  alternative_matches : nat;
  total_matches : nat;
  missing_artists : list artist;
  orphaned_folders : list str;
  coverage_percentage : Q
}.

(** The body of the loop of [analyze_coverage]; the state is
    [exact_matches], [alternative_matches], [missing_artists] and
    [matched_folders]. *)
Definition coverage_step (public_folders : gset str)
    (st : nat * nat * list artist * gset str) (artist : Reconciler.artist) :
    nat * nat * list Reconciler.artist * gset str :=
  let '(exact_matches, alternative_matches, missing_artists, matched_folders) := st in
  if bool_decide (slug artist ∈ public_folders) then
    (S exact_matches, alternative_matches, missing_artists,
     matched_folders ∪ {[slug artist]})
  else
    match first_on_disk public_folders (drop 1 (alternative_slugs artist)) with
    | Some alt_slug =>
        (exact_matches, S alternative_matches, missing_artists,
         matched_folders ∪ {[alt_slug]})
    | None =>
        (exact_matches, alternative_matches, missing_artists ++ [artist],
         matched_folders)
    end.

(** [analyze_coverage]; [None] is the [ZeroDivisionError] of the last
    entry of the dictionary. The quotient is exact. *)
Definition analyze_coverage (rows : list row) (public_folders : gset str) :
    option analysis :=
  let db_artists := get_database_artists rows in
  let '(exact_matches, alternative_matches, missing_artists, matched_folders) :=
    fold_left (coverage_step public_folders) db_artists (0%nat, 0%nat, [], ∅) in
  let orphaned_folders := public_folders ∖ matched_folders in
  match length db_artists with
  | 0%nat => None
  | S _ =>
      Some {| total_db_artists := length db_artists;
              total_public_folders := size public_folders;
              exact_matches := exact_matches;
              alternative_matches := alternative_matches;
              total_matches := (exact_matches + alternative_matches)%nat;
              missing_artists := missing_artists;
              orphaned_folders := iter_set orphaned_folders;
              coverage_percentage :=
                (Z.of_nat (exact_matches + alternative_matches)
                   # Pos.of_nat (length db_artists)) * 100 |}
  end.

Definition script_header : list str :=
  [ py "#!/bin/bash";
    py "# Script to create missing artist folders";
    py "# Generated by artist_folder_reconciler.py";
    [];
    py "PUBLIC_DIR=" ++ [DQUOTE] ++ py "../public/artist" ++ [DQUOTE];
    [];
    py "echo " ++ [DQUOTE] ++ py "Creating missing artist folders..." ++ [DQUOTE];
    [] ].

(** The three lines that the loop adds for one artist. *)
Definition script_entry (artist : Reconciler.artist) : list str :=
  let folder_name := slug artist in
  [ py "echo " ++ [DQUOTE] ++ py "Creating folder: " ++ folder_name ++ [DQUOTE];
    py "mkdir -p " ++ [DQUOTE] ++ py "$PUBLIC_DIR/" ++ folder_name ++ [DQUOTE];
    [] ].

Definition script_footer (missing_artists : list artist) : list str :=
  [ py "echo " ++ [DQUOTE] ++ py "Done! Created folders for "
      ++ str_of_nat (length missing_artists) ++ py " artists." ++ [DQUOTE];
    py "echo " ++ [DQUOTE]
      ++ py "You may need to manually review and adjust folder names for artists with special characters."
      ++ [DQUOTE] ].

Definition script_lines (missing_artists : list artist) : list str :=
  fold_left (λ script_lines artist, script_lines ++ script_entry artist)
    missing_artists script_header
  ++ script_footer missing_artists.

Definition generate_folder_creation_script (missing_artists : list artist) : str :=
  join [NEWLINE] (script_lines missing_artists).
End report.
End Report.

(** ** [find_missing_artists.py] *)

Module Finder.
Import PyStr PyList.
Section finder.
Context {U : UnicodeData} {O : SetOrder}.

(** The dictionary literal of [slugify]. *)
Definition accent_map : list (str * str) :=
  [ (py "á", py "a"); (py "à", py "a"); (py "ä", py "a"); (py "â", py "a");
    (py "ã", py "a"); (py "å", py "a");
    (py "é", py "e"); (py "è", py "e"); (py "ë", py "e"); (py "ê", py "e");
    (py "í", py "i"); (py "ì", py "i"); (py "ï", py "i"); (py "î", py "i");
    (py "ó", py "o"); (py "ò", py "o"); (py "ö", py "o"); (py "ô", py "o");
    (py "õ", py "o"); (py "ø", py "o");
    (py "ú", py "u"); (py "ù", py "u"); (py "ü", py "u"); (py "û", py "u");
    (py "ý", py "y"); (py "ÿ", py "y");
    (py "ñ", py "n");
    (py "ç", py "c");
    (py "ß", py "ss");
    (py "æ", py "ae");
    (py "œ", py "oe");
    (py "ð", py "d");
    (py "þ", py "th") ].

Definition slugify (text : str) : str :=
  let sanitized := replace (py " ") (py "-") (lower text) in
  let sanitized := Sanitizer.replace_all accent_map sanitized in
  let sanitized := filter (λ c, Sanitizer.keep_char c = true) sanitized in
  let sanitized := Sanitizer.collapse_dashes sanitized in
  strip_chars [DASH] sanitized.

Record artist := {
  id : Z;
  name : str;
  discogs_id : option Z;
  slug : str
}.

Definition get_database_artists (rows : list Reconciler.row) : list artist :=
  map (λ r : Reconciler.row,
         {| id := r.1.1; name := r.1.2; discogs_id := r.2;
            slug := slugify r.1.2 |}) rows.

(** The dictionary that [find_missing_artists] returns. *)
Record results := {
  missing : list artist;
  present : list artist;
  total_db : nat;
  total_public : nat
}.

Definition find_missing_artists (rows : list Reconciler.row)
    (public_folders : gset str) : results :=
  let db_artists := get_database_artists rows in
  let '(missing_artists, present_artists) :=
    fold_left
      (λ '(missing_artists, present_artists) artist,
         if bool_decide (slug artist ∈ public_folders)
         then (missing_artists, present_artists ++ [artist])
         else (missing_artists ++ [artist], present_artists))
      db_artists ([], []) in
  {| missing := missing_artists; present := present_artists;
     total_db := length db_artists; total_public := size public_folders |}.

Definition find_orphaned_folders (rows : list Reconciler.row)
    (public_folders : gset str) : list str :=
  let db_artists := get_database_artists rows in
  let db_slugs : gset str := list_to_set (map slug db_artists) in
  let orphaned :=
    filter (λ folder, folder ∉ db_slugs) (iter_set public_folders) in
  sorted orphaned.

(** What [print_summary] puts on its last line. *)
Inductive coverage_line :=
  | Coverage (coverage : Q)
  | AllHaveFolders.

(** The last statement of [print_summary]; [None] is the
    [ZeroDivisionError] of the quotient, which is exact here. *)
Definition print_summary_coverage (results : results) : option coverage_line :=
  match missing results with
  | _ :: _ =>
      match total_db results with
      | 0%nat => None
      | S _ =>
          Some (Coverage ((Z.of_nat (length (present results))
                             # Pos.of_nat (total_db results)) * 100))
      end
  | [] => Some AllHaveFolders
  end.
End finder.
End Finder.

(** ** The list of the artists in the two [main] functions *)

Module Collection.
Section collection.
(** An artist object and its [name]. *)
Context {A : Type} (name : A → str).

(** [if artist.name not in artist_names: artist_names.add(artist.name);
    artists.append(artist)] *)
Definition add_artist (st : gset str * list A) (artist : A) : gset str * list A :=
  let '(artist_names, artists) := st in
  if bool_decide (name artist ∉ artist_names)
  then (artist_names ∪ {[name artist]}, artists ++ [artist])
  else st.

(** [for release in releases: for artist in release.artists: ...], each
    release given by the list [release.artists]. *)
Definition unique_artists (releases : list (list A)) : list A :=
  (fold_left (λ st artists_of_release, fold_left add_artist artists_of_release st)
     releases (∅, [])).2.
End collection.
End Collection.

(** * Notions that the properties are stated with *)

Import PyStr Sanitizer.

(** A character that [lower] leaves alone wherever it stands. *)
Definition lower_fixed `{U : UnicodeData} (c : N) : Prop :=
  to_lower_full c = [c] ∧ c ≠ CAPITAL_SIGMA.

(** The facts of the Unicode character database that idempotence rests on:
    no alphanumeric character is whitespace, and the characters that
    lowercasing produces are left alone by lowercasing. *)
Class UnicodeLaws (U : UnicodeData) : Prop := {
  alnum_not_space :
    ∀ c, is_ascii c = false → ucd_isalnum c = true → ucd_isspace c = false;
  lower_stable :
    ∀ c d, is_ascii c = false → d ∈ ucd_lower c → lower_fixed d;
  sigma_stable : lower_fixed FINAL_SIGMA ∧ lower_fixed SMALL_SIGMA
}.

Section slug_notions.
Context {U : UnicodeData}.

(** The characters of a slug as section 3 of the specification has them. *)
Definition slug_char (c : N) : bool := is_az c || is_digit c || (c =? DASH).

(** ASCII and not a capital letter *)
Definition plain_ascii (c : N) : Prop := is_ascii c = true ∧ is_upper_az c = false.

(** What a round of the loop over [symbol_map] puts in. *)
Definition effective_symbol (kv : str * str) : str * str :=
  (kv.1, if str_in kv.2 fraction_words then DASH :: kv.2 else kv.2).

(** The four tables in the order they are applied, as one list of
    replacements. *)
Definition all_replacements : list (str * str) :=
  accent_map ++ map effective_symbol symbol_map
  ++ map (λ k, (k, [])) remove_chars ++ greek_map.

(** The first character of every string that some table replaces. *)
Definition key_heads : list N :=
  flat_map (λ kv : str * str, match kv.1 with c0 :: _ => [c0] | [] => [] end)
    all_replacements.

(** A key of one character is not a slug character; the one longer key
    starts with a character that the filter drops. *)
Definition key_ok (kv : str * str) : bool :=
  match kv.1 with
  | [c0] => negb (slug_char c0)
  | c0 :: _ => negb (keep_char c0)
  | [] => false
  end.

(** A letter or a digit that is not whitespace and with which no key of
    the four tables starts: no step of the pipeline replaces it. *)
Definition untransliterated (c : N) : Prop :=
  isalnum c = true ∧ isspace c = false ∧ c ∉ key_heads.

(** A letter [a-z], a digit or the underscore. *)
Definition word_char (c : N) : bool := is_az c || is_digit c || (c =? UNDERSCORE).

(** A name of lowercase letters, digits and underscores that neither
    starts nor ends with an underscore and has no two in a row. *)
Definition underscored_word (name : str) : Prop :=
  Forall (λ c, word_char c = true) name
  ∧ head name ≠ Some UNDERSCORE
  ∧ last name ≠ Some UNDERSCORE
  ∧ contains [UNDERSCORE; UNDERSCORE] name = false
  ∧ name ≠ [].

(** One letter stands alone between two underscores. *)
Fixpoint letter_between_underscores (s : str) : bool :=
  match s with
  | [] => false
  | u :: t =>
      match t with
      | y :: u' :: _ => (u =? UNDERSCORE) && is_az y && (u' =? UNDERSCORE)
      | _ => false
      end
      || letter_between_underscores t
  end.

(** A slug as the pipeline leaves it. *)
Record settled (t : str) : Prop := {
  settled_keep : Forall (λ c, keep_char c = true) t;
  settled_lower : Forall lower_fixed t;
  settled_keys : ∀ c0, c0 ∈ key_heads → c0 ∉ t;
  settled_head : head t ≠ Some DASH;
  settled_last : last t ≠ Some DASH;
  settled_dashes : contains double_dash t = false;
  settled_nonempty : t ≠ []
}.

End slug_notions.

Section disk_notions.
Context {fs : Type} {D : Disk fs}.

(** A call of [shutil.move] whose target was free when it was made. *)
Definition onto_free_name (m : fs * str * str) : Prop :=
  path_exists m.1.1 m.2 = false.

End disk_notions.

Section checker_notions.
Import Checker.

Global Instance status_eq_dec : EqDecision status.
Proof. solve_decision. Defined.

Definition has_status (s : status) (r : result) : Prop := status_of r = s.

Global Instance has_status_dec (s : status) (r : result) :
  Decision (has_status s r).
Proof. unfold has_status. apply _. Defined.

(** The checker [self'] is [self] with [r] added at the end of the list of
    its status, and of no other list. *)
Definition filed (self self' : SanitizationChecker) (r : result) : Prop :=
  missing_folders self'
    = missing_folders self ++ filter (has_status missing) [r]
  ∧ already_correct self'
    = already_correct self ++ filter (has_status correct) [r]
  ∧ conflicts self' = conflicts self ++ filter (has_status conflict) [r]
  ∧ changes_needed self'
    = changes_needed self ++ filter (has_status needs_change) [r].

Context {U : UnicodeData} {fs : Type} {P : Probe fs}.

(** The record [r] is that of the entity [e] on the disk [d]: it carries
    the name, the id and the expected folder of [e] and the folder that
    the search finds for [e], and its status says how the search went. *)
Definition record_of (d : fs) (e : str * option str) (r : result) : Prop :=
  let expected := expected_name_of e.1 e.2 in
  name r = e.1
  ∧ id r = default [] e.2
  ∧ expected_folder r = expected
  ∧ ∃ found, find_existing_folder d e.1 e.2 = Some found
      ∧ current_folder r
        = (if truthy found then default [] found else py "NOT FOUND")
      ∧ (status_of r = missing ↔ truthy found = false)
      ∧ (status_of r = correct ↔ found = Some expected)
      ∧ (status_of r = conflict → probe_exists d expected = Some true)
      ∧ (status_of r = needs_change → probe_exists d expected = Some false).

(** Every probe of the disk answers. *)
Definition answers (d : fs) : Prop :=
  (∀ n, is_Some (probe_exists d n))
  ∧ ∃ folders, probe_iterdir d = Some folders
      ∧ Forall (λ folder : str * option bool, is_Some folder.2) folders.

End checker_notions.

Section reconciler_notions.
Context {U : UnicodeData}.
Import Reconciler.

(** What a folder adds to the count. *)
Definition folder_count (threshold : Q) (unmatched : list artist) (folder : str) : nat :=
  length (unique_matches (folder_matches threshold unmatched folder)).

End reconciler_notions.

Section matcher_notions.
Import Difflib.
Local Open Scope nat_scope.
Variables a b : str.

(** The positions of [x] in [l], counted from [start]. *)
Fixpoint positions_from (start : nat) (x : N) (l : str) : list nat :=
  match l with
  | [] => []
  | y :: l' => (if N.eqb y x then [start] else []) ++ positions_from (S start) x l'
  end.

(** A block that lies in the window. *)
Definition in_window (w : window) (m : Match) : Prop :=
  w.1.1.1 ≤ m.1.1 ∧ m.1.1 + m.2 ≤ w.1.1.2 ∧ w.1.2 ≤ m.1.2 ∧ m.1.2 + m.2 ≤ w.2.

(** A block on which [a] and [b] agree. *)
Definition agrees (m : Match) : Prop :=
  ∀ t, t < m.2 → same_elt a b (m.1.1 + t) (m.1.2 + t) = true.

(** The row [j2len] before the index [inext] is looked at: the lengths
    are those of common runs that end at [inext - 1]. *)
Definition row_ok (alo blo inext : nat) (row : gmap nat nat) : Prop :=
  ∀ j k, row !! j = Some k →
    1 ≤ k ∧ k + alo ≤ inext ∧ k ≤ j + 1 - blo ∧ blo ≤ j
    ∧ ∀ t, t < k → same_elt a b (inext - 1 - t) (j - t) = true.

Definition scan_ok (w : window) (inext : nat) (st : gmap nat nat * Match) : Prop :=
  row_ok w.1.1.1 w.1.2 inext st.1 ∧ in_window w st.2 ∧ agrees st.2.

(** The windows that the loop of [get_matching_blocks] goes through, as a
    tree: the match of a window, then what comes of the window to its
    right, then what comes of the window to its left. [n] bounds the
    depth. *)
Fixpoint blocks_of (n : nat) (w : window) : list Match :=
  match n with
  | O => []
  | S n =>
      let '(alo, ahi, blo, bhi) := w in
      let '(i, j, k) := find_longest_match a b alo ahi blo bhi in
      if k =? 0 then []
      else (i, j, k)
           :: (if (i + k <? ahi) && (j + k <? bhi)
               then blocks_of n (i + k, ahi, j + k, bhi) else [])
           ++ (if (alo <? i) && (blo <? j)
               then blocks_of n (alo, i, blo, j) else [])
  end.

(** The rounds of the loop that a window costs. *)
Fixpoint rounds_of (n : nat) (w : window) : nat :=
  match n with
  | O => 1
  | S n =>
      let '(alo, ahi, blo, bhi) := w in
      let '(i, j, k) := find_longest_match a b alo ahi blo bhi in
      if k =? 0 then 1
      else 1
           + (if (i + k <? ahi) && (j + k <? bhi)
              then rounds_of n (i + k, ahi, j + k, bhi) else 0)
           + (if (alo <? i) && (blo <? j)
              then rounds_of n (alo, i, blo, j) else 0)
  end.

Definition total (l : list Match) : nat := list_sum (map msize l).

End matcher_notions.

Section identical_notions.
Import Difflib.
Local Open Scope nat_scope.
Variable s : str.

(** An element that has kept its entry in [b2j]. *)
Definition live (x : N) : bool := bool_decide (is_Some (b2j s !! x)).

(** The length of the run of live elements that ends at [i]. *)
Fixpoint live_run (i : nat) : nat :=
  match s !! i with
  | Some x =>
      if live x then S (match i with O => 0 | S i' => live_run i' end) else 0
  | None => 0
  end.

Definition before (i : nat) : nat :=
  match i with O => 0 | S i' => live_run i' end.

(** The row before the index [inext] is looked at, when [a] and [b] are
    the same string and the window is all of it: no length is more than
    the run of live elements allows, and the diagonal has all of it. *)
Definition diag_row (inext : nat) (row : gmap nat nat) : Prop :=
  (∀ j k, row !! j = Some k →
     ∃ i, inext = S i ∧ k ≤ live_run (Nat.min i j))
  ∧ ∀ i, inext = S i → default 0 (row !! i) = live_run i.

Definition diag_best (inext : nat) (best : Match) : Prop :=
  best.1.1 = best.1.2 ∧ ∀ i, i < inext → live_run i ≤ msize best.

(** The length that the loop computes at [(i, j)]. *)
Definition run_at (prev : gmap nat nat) (j : nat) : nat :=
  S (match j with O => 0 | S j' => default 0 (prev !! j') end).

End identical_notions.

Section plain_names.
Context {U : UnicodeData}.

(** A character of a plain name: ASCII, not the underscore, and of the
    whitespace only the space. *)
Definition plain_name_char (c : N) : bool :=
  is_ascii c && negb (c =? UNDERSCORE) && (negb (isspace c) || (c =? 32)).

(** A character of a plain name that is not the space. *)
Definition spaceless (c : N) : bool :=
  is_ascii c && negb (c =? UNDERSCORE) && negb (c =? 32).

(** A replacement that does nothing to what the filter keeps of an ASCII
    string without a space: its key starts with a character that is not
    ASCII, or is one character that the filter drops and that it deletes,
    or has a space in second place. *)
Definition inert (kv : str * str) : bool :=
  match kv.1 with
  | [] => false
  | [c] => negb (is_ascii c) || (negb (keep_char c) && bool_decide (kv.2 = []))
  | c0 :: c1 :: _ => negb (is_ascii c0) || (c1 =? 32)
  end.

(** The characters that [normalise] deletes one by one, in its order. *)
Definition deleted_chars : list str :=
  [py "["; py "]"; py "{"; py "}"; py "&"; py "'"; [DQUOTE]; py "."; py "!";
   py "?"; py ";"; py ":"].

(** Runs of dashes cut down to one dash each; [after_dash] tells that a
    dash stands just before [s]. *)
Fixpoint squeeze (after_dash : bool) (s : str) : str :=
  match s with
  | [] => []
  | c :: r =>
      if c =? DASH then (if after_dash then [] else [DASH]) ++ squeeze true r
      else c :: squeeze false r
  end.
End plain_names.

Section candidate_notions.
Context {U : UnicodeData}.
Import Reconciler.

(** What one orphaned folder adds to the answer. *)
Definition folder_entry (threshold : Q) (unmatched : list artist) (folder : str) :
    option (str * list (str * Q)) :=
  match folder_matches threshold unmatched folder with
  | [] => None
  | matches => Some (folder, sorted_by_score (unique_matches matches))
  end.

(** The order of the candidates: the score does not rise. *)
Definition by_falling_score (x y : str * Q) : Prop := (y.2 <= x.2)%Q.
End candidate_notions.

Section coverage_notions.
Context {U : UnicodeData}.
Import Reconciler.

(** An artist that the loop of [analyze_coverage] puts among the missing:
    its slug is not on disk, and none of its alternatives after the first. *)
Definition uncovered (public_folders : gset str) (a : artist) : Prop :=
  (slug a ∉ public_folders)
  ∧ (first_on_disk public_folders (drop 1 (alternative_slugs a)) = None).

Global Instance uncovered_dec (public_folders : gset str) (a : artist) :
  Decision (uncovered public_folders a).
Proof. unfold uncovered. apply _. Defined.
End coverage_notions.

(** [s.split(sep)] for a separator of one character *)
Fixpoint split_at (sep : N) (s : str) : list str :=
  match s with
  | [] => [[]]
  | c :: r =>
      if c =? sep then [] :: split_at sep r
      else
        match split_at sep r with
        | line :: lines => (c :: line) :: lines
        | [] => [[c]]
        end
  end.

(** The characters that the shell reads between double quotes, and the end
    of the line: the quote, the dollar, the backslash, the backquote. *)
Definition shell_special : list N := [DQUOTE; 36; 92; 96; NEWLINE].

(** [a <= b] on strings *)
Definition str_le (a b : str) : Prop := PyList.str_leb a b = true.

Section migrator_notions.
Context {fs : Type}.
Import Migrator.

(** The books of a run agree: what is completed was first needed, in that
    order; a dry run completes nothing; a real run has called
    [shutil.move] once for every migration needed, in that order; no pair
    that is needed or in conflict has the two names equal; and the
    dictionary of the folders moved has no key that was not needed. *)
Definition books_balanced (st : run_state) : Prop :=
  migrations_completed st.1.1 `sublist_of` migrations_needed st.1.1
  ∧ (dry_run st.1.1 = true → migrations_completed st.1.1 = [])
  ∧ (dry_run st.1.1 = false →
     map (λ mv : fs * str * str, (mv.1.2, mv.2)) (moves st.1.2)
     = migrations_needed st.1.1)
  ∧ Forall (λ p : str * str, p.1 ≠ p.2)
      (migrations_needed st.1.1 ++ conflicts st.1.1)
  ∧ ∀ old, old ∈ map fst st.2 → old ∈ map fst (migrations_needed st.1.1).
End migrator_notions.

(** The lowercase of an ASCII character. *)
Definition ascii_lower (c : N) : N := if PyStr.is_upper_az c then c + 32 else c.

(** * Properties *)

(** ** Strings *)

Import PyStr.

Lemma dropwhile_elem (p : N → bool) (s : str) (x : N) :
  x ∈ dropwhile p s → x ∈ s.
Proof.
  induction s as [|c r IH]; simpl; [done|].
  destruct (p c); [|done]. intros H. right. by apply IH.
Qed.

Lemma dropwhile_head (p : N → bool) (s : str) :
  head_is p (dropwhile p s) = false.
Proof.
  induction s as [|c r IH]; simpl; [done|].
  destruct (p c) eqn:E; [done|]. simpl. by rewrite E.
Qed.

Lemma dropwhile_id (p : N → bool) (s : str) :
  head_is p s = false → dropwhile p s = s.
Proof. destruct s as [|c r]; simpl; [done|]. by intros ->. Qed.

(** What [dropwhile] leaves is a suffix, and what it drops satisfies [p]. *)
Lemma dropwhile_split (p : N → bool) (s : str) :
  ∃ t, s = t ++ dropwhile p s ∧ Forall (λ c, p c = true) t.
Proof.
  induction s as [|c r (t & Hs & Ht)]; simpl.
  - by exists [].
  - destruct (p c) eqn:E.
    + exists (c :: t). split; [simpl; by rewrite <- Hs | by constructor].
    + by exists [].
Qed.

Lemma rstrip_split (p : N → bool) (s : str) :
  ∃ t, s = rstrip p s ++ t ∧ Forall (λ c, p c = true) t.
Proof.
  unfold rstrip. destruct (dropwhile_split p (rev s)) as (t & Hs & Ht).
  exists (rev t). split.
  - rewrite <- rev_app_distr, <- Hs. by rewrite rev_involutive.
  - rewrite rev_alt. by apply Forall_reverse.
Qed.

Lemma rstrip_last (p : N → bool) (s : str) (c : N) :
  last (rstrip p s) = Some c → p c = false.
Proof.
  unfold rstrip. rewrite rev_alt. fold (reverse (dropwhile p (rev s))).
  rewrite last_reverse. intros H.
  pose proof (dropwhile_head p (rev s)) as Hh.
  destruct (dropwhile p (rev s)) as [|d r]; [done|].
  simpl in *. by simplify_eq.
Qed.

Lemma strip_by_elem (p : N → bool) (s : str) (x : N) :
  x ∈ strip_by p s → x ∈ s.
Proof.
  unfold strip_by, lstrip. intros H. apply (dropwhile_elem p).
  destruct (rstrip_split p (dropwhile p s)) as (t & Hs & _).
  rewrite Hs. apply elem_of_app. by left.
Qed.

Lemma strip_by_head (p : N → bool) (s : str) :
  head_is p (strip_by p s) = false.
Proof.
  unfold strip_by, lstrip.
  destruct (rstrip_split p (dropwhile p s)) as (t & Hs & _).
  pose proof (dropwhile_head p s) as Hh. rewrite Hs in Hh.
  by destruct (rstrip p (dropwhile p s)).
Qed.

Lemma strip_by_last (p : N → bool) (s : str) (c : N) :
  last (strip_by p s) = Some c → p c = false.
Proof. apply rstrip_last. Qed.

Lemma head_is_Forall_false (p : N → bool) (s : str) :
  Forall (λ c, p c = false) s → head_is p s = false.
Proof. by intros [|c r Hc _]. Qed.

Lemma strip_by_id (p : N → bool) (s : str) :
  Forall (λ c, p c = false) s → strip_by p s = s.
Proof.
  intros H. unfold strip_by, lstrip, rstrip.
  rewrite (dropwhile_id p s); [|by apply head_is_Forall_false].
  rewrite dropwhile_id; [by rewrite rev_involutive|].
  rewrite rev_alt. apply head_is_Forall_false. by apply Forall_reverse.
Qed.

(** [replace] *)

Lemma replace_from_elem (old new : str) (k : nat) (s : str) (x : N) :
  x ∈ replace_from old new k s → x ∈ s ∨ x ∈ new.
Proof.
  revert k. induction s as [|c r IH]; intros k; simpl; [by left|].
  destruct k as [|k].
  - destruct (is_prefix old (c :: r)).
    + intros [H|H]%elem_of_app; [by right|].
      destruct (IH _ H); [left; by right | by right].
    + intros [->|H]%elem_of_cons; [left; by left|].
      destruct (IH _ H); [left; by right | by right].
  - intros H. destruct (IH _ H); [left; by right | by right].
Qed.

Lemma replace_Forall (P : N → Prop) (old new s : str) :
  Forall P new → Forall P s → Forall P (replace old new s).
Proof.
  rewrite !Forall_forall. intros Hn Hs x Hx.
  destruct (replace_from_elem _ _ _ _ _ Hx); auto.
Qed.

Lemma is_prefix_head (c0 : N) (o s : str) :
  is_prefix (c0 :: o) s = true → head s = Some c0.
Proof.
  destruct s as [|c r]; simpl; [done|].
  intros [H _]%andb_prop. apply N.eqb_eq in H. by subst.
Qed.

(** A pattern whose first character does not occur is not replaced. *)
Lemma replace_absent (c0 : N) (o new s : str) :
  c0 ∉ s → replace (c0 :: o) new s = s.
Proof.
  unfold replace. induction s as [|c r IH]; [done|].
  intros Hn. cbn [replace_from].
  destruct (is_prefix (c0 :: o) (c :: r)) eqn:E.
  - apply is_prefix_head in E. simpl in E. simplify_eq. exfalso. apply Hn. by left.
  - f_equal. apply IH. intros H. apply Hn. by right.
Qed.

(** After [replace(k, new)] the character [k] is gone, if [new] is free of it. *)
Lemma replace_single_removes (k : N) (new s : str) :
  k ∉ new → k ∉ replace [k] new s.
Proof.
  intros Hn. unfold replace. induction s as [|c r IH]; simpl; [by intros ?%elem_of_nil|].
  destruct (k =? c) eqn:E; simpl.
  - rewrite elem_of_app. tauto.
  - apply N.eqb_neq in E. rewrite elem_of_cons. intros [?|?]; [done|tauto].
Qed.

Lemma replace_single_map (k v : N) (s : str) :
  replace [k] [v] s = map (λ c, if c =? k then v else c) s.
Proof.
  unfold replace. induction s as [|c r IH]; simpl; [done|].
  rewrite (N.eqb_sym c k). destruct (k =? c); simpl; by rewrite IH.
Qed.

(** [contains] *)

Lemma is_prefix_app (p x y : str) :
  is_prefix p x = true → is_prefix p (x ++ y) = true.
Proof.
  revert x. induction p as [|a p IH]; intros [|b x]; simpl; try done.
  intros [-> H]%andb_prop. simpl. by apply IH.
Qed.

Lemma contains_app_l (p x y : str) :
  p ≠ [] → contains p (x ++ y) = false → contains p x = false.
Proof.
  intros Hp. induction x as [|c x IH]; simpl.
  - intros _. by destruct p.
  - intros [H1 H2]%orb_false_elim. apply orb_false_intro; [|by apply IH].
    destruct (is_prefix p (c :: x)) eqn:E; [|done].
    pose proof (is_prefix_app p (c :: x) y E) as E'. simpl in E'. congruence.
Qed.

Lemma contains_dropwhile (q : N → bool) (p s : str) :
  p ≠ [] → contains p s = false → contains p (dropwhile q s) = false.
Proof.
  intros Hp. induction s as [|c r IH]; simpl; [done|].
  intros H. destruct (q c); [|done].
  apply orb_false_elim in H as [_ H]. by apply IH.
Qed.

Lemma contains_strip_by (q : N → bool) (p s : str) :
  p ≠ [] → contains p s = false → contains p (strip_by q s) = false.
Proof.
  intros Hp H. unfold strip_by, lstrip.
  destruct (rstrip_split q (dropwhile q s)) as (t & Hs & _).
  apply (contains_app_l p _ t Hp). rewrite <- Hs. by apply contains_dropwhile.
Qed.

(** The loop that collapses dashes *)

Import Sanitizer.

Lemma dash_round_length_le (k : nat) (s : str) :
  (length (replace_from double_dash [DASH] k s) ≤ length s)%nat.
Proof.
  revert k. induction s as [|c r IH]; intros k; simpl; [lia|].
  destruct k as [|k].
  - destruct (_ && _); simpl.
    + specialize (IH 1%nat). simpl in IH. lia.
    + specialize (IH 0%nat). lia.
  - specialize (IH k). lia.
Qed.

Lemma dash_round_length_lt (s : str) :
  contains double_dash s = true →
  (length (replace double_dash [DASH] s) < length s)%nat.
Proof.
  unfold replace. induction s as [|c r IH]; [done|].
  cbn [contains replace_from]. destruct (is_prefix double_dash (c :: r)) eqn:E.
  - intros _. destruct r as [|c' r']; [simpl in E; by rewrite andb_false_r in E|].
    simpl. pose proof (dash_round_length_le 0 r'). lia.
  - simpl. intros H. specialize (IH H). lia.
Qed.

Lemma collapse_dashes_loop_done (fuel : nat) (s : str) :
  (length s ≤ fuel)%nat →
  contains double_dash (collapse_dashes_loop fuel s) = false.
Proof.
  revert s. induction fuel as [|fuel IH]; intros s Hlen; simpl.
  - destruct s; [done | simpl in Hlen; lia].
  - destruct (contains double_dash s) eqn:E; [|done].
    apply IH. pose proof (dash_round_length_lt s E). lia.
Qed.

(** The loop ends with the fuel it is given: no [--] is left. *)
Lemma collapse_dashes_done (s : str) :
  contains double_dash (collapse_dashes s) = false.
Proof. by apply collapse_dashes_loop_done. Qed.

Lemma collapse_dashes_Forall (P : N → Prop) (s : str) :
  P DASH → Forall P s → Forall P (collapse_dashes s).
Proof.
  intros Hd. unfold collapse_dashes. generalize (length s) as fuel.
  intros fuel. revert s. induction fuel as [|fuel IH]; intros s Hs; simpl.
  - by destruct (contains _ _).
  - destruct (contains _ _); [|done]. apply IH.
    apply replace_Forall; [by repeat constructor | done].
Qed.

Lemma collapse_dashes_id (s : str) :
  contains double_dash s = false → collapse_dashes s = s.
Proof. intros H. unfold collapse_dashes. destruct (length s); simpl; by rewrite H. Qed.

(** Whitespace runs, the underscore rule, [lower] *)

Lemma sub_whitespace_runs_Forall (P : N → Prop) `{U : UnicodeData} (b : bool) (s : str) :
  P DASH → Forall P s → Forall P (sub_whitespace_runs b s).
Proof.
  intros Hd Hs. revert b. induction Hs as [|c r Hc Hr IH]; intros b; simpl; [done|].
  destruct (isspace c).
  - destruct b; simpl; [apply IH | constructor; [done | apply IH]].
  - constructor; [done | apply IH].
Qed.

Lemma sub_whitespace_runs_id `{U : UnicodeData} (b : bool) (s : str) :
  Forall (λ c, isspace c = false) s → sub_whitespace_runs b s = s.
Proof.
  intros Hs. revert b. induction Hs as [|c r Hc Hr IH]; intros b; simpl; [done|].
  rewrite Hc. by rewrite IH.
Qed.

(** Induction that follows the scan of [sub_letter_underscore_letter]. *)
Lemma scan3_ind (P : str → Prop) :
  P [] →
  (∀ x t, P t → (∀ u y r, t = u :: y :: r → P r) → P (x :: t)) →
  ∀ s, P s.
Proof.
  intros H0 Hstep s.
  assert (∀ n (t : str), (length t ≤ n)%nat → P t) as Hn.
  { induction n as [|n IH]; intros t Hlen.
    - destruct t; [done | simpl in Hlen; lia].
    - destruct t as [|x t]; [done|]. apply Hstep.
      + apply IH. simpl in Hlen. lia.
      + intros u y r ->. apply IH. simpl in Hlen. lia. }
  by apply (Hn (length s)).
Qed.

Lemma sub_letter_underscore_letter_elem (s : str) (c : N) :
  c ∈ sub_letter_underscore_letter s → c ∈ s.
Proof.
  induction s as [|x t IHt IHr] using scan3_ind; [done|].
  cbn [sub_letter_underscore_letter].
  destruct t as [|u [|y r]].
  - done.
  - intros [->|H]%elem_of_cons; [by left | right; by apply IHt].
  - destruct (_ && _).
    + rewrite !elem_of_cons. intros [->|[->|H]]; [tauto..|].
      right. right. right. by apply (IHr u y r).
    + intros [->|H]%elem_of_cons; [by left | right; by apply IHt].
Qed.

Lemma sub_letter_underscore_letter_Forall (P : N → Prop) (s : str) :
  Forall P s → Forall P (sub_letter_underscore_letter s).
Proof.
  rewrite !Forall_forall. intros H c Hc. by apply H, sub_letter_underscore_letter_elem.
Qed.

Lemma sub_letter_underscore_letter_id (s : str) :
  UNDERSCORE ∉ s → sub_letter_underscore_letter s = s.
Proof.
  induction s as [|x t IH]; [done|]. intros Hn.
  assert (UNDERSCORE ∉ t) as Ht by (intros ?; apply Hn; by right).
  cbn [sub_letter_underscore_letter].
  destruct t as [|u [|y r]]; [done| by rewrite IH |].
  destruct (u =? UNDERSCORE) eqn:E.
  - apply N.eqb_eq in E. subst u. exfalso. apply Ht. by left.
  - rewrite andb_false_r. cbn [andb]. by rewrite IH.
Qed.

Lemma lower_from_fixed `{U : UnicodeData} (before s : str) :
  Forall lower_fixed s → lower_from before s = s.
Proof.
  intros Hs. revert before. induction Hs as [|c r [Hc Hn] Hr IH]; intros before; [done|].
  cbn [lower_from]. apply N.eqb_neq in Hn. rewrite Hn, Hc. simpl. by rewrite IH.
Qed.

Lemma lower_from_Forall `{U : UnicodeData} (P : N → Prop) (before s : str) :
  (∀ c, c ∈ s → c ≠ CAPITAL_SIGMA → Forall P (to_lower_full c)) →
  (CAPITAL_SIGMA ∈ s → P FINAL_SIGMA ∧ P SMALL_SIGMA) →
  Forall P (lower_from before s).
Proof.
  intros Hs Hf. revert before. induction s as [|c r IH]; intros before; [done|].
  cbn [lower_from]. apply Forall_app. split.
  - destruct (c =? CAPITAL_SIGMA) eqn:E.
    + apply N.eqb_eq in E. subst c. destruct Hf as [? ?]; [by left|].
      destruct (final_sigma before r); by repeat constructor.
    + apply Hs; [by left | by apply N.eqb_neq].
  - apply IH.
    + intros d Hd. apply Hs. by right.
    + intros Hd. apply Hf. by right.
Qed.

(** Comparisons of code points with constants. *)
Ltac code_point_cases :=
  unfold is_ascii, is_upper_az, is_az, is_digit,
    DASH, UNDERSCORE, CAPITAL_SIGMA, FINAL_SIGMA, SMALL_SIGMA in *;
  repeat match goal with
    | H : context [N.leb ?a ?b] |- _ => destruct (N.leb_spec a b); simpl in *
    | H : context [N.ltb ?a ?b] |- _ => destruct (N.ltb_spec a b); simpl in *
    | H : context [N.eqb ?a ?b] |- _ => destruct (N.eqb_spec a b); simpl in *
    | |- context [N.leb ?a ?b] => destruct (N.leb_spec a b); simpl in *
    | |- context [N.ltb ?a ?b] => destruct (N.ltb_spec a b); simpl in *
    | |- context [N.eqb ?a ?b] => destruct (N.eqb_spec a b); simpl in *
    end;
  try done; try lia.

(** ** The sanitizer *)

Section sanitizer_facts.
Context {U : UnicodeData}.

Lemma forallb_Forall {A} (f : A → bool) (l : list A) :
  forallb f l = true → Forall (λ x, f x = true) l.
Proof.
  induction l as [|x l IH]; simpl; [done|].
  intros [? ?]%andb_prop. constructor; auto.
Qed.

Lemma Forall_slug_char (P : N → Prop) (v : str) :
  (∀ c, slug_char c = true → P c) → forallb slug_char v = true → Forall P v.
Proof.
  intros HP Hv. apply forallb_Forall in Hv.
  eapply Forall_impl; [exact Hv | done].
Qed.

Lemma replace_all_Forall (P : N → Prop) (m : list (str * str)) (s : str) :
  Forall (λ kv, Forall P kv.2) m → Forall P s → Forall P (replace_all m s).
Proof.
  unfold replace_all. intros Hm. revert s.
  induction Hm as [|kv m Hkv Hm IH]; intros s Hs; simpl; [done|].
  apply IH. by apply replace_Forall.
Qed.

Lemma apply_symbol_replace (s : str) (kv : str * str) :
  apply_symbol s kv = replace (effective_symbol kv).1 (effective_symbol kv).2 s.
Proof. destruct kv as [symbol [|c r]]; [done|]. unfold apply_symbol, effective_symbol.
  cbn [fst snd]. by destruct (str_in (c :: r) fraction_words). Qed.

Lemma apply_symbols_replace_all (s : str) :
  apply_symbols s = replace_all (map effective_symbol symbol_map) s.
Proof.
  unfold apply_symbols, replace_all. generalize symbol_map as m. intros m. revert s.
  induction m as [|kv m IH]; intros s; simpl; [done|].
  by rewrite IH, apply_symbol_replace.
Qed.

Lemma remove_all_replace_all (l : list str) (s : str) :
  remove_all l s = replace_all (map (λ k, (k, [])) l) s.
Proof.
  unfold remove_all, replace_all. revert s.
  induction l as [|k l IH]; intros s; simpl; [done|]. by rewrite IH.
Qed.

Lemma transliterate_replace_all (s : str) :
  transliterate s = replace_all all_replacements s.
Proof.
  unfold transliterate, all_replacements.
  rewrite apply_symbols_replace_all, remove_all_replace_all.
  unfold replace_all. by rewrite !fold_left_app.
Qed.

Lemma all_replacements_slug_chars :
  forallb (λ kv, forallb slug_char kv.2) all_replacements = true.
Proof. vm_compute. reflexivity. Qed.

Lemma transliterate_Forall (P : N → Prop) (s : str) :
  (∀ c, slug_char c = true → P c) → Forall P s → Forall P (transliterate s).
Proof.
  intros HP Hs. rewrite transliterate_replace_all.
  apply replace_all_Forall; [|done].
  pose proof all_replacements_slug_chars as H. apply forallb_Forall in H.
  eapply Forall_impl; [exact H|]. intros kv Hkv. simpl in Hkv.
  by apply Forall_slug_char.
Qed.

Lemma normalise_Forall (P : N → Prop) (name : str) :
  P DASH → Forall P (lower name) → Forall P (normalise name).
Proof.
  intros Hd Hl. unfold normalise.
  unfold resolve_underscores.
  repeat (apply replace_Forall; [by repeat constructor|]).
  by apply sub_letter_underscore_letter_Forall, sub_whitespace_runs_Forall.
Qed.

Lemma keep_char_spec (c : N) :
  keep_char c = true ↔ c = DASH ∨ isalnum c = true.
Proof.
  unfold keep_char. simpl. rewrite orb_false_r, andb_true_r.
  rewrite orb_true_iff, N.eqb_eq. tauto.
Qed.

Lemma tidy_Forall (P : N → Prop) (s : str) :
  P DASH → Forall P s → Forall P (tidy s).
Proof.
  intros Hd Hs. unfold tidy, strip_chars. apply Forall_forall. intros c Hc.
  apply strip_by_elem in Hc. revert c Hc. apply Forall_forall.
  apply collapse_dashes_Forall; [done|].
  apply Forall_forall. intros c [_ Hc]%list_elem_of_filter.
  revert c Hc. by apply Forall_forall.
Qed.

Lemma tidy_keep (s : str) : Forall (λ c, keep_char c = true) (tidy s).
Proof.
  unfold tidy, strip_chars. apply Forall_forall. intros c Hc.
  apply strip_by_elem in Hc. revert c Hc. apply Forall_forall.
  apply collapse_dashes_Forall; [done|].
  apply Forall_forall. by intros c [? _]%list_elem_of_filter.
Qed.

Lemma tidy_head (s : str) : head (tidy s) ≠ Some DASH.
Proof.
  unfold tidy, strip_chars.
  pose proof (strip_by_head (λ c, existsb (N.eqb c) [DASH])
                (collapse_dashes (filter (λ c, keep_char c = true) s))) as H.
  destruct (strip_by _ _) as [|c r]; [done|]. simpl in *.
  intros [= ->]. done.
Qed.

Lemma tidy_last (s : str) : last (tidy s) ≠ Some DASH.
Proof.
  unfold tidy, strip_chars. intros H. by apply strip_by_last in H.
Qed.

Lemma tidy_no_double_dash (s : str) : contains double_dash (tidy s) = false.
Proof.
  unfold tidy, strip_chars. apply contains_strip_by; [done|].
  apply collapse_dashes_done.
Qed.

(** The two ways [sanitize_folder_name] returns. *)
Lemma sanitize_folder_name_cases (name : str) :
  sanitize_folder_name name = unknown
  ∨ (sanitize_folder_name name = tidy (transliterate (normalise name))
     ∧ tidy (transliterate (normalise name)) ≠ []
     ∧ name ≠ []).
Proof.
  unfold sanitize_folder_name. destruct name as [|c r]; [by left|].
  destruct (strip (c :: r)); [by left|].
  destruct (str_in _ _); [by left|].
  destruct (tidy _) eqn:E; [by left | right; by repeat split].
Qed.

Lemma sanitize_folder_name_nonempty (name : str) :
  sanitize_folder_name name ≠ [].
Proof.
  destruct (sanitize_folder_name_cases name) as [->|(-> & H & _)]; done.
Qed.
End sanitizer_facts.

Section charset.
Context {U : UnicodeData}.

Lemma slug_char_plain_ascii (c : N) : slug_char c = true → plain_ascii c.
Proof. unfold slug_char, plain_ascii. intros H. split; code_point_cases. Qed.

Lemma plain_ascii_keep (c : N) :
  plain_ascii c → keep_char c = true → slug_char c = true.
Proof.
  intros [Ha Hu] [->|H]%keep_char_spec; [done|].
  unfold isalnum in H. rewrite Ha, Hu in H. unfold slug_char.
  rewrite orb_false_r in H. rewrite orb_comm in H. by rewrite H.
Qed.

Lemma lower_plain_ascii (name : str) :
  Forall (λ c, is_ascii c = true) name → Forall plain_ascii (lower name).
Proof.
  intros Hn. apply lower_from_Forall.
  - intros c Hc _. assert (is_ascii c = true) as Ha.
    { revert c Hc. by apply Forall_forall. }
    unfold to_lower_full. rewrite Ha. repeat constructor; code_point_cases.
  - intros Hc. assert (is_ascii CAPITAL_SIGMA = true) as Ha; [|done].
    revert Hc. generalize CAPITAL_SIGMA. by apply Forall_forall.
Qed.
End charset.

(** The examples of the docstring. *)
Example sanitize_folder_name_docstring :
  sanitize_folder_name (U := Excerpt.table) (py "Björk") = py "bjork"
  ∧ sanitize_folder_name (U := Excerpt.table) (py "Children of the Sün")
    = py "children-of-the-sun"
  ∧ sanitize_folder_name (U := Excerpt.table) (py "( )") = py "unknown"
  ∧ sanitize_folder_name (U := Excerpt.table) (py "4½") = py "4-half".
Proof. repeat split; vm_compute; reflexivity. Qed.

(** C3: [sanitize_folder_name] never returns the empty string, but
    [slugify], which has no fallback, does. *)
Theorem slug_nonempty_only_in_sanitizer (U : UnicodeData) :
  (∀ name, sanitize_folder_name name ≠ [])
  ∧ sanitize_folder_name (py "!!!") = py "unknown"
  ∧ Reconciler.slugify (py "!!!") = [].
Proof.
  split; [apply sanitize_folder_name_nonempty|]. split; vm_compute; reflexivity.
Qed.

Lemma list_of_set_singleton (O : SetOrder) (x : str) : list_of_set [x] = [x].
Proof.
  apply Permutation_singleton_r. rewrite list_of_set_perm. simpl.
  rewrite (right_id_L ∅ (∪)). by rewrite elements_singleton.
Qed.

(** C4: on the name of the comment in the sanitizer, [slugify] and with it
    the whole list of [alternative_slugify] miss the canonical slug, in
    whatever order the set is listed. *)
Theorem alternative_slugify_misses_canonical (U : UnicodeData) (O : SetOrder) :
  sanitize_folder_name (py "The_Puzzle") = py "the-puzzle"
  ∧ Reconciler.slugify (py "The_Puzzle") = py "thepuzzle"
  ∧ Reconciler.alternative_slugify (py "The_Puzzle") = [py "thepuzzle"].
Proof.
  split; [vm_compute; reflexivity|]. split; [vm_compute; reflexivity|].
  unfold Reconciler.alternative_slugify.
  replace (Reconciler.alternatives (py "The_Puzzle")) with [py "thepuzzle"]
    by (vm_compute; reflexivity).
  apply list_of_set_singleton.
Qed.

(** ** The underscore rule *)

Lemma resolve_underscores_cons (x : N) (s : str) :
  replace [UNDERSCORE] [DASH] (x :: s)
  = (if x =? UNDERSCORE then DASH else x) :: replace [UNDERSCORE] [DASH] s.
Proof. by rewrite !replace_single_map. Qed.

Lemma underscore_scan_as_matched (s : str) :
  ∀ prev prev_merged,
    (head s = Some UNDERSCORE →
     Spec.letter_before prev && negb prev_merged
       && Spec.single_letter_follows (tail s) = false) →
    resolve_underscores s = Spec.underscores_as_matched prev prev_merged false s.
Proof.
  unfold resolve_underscores.
  induction s as [|x t IHt IHr] using scan3_ind; intros prev pm Hpre; [done|].
  cbn [sub_letter_underscore_letter Spec.underscores_as_matched]. cbn [head tail] in Hpre.
  assert (∀ b : bool, (head t = Some UNDERSCORE →
                Spec.letter_before (Some x) && negb false
                  && Spec.single_letter_follows (tail t) = false) →
     replace [UNDERSCORE] [DASH] (x :: sub_letter_underscore_letter t)
     = (if x =? UNDERSCORE
        then (if b then [] else [DASH])
             ++ Spec.underscores_as_matched (Some x) false b t
        else x :: Spec.underscores_as_matched (Some x) false false t) ∨ 
     (x =? UNDERSCORE) = true ∧ b = true) as Hskip.
  { intros b Hb. destruct (x =? UNDERSCORE) eqn:Ex.
    - destruct b; [by right|left]. rewrite resolve_underscores_cons, Ex. simpl.
      f_equal. apply IHt. intros _. apply N.eqb_eq in Ex. by subst x.
    - left. rewrite resolve_underscores_cons, Ex. f_equal. by apply IHt. }
  destruct t as [|u [|y r]].
  - destruct (Hskip (Spec.letter_before prev && negb pm && false)) as [H|[_ H]];
      [done | exact H | by rewrite andb_false_r in H].
  - destruct (Hskip (Spec.letter_before prev && negb pm
                     && Spec.single_letter_follows [u])) as [H|[Hx H]].
    + simpl. intros _. by rewrite !andb_false_r.
    + exact H.
    + rewrite Hpre in H; [done|]. apply N.eqb_eq in Hx. by subst x.
  - destruct (is_az x && (u =? UNDERSCORE) && is_az y && negb (head_is is_az r)) eqn:E.
    + apply andb_prop in E as [[[Hx Hu]%andb_prop Hy]%andb_prop Hr].
      apply N.eqb_eq in Hu. subst u.
      assert ((x =? UNDERSCORE) = false) as -> by (clear -Hx; code_point_cases).
      assert ((y =? UNDERSCORE) = false) as Ey by (clear -Hy; code_point_cases).
      rewrite !resolve_underscores_cons.
      assert ((x =? UNDERSCORE) = false) as -> by (clear -Hx; code_point_cases).
      rewrite Ey. cbn [Spec.underscores_as_matched]. rewrite N.eqb_refl, Ey.
      cbn [Spec.letter_before Spec.single_letter_follows]. rewrite Hx, Hy, Hr.
      simpl. do 2 f_equal. apply (IHr UNDERSCORE y r eq_refl).
      intros _. simpl. by rewrite andb_false_r.
    + destruct (Hskip (Spec.letter_before prev && negb pm
                       && Spec.single_letter_follows (u :: y :: r))) as [H|[Hx H]].
      * simpl. intros [= ->]. rewrite andb_true_r.
        rewrite N.eqb_refl in E. rewrite andb_true_r in E.
        by rewrite <- andb_assoc in E.
      * exact H.
      * rewrite Hpre in H; [done|]. apply N.eqb_eq in Hx. by subst x.
Qed.

(** ** Idempotence *)

Section idempotence.
Context {U : UnicodeData} {L : UnicodeLaws U}.

Lemma slug_char_lower_fixed (c : N) : slug_char c = true → lower_fixed c.
Proof.
  unfold slug_char, lower_fixed, to_lower_full. intros H.
  split; code_point_cases.
Qed.

Lemma to_lower_full_fixed (c : N) :
  c ≠ CAPITAL_SIGMA → Forall lower_fixed (to_lower_full c).
Proof.
  intros Hc. destruct (is_ascii c) eqn:Ha.
  - unfold to_lower_full. rewrite Ha. repeat constructor.
    + unfold to_lower_full. clear Hc. code_point_cases.
    + clear Hc. code_point_cases.
  - apply Forall_forall. intros d Hd. apply (lower_stable c); [done|].
    unfold to_lower_full in Hd. by rewrite Ha in Hd.
Qed.

Lemma lower_lower_fixed (s : str) : Forall lower_fixed (lower s).
Proof.
  apply lower_from_Forall.
  - intros c _ Hc. by apply to_lower_full_fixed.
  - intros _. apply sigma_stable.
Qed.

Lemma keep_char_not_space (c : N) : keep_char c = true → isspace c = false.
Proof.
  intros [->|H]%keep_char_spec; [done|]. unfold isalnum, isspace in *.
  destruct (is_ascii c) eqn:Ha.
  - clear Ha. code_point_cases.
  - by apply alnum_not_space.
Qed.

Lemma all_replacements_key_ok : forallb key_ok all_replacements = true.
Proof. vm_compute. reflexivity. Qed.

Lemma replace_all_avoids (c0 : N) (m : list (str * str)) (s : str) :
  Forall (λ kv, c0 ∉ kv.2) m → c0 ∉ s → c0 ∉ replace_all m s.
Proof.
  intros Hm Hs.
  assert (Forall (λ c, c ≠ c0) (replace_all m s)) as H.
  { apply replace_all_Forall.
    - eapply Forall_impl; [exact Hm|]. intros kv Hkv. apply Forall_forall.
      intros c Hc ->. done.
    - apply Forall_forall. intros c Hc ->. done. }
  intros Hc. rewrite Forall_forall in H. by apply (H c0).
Qed.

Lemma replace_all_removes (c0 : N) (v : str) (m : list (str * str)) (s : str) :
  ([c0], v) ∈ m → Forall (λ kv, c0 ∉ kv.2) m → c0 ∉ replace_all m s.
Proof.
  intros Hin Hm. revert s. induction Hm as [|kv m Hkv Hm IH]; intros s.
  - by apply elem_of_nil in Hin.
  - apply elem_of_cons in Hin as [<-|Hin].
    + change (replace_all (([c0], v) :: m) s)
        with (replace_all m (replace [c0] v s)).
      apply replace_all_avoids; [done|]. by apply replace_single_removes.
    + apply (IH Hin).
Qed.

Lemma slug_values_avoid (c0 : N) :
  slug_char c0 = false → Forall (λ kv : str * str, c0 ∉ kv.2) all_replacements.
Proof.
  intros Hc0. pose proof all_replacements_slug_chars as H.
  apply forallb_Forall in H. eapply Forall_impl; [exact H|].
  intros kv Hkv Hin. simpl in Hkv. apply forallb_Forall in Hkv.
  rewrite Forall_forall in Hkv. specialize (Hkv _ Hin). congruence.
Qed.

(** Every slug that comes out of the pipeline is free of the characters
    that the tables replace. *)
Lemma tidy_transliterate_avoids (s : str) (c0 : N) :
  c0 ∈ key_heads → c0 ∉ tidy (transliterate s).
Proof.
  unfold key_heads. intros (kv & Hkv & Hc0)%list_elem_of_In%in_flat_map.
  apply list_elem_of_In in Hkv. 
  pose proof all_replacements_key_ok as Hok. apply forallb_Forall in Hok.
  rewrite Forall_forall in Hok. specialize (Hok _ Hkv). unfold key_ok in Hok.
  destruct kv as [[|k o] v]; simpl in *; [done|].
  destruct Hc0 as [->|[]].
  destruct o as [|k' o].
  - apply negb_true_iff in Hok.
    assert (Forall (λ c, c ≠ c0) (tidy (transliterate s))) as H.
    { apply tidy_Forall.
      - intros <-. done.
      - apply Forall_forall. intros c Hc ->. revert Hc.
        rewrite transliterate_replace_all.
        apply (replace_all_removes c0 v); [done|]. by apply slug_values_avoid. }
    rewrite Forall_forall in H. intros Hc. by apply (H c0).
  - apply negb_true_iff in Hok. intros Hc.
    pose proof (tidy_keep (transliterate s)) as H. rewrite Forall_forall in H.
    specialize (H _ Hc). congruence.
Qed.

Lemma pipeline_settled (name : str) :
  tidy (transliterate (normalise name)) ≠ [] →
  settled (tidy (transliterate (normalise name))).
Proof.
  intros Hne. split; try done.
  - apply tidy_keep.
  - apply tidy_Forall; [by apply slug_char_lower_fixed|].
    apply transliterate_Forall; [apply slug_char_lower_fixed|].
    apply normalise_Forall; [by apply slug_char_lower_fixed|].
    apply lower_lower_fixed.
  - intros c0. apply tidy_transliterate_avoids.
  - apply tidy_head.
  - apply tidy_last.
  - apply tidy_no_double_dash.
Qed.

Lemma filter_all {A} (P : A → Prop) `{∀ x, Decision (P x)} (l : list A) :
  Forall P l → filter P l = l.
Proof.
  induction 1 as [|x l Hx Hl IH]; [done|].
  rewrite filter_cons_True by done. by rewrite IH.
Qed.

Lemma head_is_rev (p : N → bool) (s : str) :
  (∀ c, last s = Some c → p c = false) → head_is p (rev s) = false.
Proof.
  intros H. rewrite rev_alt. fold (reverse s).
  pose proof (head_reverse s) as Hh.
  destruct (reverse s) as [|c r]; [done|]. simpl in *. by apply H.
Qed.

Lemma strip_by_ends (p : N → bool) (s : str) :
  head_is p s = false → (∀ c, last s = Some c → p c = false) →
  strip_by p s = s.
Proof.
  intros Hh Hl. unfold strip_by, lstrip, rstrip.
  rewrite (dropwhile_id p s Hh).
  rewrite (dropwhile_id p (rev s)); [by rewrite rev_involutive|].
  by apply head_is_rev.
Qed.

Lemma keep_absent (c0 : N) (t : str) :
  Forall (λ c, keep_char c = true) t → keep_char c0 = false → c0 ∉ t.
Proof.
  rewrite Forall_forall. intros Ht Hc0 Hin. specialize (Ht _ Hin). congruence.
Qed.

(** A string that the filter keeps whole loses nothing to a replacement
    whose pattern starts with a character that the filter drops. *)
Lemma replace_dropped (old new t : str) :
  Forall (λ c, keep_char c = true) t →
  head_is (λ c, negb (keep_char c)) old = true →
  replace old new t = t.
Proof.
  intros Ht Ho. destruct old as [|c0 o]; [done|]. simpl in Ho.
  apply replace_absent. apply keep_absent; [done|]. by apply negb_true_iff.
Qed.

Lemma replace_all_id (m : list (str * str)) (t : str) :
  Forall (λ kv : str * str, ∃ c0 o, kv.1 = c0 :: o ∧ c0 ∉ t) m →
  replace_all m t = t.
Proof.
  unfold replace_all. induction 1 as [|kv m (c0 & o & Hk & Hc0) Hm IH]; [done|].
  simpl. rewrite Hk. by rewrite replace_absent.
Qed.

Lemma settled_normalise (t : str) : settled t → normalise t = t.
Proof.
  intros [Hk Hl _ _ _ _ _]. unfold normalise, lower.
  rewrite lower_from_fixed by done.
  rewrite sub_whitespace_runs_id.
  2:{ eapply Forall_impl; [exact Hk|]. intros c. apply keep_char_not_space. }
  unfold resolve_underscores.
  rewrite sub_letter_underscore_letter_id by (by apply keep_absent).
  by rewrite !(replace_dropped _ _ t).
Qed.

Lemma settled_transliterate (t : str) : settled t → transliterate t = t.
Proof.
  intros [_ _ Hkeys _ _ _ _]. rewrite transliterate_replace_all.
  apply replace_all_id. apply Forall_forall. intros kv Hkv.
  pose proof all_replacements_key_ok as Hok. apply forallb_Forall in Hok.
  rewrite Forall_forall in Hok. specialize (Hok _ Hkv). unfold key_ok in Hok.
  destruct kv as [[|c0 o] v] eqn:E; [done|]. exists c0, o. split; [done|].
  apply Hkeys. unfold key_heads. apply list_elem_of_In, in_flat_map.
  exists kv. subst kv. split; [by apply list_elem_of_In | by left].
Qed.

Lemma settled_tidy (t : str) : settled t → tidy t = t.
Proof.
  intros [Hk _ _ Hh Hl Hd _]. unfold tidy.
  rewrite (filter_all (λ c, keep_char c = true) t Hk).
  rewrite collapse_dashes_id by done.
  unfold strip_chars. apply strip_by_ends.
  - destruct t as [|c r]; [done|]. simpl in *. rewrite orb_false_r.
    apply N.eqb_neq. intros ->. by apply Hh.
  - intros c Hc. simpl. rewrite orb_false_r.
    apply N.eqb_neq. intros ->. by apply Hl.
Qed.

Lemma empty_brackets_dropped :
  forallb (existsb (λ c, negb (keep_char c))) empty_brackets = true.
Proof. vm_compute. reflexivity. Qed.

Lemma settled_not_brackets (t : str) : settled t → str_in t empty_brackets = false.
Proof.
  intros [Hk _ _ _ _ _ _]. unfold str_in. apply not_true_is_false.
  intros (br & Hbr & Heq)%existsb_exists.
  unfold str_eqb in Heq. apply bool_decide_eq_true in Heq. subst br.
  pose proof empty_brackets_dropped as H.
  rewrite forallb_forall in H. specialize (H _ Hbr).
  apply existsb_exists in H as (c & Hc & Hnk).
  apply negb_true_iff in Hnk. apply list_elem_of_In in Hc.
  by apply (keep_absent c t).
Qed.

Lemma sanitize_folder_name_pipeline (name out : str) :
  name ≠ [] → strip name = name → str_in name empty_brackets = false →
  tidy (transliterate (normalise name)) = out → out ≠ [] →
  sanitize_folder_name name = out.
Proof.
  intros Hne Hs Hb Ho Hout. unfold sanitize_folder_name.
  destruct name as [|c r]; [done|].
  rewrite Hs, Hb, Ho. by destruct out.
Qed.

Lemma settled_fixed (t : str) : settled t → sanitize_folder_name t = t.
Proof.
  intros Ht. apply sanitize_folder_name_pipeline.
  - apply (settled_nonempty _ Ht).
  - apply strip_by_id. eapply Forall_impl; [apply (settled_keep _ Ht)|].
    intros d. apply keep_char_not_space.
  - by apply settled_not_brackets.
  - by rewrite settled_normalise, settled_transliterate, settled_tidy.
  - apply (settled_nonempty _ Ht).
Qed.
End idempotence.

(** C8: sanitizing a slug gives the slug back. *)
Theorem sanitize_folder_name_idempotent (U : UnicodeData) (L : UnicodeLaws U)
    (s : str) :
  sanitize_folder_name (sanitize_folder_name s) = sanitize_folder_name s.
Proof.
  destruct (sanitize_folder_name_cases s) as [->|(-> & Hne & _)].
  - vm_compute. reflexivity.
  - apply settled_fixed. by apply pipeline_settled.
Qed.

(** The excerpt of the character database satisfies the laws. *)

Lemma below_forallb (f : N → bool) (n : nat) :
  forallb f (map N.of_nat (seq 0 n)) = true → ∀ c, c < N.of_nat n → f c = true.
Proof.
  intros H c Hc. rewrite forallb_forall in H. apply H.
  apply in_map_iff. exists (N.to_nat c). split; [lia|]. apply in_seq. lia.
Qed.

Ltac settle_comparisons :=
  repeat first
    [ match goal with
      | |- context [N.leb ?a ?b] => destruct (N.leb_spec a b); try lia
      | |- context [N.ltb ?a ?b] => destruct (N.ltb_spec a b); try lia
      | |- context [N.eqb ?a ?b] => destruct (N.eqb_spec a b); try lia
      end
    | progress cbn [andb orb negb] ].

Lemma excerpt_lower_high (c : N) : 1200 ≤ c → Excerpt.lower c = [c].
Proof.
  intros H. unfold Excerpt.lower, Excerpt.in_range. settle_comparisons; done.
Qed.

Lemma excerpt_lower_stable (c : N) :
  is_ascii c
  || forallb
       (λ d, str_eqb (to_lower_full (U := Excerpt.table) d) [d]
             && negb (d =? CAPITAL_SIGMA))
       (Excerpt.lower c) = true.
Proof.
  destruct (N.ltb_spec c 1200) as [Hc|Hc].
  - revert c Hc. apply (below_forallb _ 1200). vm_compute. reflexivity.
  - rewrite excerpt_lower_high by done. apply orb_true_iff. right.
    simpl. rewrite andb_true_r.
    apply andb_true_intro. split.
    + apply bool_decide_eq_true. unfold to_lower_full, is_ascii.
      destruct (N.ltb_spec c 128); [lia|]. by apply excerpt_lower_high.
    + unfold CAPITAL_SIGMA. destruct (N.eqb_spec c 931); [lia|done].
Qed.

Lemma excerpt_alnum_not_space (c : N) :
  negb (Excerpt.isalnum c) || negb (Excerpt.isspace c) = true.
Proof.
  destruct (N.ltb_spec c 1200) as [Hc|Hc].
  - revert c Hc. apply (below_forallb _ 1200). vm_compute. reflexivity.
  - unfold Excerpt.isalnum, Excerpt.isspace, Excerpt.in_range.
    settle_comparisons; done.
Qed.

Lemma excerpt_laws : UnicodeLaws Excerpt.table.
Proof.
  split.
  - intros c _ Ha. pose proof (excerpt_alnum_not_space c) as H.
    simpl in *. rewrite Ha in H. simpl in H. by apply negb_true_iff.
  - intros c d Ha Hd. pose proof (excerpt_lower_stable c) as H.
    rewrite Ha in H. simpl in H.
    rewrite forallb_forall in H. apply list_elem_of_In in Hd.
    specialize (H d Hd). apply andb_prop in H as [H1 H2]. split.
    + by apply bool_decide_eq_true in H1.
    + apply negb_true_iff in H2. by apply N.eqb_neq.
  - split; split; done.
Qed.

Lemma sanitize_folder_name_idempotent_witness :
  sanitize_folder_name (U := Excerpt.table)
    (sanitize_folder_name (U := Excerpt.table) (py "Sigur Rós (Live)"))
  = sanitize_folder_name (U := Excerpt.table) (py "Sigur Rós (Live)").
Proof.
  apply (sanitize_folder_name_idempotent Excerpt.table excerpt_laws).
Defined.

(** ** The underscore rule in the folder name *)

Section underscore_rule.
Context {U : UnicodeData}.

(** Where no letter stands alone between two underscores, no match of the
    pattern begins where another has ended. *)
Lemma matched_as_claimed (s : str) :
  ∀ prev pm cm,
    (pm = true → head s ≠ Some UNDERSCORE) →
    (cm = true → ∀ c r, s = c :: r → head r ≠ Some UNDERSCORE) →
    letter_between_underscores s = false →
    Spec.underscores_as_matched prev pm cm s = Spec.underscores_as_claimed prev s.
Proof.
  induction s as [|c r IH]; intros prev pm cm Hpm Hcm Hno; [done|].
  cbn [Spec.underscores_as_matched Spec.underscores_as_claimed].
  cbn [letter_between_underscores] in Hno.
  apply orb_false_iff in Hno as [Hhere Hr].
  destruct (c =? UNDERSCORE) eqn:Ec.
  - apply N.eqb_eq in Ec. subst c.
    assert (pm = false) as -> by (destruct pm; [exfalso; by apply Hpm | done]).
    cbn zeta. rewrite andb_true_r. f_equal. apply IH; [| |done].
    + intros ->. by apply (Hcm eq_refl UNDERSCORE r).
    + intros Hdel y r' -> Hh. apply andb_prop in Hdel as [_ Hs].
      simpl in Hs. apply andb_prop in Hs as [Hy _].
      destruct r' as [|u r'']; [done|]. simpl in Hh. injection Hh as ->.
      rewrite Hy, !N.eqb_refl in Hhere. done.
  - f_equal. apply IH; [| done..]. intros ->. by apply (Hcm eq_refl c r).
Qed.

Lemma word_char_not_dash (c : N) : word_char c = true → c ≠ DASH.
Proof. unfold word_char. intros H ->. done. Qed.

Lemma word_char_lower_fixed (c : N) : word_char c = true → lower_fixed c.
Proof.
  unfold word_char, lower_fixed, to_lower_full. intros H.
  split; code_point_cases.
Qed.

Lemma word_char_not_space (c : N) : word_char c = true → isspace c = false.
Proof. unfold word_char, isspace. intros H. code_point_cases. Qed.

Lemma slug_char_keep (c : N) : slug_char c = true → keep_char c = true.
Proof.
  intros H. apply keep_char_spec. unfold slug_char in H.
  apply orb_true_iff in H as [H|H]; [right | left; by apply N.eqb_eq].
  unfold isalnum. assert (is_ascii c = true) as -> by code_point_cases.
  apply orb_true_iff in H as [H|H]; rewrite H; [apply orb_true_r | done].
Qed.

Lemma as_claimed_chars (prev : option N) (s : str) :
  Forall (λ c, word_char c = true) s →
  Forall (λ c, slug_char c = true) (Spec.underscores_as_claimed prev s).
Proof.
  intros H. revert prev. induction H as [|c r Hc Hr IH]; intros prev; [done|].
  cbn [Spec.underscores_as_claimed]. destruct (c =? UNDERSCORE) eqn:E.
  - apply Forall_app. split; [|apply IH]. destruct (_ && _); by repeat constructor.
  - constructor; [|apply IH]. unfold word_char in Hc.
    rewrite E, orb_false_r in Hc. unfold slug_char. by rewrite Hc.
Qed.

Lemma as_claimed_head (prev : option N) (s : str) :
  Forall (λ c, word_char c = true) s → head s ≠ Some UNDERSCORE →
  head (Spec.underscores_as_claimed prev s) ≠ Some DASH.
Proof.
  destruct s as [|c r]; [done|]. intros Hs Hh.
  cbn [Spec.underscores_as_claimed]. destruct (c =? UNDERSCORE) eqn:E.
  - apply N.eqb_eq in E. by subst c.
  - simpl. intros [= ->]. apply Forall_cons in Hs as [Hc _]. done.
Qed.

Lemma as_claimed_no_double_dash (prev : option N) (s : str) :
  Forall (λ c, word_char c = true) s →
  contains [UNDERSCORE; UNDERSCORE] s = false →
  contains double_dash (Spec.underscores_as_claimed prev s) = false.
Proof.
  intros H. revert prev. induction H as [|c r Hc Hr IH]; intros prev Hd; [done|].
  cbn [contains] in Hd. apply orb_false_iff in Hd as [Hp Hd].
  cbn [Spec.underscores_as_claimed]. destruct (c =? UNDERSCORE) eqn:E.
  - apply N.eqb_eq in E. subst c.
    assert (head r ≠ Some UNDERSCORE) as Hh.
    { destruct r as [|y r']; [done|]. simpl in Hp. intros [= ->]. done. }
    pose proof (as_claimed_head (Some UNDERSCORE) r Hr Hh) as Hhead.
    destruct (_ && _); [by apply IH|]. cbn [app contains].
    rewrite (IH _ Hd), orb_false_r. unfold double_dash. cbn [is_prefix].
    destruct (Spec.underscores_as_claimed (Some UNDERSCORE) r) as [|b t];
      [apply andb_false_r|].
    cbn [is_prefix]. apply andb_false_iff. right. apply andb_false_iff. left.
    apply N.eqb_neq. intros <-. done.
  - cbn [contains]. rewrite (IH _ Hd), orb_false_r. unfold double_dash.
    cbn [is_prefix]. apply andb_false_iff. left. apply N.eqb_neq. intros <-. done.
Qed.

Lemma as_claimed_last (prev : option N) (s : str) (c : N) :
  last s = Some c → c ≠ UNDERSCORE →
  last (Spec.underscores_as_claimed prev s) = Some c.
Proof.
  intros Hl Hc. revert prev. induction s as [|x r IH]; intros prev; [done|].
  cbn [Spec.underscores_as_claimed]. destruct r as [|y r'].
  - simpl in Hl. injection Hl as ->. apply N.eqb_neq in Hc. by rewrite Hc.
  - rewrite last_cons in Hl.
    assert (last (y :: r') = Some c) as Hl'.
    { destruct (last (y :: r')) eqn:E; [done|]. by apply last_None in E. }
    specialize (IH Hl' (Some x)).
    destruct (x =? UNDERSCORE).
    + rewrite last_app. by rewrite IH.
    + rewrite last_cons. by rewrite IH.
Qed.

Lemma key_heads_not_slug_chars :
  forallb (λ c, negb (slug_char c)) key_heads = true.
Proof. vm_compute. reflexivity. Qed.

Lemma slug_string_settled (u : str) :
  Forall (λ c, slug_char c = true) u →
  head u ≠ Some DASH → last u ≠ Some DASH →
  contains double_dash u = false → u ≠ [] → settled u.
Proof.
  intros Hu Hh Hl Hd Hne. split; try done.
  - eapply Forall_impl; [exact Hu|]. apply slug_char_keep.
  - eapply Forall_impl; [exact Hu|]. apply slug_char_lower_fixed.
  - intros c0 Hc0 Hin. pose proof key_heads_not_slug_chars as H.
    rewrite forallb_forall in H. apply list_elem_of_In in Hc0.
    specialize (H _ Hc0). rewrite Forall_forall in Hu.
    rewrite (Hu _ Hin) in H. done.
Qed.

Lemma empty_brackets_no_word :
  forallb (existsb (λ c, negb (word_char c))) empty_brackets = true.
Proof. vm_compute. reflexivity. Qed.

(** On a word with underscores the folder name is what the underscore
    rule makes of the word: no other step changes it. *)
Lemma underscored_word_folder (name : str) :
  underscored_word name → letter_between_underscores name = false →
  sanitize_folder_name name = Spec.underscores_as_claimed None name.
Proof.
  intros (Hw & Hh & Hl & Hd & Hne) Hno.
  assert (resolve_underscores name = Spec.underscores_as_claimed None name)
    as Hres.
  { rewrite (underscore_scan_as_matched name None false) by (by intros _).
    by apply matched_as_claimed. }
  assert (settled (Spec.underscores_as_claimed None name)) as Hu.
  { apply slug_string_settled.
    - by apply as_claimed_chars.
    - by apply as_claimed_head.
    - destruct (last name) as [c|] eqn:El.
      + rewrite (as_claimed_last None name c El) by (by intros ->).
        intros [= ->]. apply last_Some in El as (l' & ->).
        apply Forall_app in Hw as [_ Hc]. apply Forall_cons in Hc as [Hc _].
        done.
      + apply last_None in El. done.
    - by apply as_claimed_no_double_dash.
    - destruct name as [|c r]; [done|].
      cbn [Spec.underscores_as_claimed]. destruct (c =? UNDERSCORE) eqn:E; [|done].
      apply N.eqb_eq in E. by subst c. }
  apply sanitize_folder_name_pipeline.
  - done.
  - apply strip_by_id. eapply Forall_impl; [exact Hw|]. apply word_char_not_space.
  - unfold str_in. apply not_true_is_false.
    intros (br & Hbr & Heq)%existsb_exists.
    unfold str_eqb in Heq. apply bool_decide_eq_true in Heq. subst br.
    pose proof empty_brackets_no_word as H.
    rewrite forallb_forall in H. specialize (H _ Hbr).
    apply existsb_exists in H as (c & Hc & Hn).
    apply list_elem_of_In in Hc. rewrite Forall_forall in Hw.
    rewrite (Hw _ Hc) in Hn. done.
  - transitivity (tidy (transliterate (Spec.underscores_as_claimed None name)));
      [|by rewrite settled_transliterate, settled_tidy].
    do 2 f_equal. unfold normalise, lower.
    rewrite lower_from_fixed
      by (eapply Forall_impl; [exact Hw | apply word_char_lower_fixed]).
    rewrite sub_whitespace_runs_id
      by (eapply Forall_impl; [exact Hw | apply word_char_not_space]).
    rewrite Hres. pose proof (settled_keep _ Hu) as Hk.
    by rewrite !(replace_dropped _ _ (Spec.underscores_as_claimed None name)).
  - apply (settled_nonempty _ Hu).
Qed.
End underscore_rule.

(** C7: in a name of lowercase letters, digits and underscores that
    neither starts nor ends with an underscore nor has two in a row, and
    in which no letter stands alone between two underscores, the folder
    name is the name with every underscore between a letter and a letter
    that no letter follows deleted, and every other underscore made a
    dash; so it is for the two names of the comment in the source. Where
    a letter does stand alone between two underscores the rule is not
    kept: the second underscore of [a_b_c] stands between two single
    letters and still becomes a dash. *)
Theorem underscore_rule_skips_chain (U : UnicodeData) :
  (∀ name, underscored_word name → letter_between_underscores name = false →
     sanitize_folder_name name = Spec.underscores_as_claimed None name)
  ∧ sanitize_folder_name (py "G_d's Puzzle") = py "gds-puzzle"
  ∧ sanitize_folder_name (py "The_Puzzle") = py "the-puzzle"
  ∧ underscored_word (py "a_b_c")
  ∧ letter_between_underscores (py "a_b_c") = true
  ∧ sanitize_folder_name (py "a_b_c") = py "ab-c"
  ∧ Spec.underscores_as_claimed None (py "a_b_c") = py "abc".
Proof.
  split; [apply underscored_word_folder|].
  split; [vm_compute; reflexivity|]. split; [vm_compute; reflexivity|].
  split; [|repeat split; vm_compute; reflexivity].
  repeat split; try done. apply forallb_Forall. reflexivity.
Qed.

Lemma underscore_rule_skips_chain_witness :
  sanitize_folder_name (U := Excerpt.table) (py "the_puzzle") = py "the-puzzle"
  ∧ sanitize_folder_name (U := Excerpt.table) (py "dj_x") = py "djx".
Proof.
  destruct (underscore_rule_skips_chain Excerpt.table) as [H _]. split.
  - rewrite H; [vm_compute; reflexivity | | vm_compute; reflexivity].
    repeat split; try done. apply forallb_Forall. reflexivity.
  - rewrite H; [vm_compute; reflexivity | | vm_compute; reflexivity].
    repeat split; try done. apply forallb_Forall. reflexivity.
Defined.

(** ** The characters of the slug *)

Section kept_characters.
Context {U : UnicodeData}.

Lemma sub_whitespace_runs_elem (b : bool) (s : str) (c : N) :
  c ∈ sub_whitespace_runs b s → c = DASH ∨ (c ∈ s ∧ isspace c = false).
Proof.
  revert b. induction s as [|x r IH]; intros b; simpl; [by intros ?%elem_of_nil|].
  assert (∀ b, c ∈ sub_whitespace_runs b r →
               c = DASH ∨ (c ∈ x :: r ∧ isspace c = false)) as IH'.
  { intros b' [?|[? ?]]%IH; [by left|]. right. split; [by right | done]. }
  destruct (isspace x) eqn:Ex.
  - destruct b; simpl; [apply IH'|].
    intros [->|H]%elem_of_cons; [by left | by apply (IH' true)].
  - intros [->|H]%elem_of_cons; [|by apply (IH' false)].
    right. split; [by left | done].
Qed.

Lemma sub_whitespace_runs_keeps (b : bool) (s : str) (c : N) :
  c ∈ s → isspace c = false → c ∈ sub_whitespace_runs b s.
Proof.
  intros Hc Hs. revert b. induction s as [|x r IH]; intros b;
    [by apply elem_of_nil in Hc|].
  simpl. apply elem_of_cons in Hc as [<-|Hc].
  - rewrite Hs. by left.
  - destruct (isspace x); [|right; by apply IH].
    apply elem_of_app. right. by apply IH.
Qed.

Lemma lower_from_image (before s : str) (c d : N) :
  c ∈ s → c ≠ CAPITAL_SIGMA → d ∈ to_lower_full c → d ∈ lower_from before s.
Proof.
  intros Hc Hn Hd. revert before. induction s as [|x r IH]; intros before;
    [by apply elem_of_nil in Hc|].
  cbn [lower_from]. apply elem_of_app. apply elem_of_cons in Hc as [<-|Hc].
  - left. apply N.eqb_neq in Hn. by rewrite Hn.
  - right. by apply IH.
Qed.

Lemma sub_letter_underscore_letter_keeps (s : str) (c : N) :
  c ≠ UNDERSCORE → c ∈ s → c ∈ sub_letter_underscore_letter s.
Proof.
  intros Hc. induction s as [|x t IHt IHr] using scan3_ind; [done|].
  cbn [sub_letter_underscore_letter].
  assert (c ∈ x :: t → c ∈ x :: sub_letter_underscore_letter t) as Hskip.
  { intros [->|H]%elem_of_cons; [by left | right; by apply IHt]. }
  destruct t as [|u [|y r]]; [done..|].
  destruct (is_az x && (u =? UNDERSCORE) && is_az y && negb (head_is is_az r))
    eqn:E; [|done].
  apply andb_prop in E as [[[_ Hu]%andb_prop _]%andb_prop _].
  apply N.eqb_eq in Hu. subst u.
  rewrite !elem_of_cons. intros [->|[->|[->|H]]]; [tauto | done | tauto |].
  right. right. by apply (IHr UNDERSCORE y r).
Qed.

Lemma is_prefix_take (p s : str) :
  is_prefix p s = true → take (length p) s = p.
Proof.
  revert s. induction p as [|a p IH]; intros s; [done|].
  destruct s as [|b s]; [done|]. simpl.
  intros [Hab Hp]%andb_prop. apply N.eqb_eq in Hab. subst b.
  by rewrite IH.
Qed.

(** A replacement keeps every character that is not in its pattern. *)
Lemma replace_from_keeps (old new : str) (c : N) (s : str) (k : nat) :
  old ≠ [] → c ∉ old → (∀ x, x ∈ take k s → x ∈ old) → c ∈ s →
  c ∈ replace_from old new k s.
Proof.
  intros Hne Ho. revert k. induction s as [|x r IH]; intros k Hk Hc;
    [by apply elem_of_nil in Hc|].
  cbn [replace_from]. destruct k as [|k].
  - destruct (is_prefix old (x :: r)) eqn:E.
    + destruct old as [|a o]; [done|].
      simpl in E. apply andb_prop in E as [Hax Hp]. apply N.eqb_eq in Hax.
      subst a. apply elem_of_app. right. cbn [length pred]. apply IH.
      * rewrite (is_prefix_take _ _ Hp). intros y Hy. by right.
      * apply elem_of_cons in Hc as [->|Hc]; [|done].
        destruct Ho. by left.
    + apply elem_of_cons in Hc as [->|Hc]; [by left|]. right.
      apply IH; [|done]. simpl. by intros y ?%elem_of_nil.
  - apply IH.
    + intros y Hy. apply Hk. simpl. by right.
    + apply elem_of_cons in Hc as [->|Hc]; [|done].
      destruct Ho. apply Hk. simpl. by left.
Qed.

Lemma replace_keeps (old new s : str) (c : N) :
  old ≠ [] → c ∉ old → c ∈ s → c ∈ replace old new s.
Proof.
  intros Hne Ho Hc. apply replace_from_keeps; [done..| |done].
  simpl. by intros y ?%elem_of_nil.
Qed.

Lemma replace_all_keeps (m : list (str * str)) (s : str) (c : N) :
  Forall (λ kv : str * str, kv.1 ≠ [] ∧ c ∉ kv.1) m → c ∈ s →
  c ∈ replace_all m s.
Proof.
  unfold replace_all. intros Hm. revert s.
  induction Hm as [|kv m [Hne Hkv] Hm IH]; intros s Hc; [done|].
  simpl. apply IH. by apply replace_keeps.
Qed.

Lemma collapse_dashes_loop_keeps (fuel : nat) (s : str) (c : N) :
  c ≠ DASH → c ∈ s → c ∈ collapse_dashes_loop fuel s.
Proof.
  intros Hd. revert s. induction fuel as [|f IH]; intros s Hc; simpl.
  - by destruct (contains double_dash s).
  - destruct (contains double_dash s); [|done]. apply IH.
    apply replace_keeps; [done| |done]. unfold double_dash.
    rewrite !elem_of_cons, elem_of_nil. tauto.
Qed.

Lemma dropwhile_keeps (p : N → bool) (s : str) (c : N) :
  p c = false → c ∈ s → c ∈ dropwhile p s.
Proof.
  intros Hp. induction s as [|x r IH]; [done|]. simpl.
  destruct (p x) eqn:Ex; [|done].
  intros [->|H]%elem_of_cons; [congruence | by apply IH].
Qed.

Lemma strip_by_keeps (p : N → bool) (s : str) (c : N) :
  p c = false → c ∈ s → c ∈ strip_by p s.
Proof.
  intros Hp Hc. unfold strip_by, rstrip, lstrip.
  apply list_elem_of_In, in_rev. rewrite rev_involutive.
  apply list_elem_of_In, dropwhile_keeps; [done|].
  apply list_elem_of_In, in_rev. rewrite rev_involutive.
  apply list_elem_of_In. by apply dropwhile_keeps.
Qed.

Lemma tidy_keeps (s : str) (c : N) :
  isalnum c = true → c ≠ DASH → c ∈ s → c ∈ tidy s.
Proof.
  intros Ha Hd Hc. unfold tidy, strip_chars. apply strip_by_keeps.
  - simpl. rewrite orb_false_r. by apply N.eqb_neq.
  - apply collapse_dashes_loop_keeps; [done|].
    apply list_elem_of_filter. split; [|done]. apply keep_char_spec. by right.
Qed.

(** The keys are not empty, and each of their characters is the first of
    a key or no letter and no digit. *)
Lemma key_chars_heads :
  forallb
    (λ kv : str * str,
       negb (str_eqb kv.1 [])
       && forallb (λ k, existsb (N.eqb k) key_heads || negb (isalnum k)) kv.1)
    all_replacements = true.
Proof. vm_compute. reflexivity. Qed.

Lemma untransliterated_no_key (c : N) :
  untransliterated c →
  Forall (λ kv : str * str, kv.1 ≠ [] ∧ c ∉ kv.1) all_replacements.
Proof.
  intros (Ha & _ & Hk). pose proof key_chars_heads as H.
  apply forallb_Forall in H. eapply Forall_impl; [exact H|].
  intros kv Hkv. cbn beta in Hkv. apply andb_prop in Hkv as [Hne Hkv]. split.
  { intros E. rewrite E in Hne. done. }
  intros Hin. apply forallb_Forall in Hkv.
  rewrite Forall_forall in Hkv. specialize (Hkv _ Hin).
  apply orb_true_iff in Hkv as [Hh|Hn].
  - apply Hk. apply existsb_exists in Hh as (k & Hk' & ->%N.eqb_eq).
    by apply list_elem_of_In.
  - rewrite Ha in Hn. done.
Qed.

Lemma alnum_neq (c k : N) : isalnum c = true → isalnum k = false → c ∉ [k].
Proof. intros Hc Hk ->%list_elem_of_singleton. congruence. Qed.

Lemma normalise_keeps (name : str) (d : N) :
  isalnum d = true → isspace d = false →
  d ∈ lower name → d ∈ normalise name.
Proof.
  intros Ha Hs Hd. unfold normalise, resolve_underscores.
  repeat (apply replace_keeps; [done | by apply alnum_neq |]).
  apply sub_letter_underscore_letter_keeps.
  { intros ->. done. }
  by apply sub_whitespace_runs_keeps.
Qed.

Lemma empty_brackets_no_alnum :
  forallb (forallb (λ c, negb (isalnum c))) empty_brackets = true.
Proof. vm_compute. reflexivity. Qed.

Lemma empty_brackets_lower :
  forallb (forallb (λ c, str_eqb (to_lower_full c) [c])) empty_brackets = true.
Proof. vm_compute. reflexivity. Qed.

(** The letters and digits that lowercasing makes of a character of the
    name, and that no step replaces, are in the folder name. *)
Lemma untransliterated_kept (name : str) (c d : N) :
  c ∈ name → isspace c = false → c ≠ CAPITAL_SIGMA → d ∈ to_lower_full c →
  untransliterated d → d ∈ sanitize_folder_name name.
Proof.
  intros Hc Hsp Hsig Hdc Hu. pose proof Hu as (Ha & Hs & Hk).
  assert (d ≠ DASH) as Hd by (intros ->; done).
  assert (d ∈ tidy (transliterate (normalise name))) as Ht.
  { apply tidy_keeps; [done..|]. rewrite transliterate_replace_all.
    apply replace_all_keeps; [by apply untransliterated_no_key|].
    apply normalise_keeps; [done..|]. by apply (lower_from_image _ _ c). }
  unfold sanitize_folder_name. destruct name as [|x r] eqn:En;
    [by apply elem_of_nil in Hc|]. rewrite <- En in *.
  assert (c ∈ strip name) as Hst by (by apply strip_by_keeps).
  destruct (strip name) as [|y t] eqn:Es; [by apply elem_of_nil in Hst|].
  destruct (str_in (y :: t) empty_brackets) eqn:Eb.
  { exfalso. apply existsb_exists in Eb as (br & Hbr & Heq).
    unfold str_eqb in Heq. apply bool_decide_eq_true in Heq. subst br.
    apply list_elem_of_In in Hst.
    pose proof empty_brackets_lower as Hl. rewrite forallb_forall in Hl.
    specialize (Hl _ Hbr). rewrite forallb_forall in Hl. specialize (Hl _ Hst).
    unfold str_eqb in Hl. apply bool_decide_eq_true in Hl. rewrite Hl in Hdc.
    apply list_elem_of_singleton in Hdc. subst d.
    pose proof empty_brackets_no_alnum as H. rewrite forallb_forall in H.
    specialize (H _ Hbr). rewrite forallb_forall in H. specialize (H _ Hst).
    rewrite Ha in H. done. }
  destruct (tidy _) eqn:Et; [by apply elem_of_nil in Ht | done].
Qed.

(** A character of the folder name outside [a-z0-9-] is one of the
    lowercase form of the name, and no step replaces it. *)
Lemma foreign_from_name (name : str) (c : N) :
  c ∈ sanitize_folder_name name → slug_char c = false →
  c ∈ lower name ∧ untransliterated c.
Proof.
  intros Hc Hn.
  destruct (sanitize_folder_name_cases name) as [E|(E & _ & _)];
    rewrite E in Hc.
  { exfalso. assert (Forall (λ c, slug_char c = true) unknown) as H
      by (apply forallb_Forall; reflexivity).
    rewrite Forall_forall in H. specialize (H _ Hc). congruence. }
  assert (Forall (λ c, slug_char c = true ∨ (c ∈ lower name ∧ isspace c = false))
            (tidy (transliterate (normalise name)))) as HP.
  { apply tidy_Forall; [by left|].
    apply transliterate_Forall; [by left|].
    unfold normalise, resolve_underscores.
    repeat (apply replace_Forall; [by repeat constructor|]).
    apply sub_letter_underscore_letter_Forall.
    apply Forall_forall. intros x [->|?]%sub_whitespace_runs_elem;
      [by left | by right]. }
  rewrite Forall_forall in HP. destruct (HP _ Hc) as [?|[Hin Hs]]; [congruence|].
  split; [done|]. split; [|split; [done|]].
  - pose proof (tidy_keep (transliterate (normalise name))) as Hk.
    rewrite Forall_forall in Hk.
    destruct (proj1 (keep_char_spec c) (Hk _ Hc)) as [->|?]; done.
  - intros Hkey. by apply (tidy_transliterate_avoids (normalise name) c).
Qed.
End kept_characters.

(** C2, as amended: the slug is made of dashes and of characters that
    [str.isalnum] accepts, it neither starts nor ends with a dash and holds
    no two dashes in a row. A character of the slug outside [a-z0-9-] is
    a letter or a digit of the lowercase form of the name that is not
    whitespace and with which no key of the tables starts; so the slug of
    an ASCII name is in [a-z0-9-], and so is that of every name whose
    letters and digits outside [a-z0-9] the tables all have. A letter or a
    digit that lowercasing makes of a character of the name that is not
    whitespace, and that the tables do not have, is kept in the slug: so
    is a lowercase Cyrillic letter, as it is, and a capital one in
    lowercase. *)
Theorem sanitize_folder_name_charset (U : UnicodeData) (name : str) :
  let slug := sanitize_folder_name name in
  Forall (λ c, c = DASH ∨ isalnum c = true) slug
  ∧ head slug ≠ Some DASH
  ∧ last slug ≠ Some DASH
  ∧ contains double_dash slug = false
  ∧ (Forall (λ c, is_ascii c = true) name → Forall (λ c, slug_char c = true) slug)
  ∧ (∀ c, c ∈ slug → slug_char c = false →
          c ∈ lower name ∧ untransliterated c)
  ∧ (Forall (λ c, slug_char c = true ∨ ¬ untransliterated c) (lower name) →
     Forall (λ c, slug_char c = true) slug)
  ∧ (∀ c d, c ∈ name → isspace c = false → c ≠ CAPITAL_SIGMA →
            d ∈ to_lower_full c → untransliterated d → d ∈ slug).
Proof.
  cbn zeta.
  assert (Forall (λ c, c = DASH ∨ isalnum c = true) (sanitize_folder_name name)
          ∧ head (sanitize_folder_name name) ≠ Some DASH
          ∧ last (sanitize_folder_name name) ≠ Some DASH
          ∧ contains double_dash (sanitize_folder_name name) = false
          ∧ (Forall (λ c, is_ascii c = true) name →
             Forall (λ c, slug_char c = true) (sanitize_folder_name name)))
    as (H1 & H2 & H3 & H4 & H5).
  { destruct (sanitize_folder_name_cases name) as [->|(-> & _ & _)].
    - repeat split; try done.
      + apply Forall_forall. intros c Hc. right. revert c Hc. apply Forall_forall.
        apply forallb_Forall. reflexivity.
      + intros _. apply forallb_Forall. reflexivity.
    - split; [|split; [|split; [|split]]].
      + eapply Forall_impl; [apply tidy_keep|]. intros c. apply keep_char_spec.
      + apply tidy_head.
      + apply tidy_last.
      + apply tidy_no_double_dash.
      + intros Ha.
        assert (Forall plain_ascii (tidy (transliterate (normalise name)))) as Hp.
        { apply tidy_Forall; [done|].
          apply transliterate_Forall; [apply slug_char_plain_ascii|].
          apply normalise_Forall; [done|]. by apply lower_plain_ascii. }
        pose proof (tidy_keep (transliterate (normalise name))) as Hk.
        apply Forall_forall. intros c Hc. apply plain_ascii_keep.
        * revert c Hc. by apply Forall_forall.
        * revert c Hc. by apply Forall_forall. }
  repeat split; try done.
  - by apply foreign_from_name.
  - by apply (foreign_from_name name c).
  - by apply (foreign_from_name name c).
  - by apply (foreign_from_name name c).
  - intros Hall. apply Forall_forall. intros c Hc.
    destruct (slug_char c) eqn:E; [done|]. exfalso.
    destruct (foreign_from_name name c Hc E) as [Hin Hu].
    rewrite Forall_forall in Hall. destruct (Hall _ Hin) as [?|?]; [congruence|done].
  - intros c d. apply untransliterated_kept.
Qed.

Lemma sanitize_folder_name_charset_witness :
  Forall (λ c, slug_char c = true)
    (sanitize_folder_name (U := Excerpt.table) (py "G_d's Puzzle"))
  ∧ Forall (λ c, slug_char c = true)
      (sanitize_folder_name (U := Excerpt.table) (py "Björk ΟΔΥΣΣΕΥΣ 4½"))
  ∧ 1078 ∈ sanitize_folder_name (U := Excerpt.table) (py "Жук").
Proof.
  split; [|split].
  - destruct (sanitize_folder_name_charset Excerpt.table (py "G_d's Puzzle"))
      as (_ & _ & _ & _ & H & _).
    apply H. apply forallb_Forall. reflexivity.
  - destruct (sanitize_folder_name_charset Excerpt.table (py "Björk ΟΔΥΣΣΕΥΣ 4½"))
      as (_ & _ & _ & _ & _ & _ & H & _).
    apply H. apply Forall_forall. intros c Hc.
    destruct (slug_char c) eqn:E; [by left | right].
    intros (Ha & Hs & Hk). apply Hk.
    apply list_elem_of_In in Hc. vm_compute in Hc.
    repeat (destruct Hc as [<-|Hc];
            [first [ vm_compute in E; discriminate E
                   | vm_compute in Ha; discriminate Ha
                   | apply list_elem_of_In; vm_compute; tauto ]|]).
    done.
  - destruct (sanitize_folder_name_charset Excerpt.table (py "Жук"))
      as (_ & _ & _ & _ & _ & _ & _ & H).
    apply (H 1046).
    + apply list_elem_of_In. vm_compute. tauto.
    + vm_compute. reflexivity.
    + vm_compute. discriminate.
    + apply list_elem_of_In. vm_compute. tauto.
    + split; [vm_compute; reflexivity|]. split; [vm_compute; reflexivity|].
      intros Hk. apply list_elem_of_In in Hk. vm_compute in Hk.
      repeat (destruct Hk as [Hk|Hk]; [discriminate Hk|]). done.
Defined.

(** C2 as the specification states it fails: a Cyrillic name keeps its
    letters, which [str.isalnum] accepts and no table transliterates. *)
Lemma sanitize_folder_name_keeps_cyrillic :
  sanitize_folder_name (U := Excerpt.table) (py "Жук") = py "жук"
  ∧ forallb slug_char (sanitize_folder_name (U := Excerpt.table) (py "Жук")) = false.
Proof. split; vm_compute; reflexivity. Qed.

(** ** The migrator *)

Section migrator_facts.
Context {U : UnicodeData} {fs : Type} {D : Disk fs}.
Import Migrator.

Lemma analyze_folder_conflict (self : FolderMigrator) (d : fs) (cur exp : str) :
  cur ≠ exp → path_exists d cur = true → path_exists d exp = true →
  analyze_folder self d cur exp = conflict.
Proof.
  intros Hne Hc He. unfold analyze_folder, str_eqb.
  rewrite bool_decide_eq_false_2 by done. by rewrite Hc, He.
Qed.

Lemma analyze_folder_needs_migration (self : FolderMigrator) (d : fs) (cur exp : str) :
  analyze_folder self d cur exp = needs_migration → path_exists d exp = false.
Proof.
  unfold analyze_folder. destruct (str_eqb cur exp); [done|].
  destruct (path_exists d cur); [|done]. simpl.
  by destruct (path_exists d exp).
Qed.

Lemma migrate_folder_moves (self : FolderMigrator) (w : world) (old new : str) :
  moves (migrate_folder self w old new).2
  = if dry_run self then moves w else moves w ++ [(disk w, old, new)].
Proof.
  unfold migrate_folder. destruct (dry_run self); [done|].
  destruct (shutil_move (disk w) old new) as [d' []]; done.
Qed.

Lemma migrate_folder_dry_run (self : FolderMigrator) (w : world) (old new : str) :
  dry_run (migrate_folder self w old new).1.2 = dry_run self.
Proof.
  unfold migrate_folder. destruct (dry_run self) eqn:E; [done|].
  destruct (shutil_move (disk w) old new) as [d' []]; done.
Qed.

(** One round of the loops of [main] keeps the log safe, keeps the flag,
    and in a dry run keeps the log and the disk as they are. *)
Lemma migrate_entity_safe (st : run_state) (existing : option str) (expected : str) :
  let st' := migrate_entity st existing expected in
  (Forall onto_free_name (moves st.1.2) → Forall onto_free_name (moves st'.1.2))
  ∧ dry_run st'.1.1 = dry_run st.1.1
  ∧ (dry_run st.1.1 = true → st'.1.2 = st.1.2).
Proof.
  destruct st as [[m w] mappings]. unfold migrate_entity.
  destruct (truthy existing); [|done].
  destruct (analyze_folder m (disk w) (default [] existing) expected) eqn:Ea;
    try done.
  set (m' := {| dry_run := dry_run m;
                migrations_needed := _;
                migrations_completed := migrations_completed m;
                conflicts := Migrator.conflicts m |}).
  pose proof (migrate_folder_moves m' w (default [] existing) expected) as Hm.
  pose proof (migrate_folder_dry_run m' w (default [] existing) expected) as Hd.
  assert (dry_run m' = true →
          (migrate_folder m' w (default [] existing) expected).2 = w) as Hw.
  { unfold migrate_folder. by intros ->. }
  destruct (migrate_folder m' w (default [] existing) expected) as [[ok m''] w'].
  simpl in *. 
  assert ((Forall onto_free_name (moves w) → Forall onto_free_name (moves w'))
          ∧ dry_run m'' = dry_run m ∧ (dry_run m = true → w' = w)) as H.
  { split; [|done]. intros Hs. rewrite Hm. destruct (dry_run m); [done|].
    apply Forall_app. split; [done|]. repeat constructor.
    unfold onto_free_name. simpl. by eapply analyze_folder_needs_migration. }
  by destruct ok.
Qed.

Lemma migrate_loop_safe {A} (f : fs → A → option str * str) (l : list A)
    (st : run_state) :
  let st' := fold_left (λ st x, migrate_entity st (f (disk st.1.2) x).1
                                  (f (disk st.1.2) x).2) l st in
  (Forall onto_free_name (moves st.1.2) → Forall onto_free_name (moves st'.1.2))
  ∧ (dry_run st.1.1 = true → st'.1.2 = st.1.2).
Proof.
  revert st. induction l as [|x l IH]; intros st; simpl; [done|].
  set (st1 := migrate_entity st _ _).
  destruct (migrate_entity_safe st (f (disk st.1.2) x).1 (f (disk st.1.2) x).2)
    as (Hs & Hd & Hw). fold st1 in Hs, Hd, Hw.
  destruct (IH st1) as [IHs IHw]. split.
  - intros H. by apply IHs, Hs.
  - intros H. rewrite IHw by congruence. by apply Hw.
Qed.
End migrator_facts.

(** C1, as amended: the plan reports a conflict whenever the folder has to
    change its name, exists, and the new name exists too, whatever the
    dry-run flag. [migrate_folder] itself does not look at the target; it is
    the loops of [main] that call it only for a folder whose plan is
    [needs_migration], so that every [shutil.move] of a run is made on a
    disk where the new name is free, and a dry run makes none and leaves
    the disk as it is. *)
Theorem migration_conflict_safety (U : UnicodeData) (fs : Type) (D : Disk fs) :
  (∀ (self : Migrator.FolderMigrator) (d : fs) (current_name expected_name : str),
     current_name ≠ expected_name →
     path_exists d current_name = true →
     path_exists d expected_name = true →
     Migrator.analyze_folder self d current_name expected_name = Migrator.conflict)
  ∧ (∀ (dry_run : bool) (d : fs) (artists : list str) (releases : list (str * str)),
       let start := (Migrator.init dry_run,
                     {| Migrator.disk := d; Migrator.moves := [] |}, []) in
       let after_artists := Migrator.migrate_artists start artists in
       let after_releases := Migrator.migrate_releases start releases in
       Forall onto_free_name (Migrator.moves after_artists.1.2)
       ∧ Forall onto_free_name (Migrator.moves after_releases.1.2)
       ∧ (dry_run = true →
          after_artists.1.2 = start.1.2 ∧ after_releases.1.2 = start.1.2)).
Proof.
  split; [apply analyze_folder_conflict|].
  intros dry d artists releases start after_artists after_releases.
  pose proof (migrate_loop_safe
    (λ d artist_name, (Migrator.find_existing_folder d artist_name None,
                       sanitize_folder_name artist_name)) artists start) as [Ha Hda].
  pose proof (migrate_loop_safe
    (λ d release, (Migrator.find_existing_folder d release.1 (Some release.2),
                   Migrator.join_id (sanitize_folder_name release.1) release.2))
    releases start) as [Hr Hdr].
  split; [by apply Ha|]. split; [by apply Hr|].
  intros ->. split; [by apply Hda | by apply Hdr].
Qed.

Lemma migration_conflict_safety_witness :
  Migrator.analyze_folder (D := FlatDisk.flat) (Migrator.init false)
    {[ py "Bjork"; py "bjork" ]} (py "Bjork") (py "bjork") = Migrator.conflict.
Proof.
  apply (migration_conflict_safety Excerpt.table (gset str) FlatDisk.flat).
  - vm_compute. discriminate.
  - vm_compute. reflexivity.
  - vm_compute. reflexivity.
Defined.

(** C1 as the specification states it fails: called on a target that
    exists, [migrate_folder] calls [shutil.move] all the same. *)
Lemma migrate_folder_moves_onto_existing :
  let d : gset str := {[ py "Bjork"; py "bjork" ]} in
  let w := {| Migrator.disk := d; Migrator.moves := [] |} in
  path_exists (Disk := FlatDisk.flat) d (py "bjork") = true
  ∧ Migrator.moves
      (Migrator.migrate_folder (D := FlatDisk.flat) (Migrator.init false) w
         (py "Bjork") (py "bjork")).2
    = [(d, py "Bjork", py "bjork")].
Proof.
  split; [vm_compute; reflexivity|]. by rewrite migrate_folder_moves.
Qed.

(** ** The checker *)

Section checker_facts.
Context {U : UnicodeData} {fs : Type} {P : Probe fs}.
Import Checker.

Lemma expected_name_of_nonempty (name : str) (entity_id : option str) :
  expected_name_of name entity_id ≠ [].
Proof.
  unfold expected_name_of. pose proof (sanitize_folder_name_nonempty name) as H.
  destruct (truthy entity_id); [|done].
  destruct (sanitize_folder_name name); done.
Qed.

Lemma truthy_Some (s : str) : s ≠ [] → truthy (Some s) = true.
Proof. by destruct s. Qed.

Lemma truthy_default (x : option str) : truthy x = true → x = Some (default [] x).
Proof. by destruct x as [[|c s]|]. Qed.

Lemma id_or_empty (entity_id : option str) :
  (if truthy entity_id then default [] entity_id else []) = default [] entity_id.
Proof. by destruct entity_id as [[|c s]|]. Qed.

(** The search begins with the expected name: it returns only if that
    probe answers, and with the expected name if the answer is yes. *)
Lemma find_existing_folder_first_probe (d : fs) (name : str)
    (entity_id : option str) :
  match probe_exists d (expected_name_of name entity_id) with
  | Some true =>
      find_existing_folder d name entity_id
      = Some (Some (expected_name_of name entity_id))
  | Some false => True
  | None => find_existing_folder d name entity_id = None
  end.
Proof.
  unfold find_existing_folder. cbn zeta.
  by destruct (probe_exists d (expected_name_of name entity_id)) as [[|]|].
Qed.

Lemma check_entity_raises (self : SanitizationChecker) (d : fs) (name : str)
    (entity_id : option str) :
  check_entity self d name entity_id = None
  ↔ find_existing_folder d name entity_id = None.
Proof.
  unfold check_entity. cbn zeta.
  pose proof (find_existing_folder_first_probe d name entity_id) as Hp.
  destruct (find_existing_folder d name entity_id) as [found|] eqn:Ef;
    [|done].
  destruct (negb (truthy found)); [done|]. destruct (str_eqb _ _); [done|].
  destruct (probe_exists d _) as [[|]|]; done.
Qed.

Lemma check_entity_filed (self self' : SanitizationChecker) (d : fs) (name : str)
    (entity_id : option str) (r : result) :
  check_entity self d name entity_id = Some (r, self') →
  status_of r ∈ [missing; correct; conflict; needs_change]
  ∧ record_of d (name, entity_id) r
  ∧ filed self self' r.
Proof.
  unfold check_entity, record_of. cbn zeta. cbn [fst snd].
  pose proof (expected_name_of_nonempty name entity_id) as Hne.
  destruct (find_existing_folder d name entity_id) as [found|] eqn:Ef;
    [|done].
  destruct (truthy found) eqn:Et; cbn [negb].
  - apply truthy_default in Et as Efound.
    unfold str_eqb. case_bool_decide as Eeq.
    + intros [= <- <-]. cbn [status_of set_status Checker.name Checker.id expected_folder
        current_folder].
      split; [repeat constructor|]. split.
      * rewrite id_or_empty. repeat split; try done.
        exists found. rewrite Et. repeat split; try done.
        by rewrite Efound, Eeq.
      * repeat split; simpl; by rewrite ?app_nil_r.
    + destruct (probe_exists d _) as [[|]|] eqn:Ep; [| |done].
      * intros [= <- <-]. cbn [status_of set_status Checker.name Checker.id expected_folder
        current_folder].
        split; [repeat constructor|]. split.
        -- rewrite id_or_empty. repeat split; try done.
           exists found. rewrite Et. repeat split; try done.
           intros ->. by destruct Eeq.
        -- repeat split; simpl; by rewrite ?app_nil_r.
      * intros [= <- <-]. cbn [status_of set_status Checker.name Checker.id expected_folder
        current_folder].
        split; [repeat constructor|]. split.
        -- rewrite id_or_empty. repeat split; try done.
           exists found. rewrite Et. repeat split; try done.
           intros ->. by destruct Eeq.
        -- repeat split; simpl; by rewrite ?app_nil_r.
  - intros [= <- <-]. cbn [status_of set_status Checker.name Checker.id expected_folder
        current_folder].
    split; [repeat constructor|]. split.
    + rewrite id_or_empty. repeat split; try done.
      exists found. rewrite Et. repeat split; try done.
      intros ->. rewrite truthy_Some in Et; done.
    + repeat split; simpl; by rewrite ?app_nil_r.
Qed.

Lemma check_all_filed (d : fs) (entities : list (str * option str))
    (self : SanitizationChecker) :
  let '(rs, self', pending) := check_all d self entities in
  (∃ checked, entities = checked ++ pending ∧ Forall2 (record_of d) checked rs)
  ∧ (pending = []
     ∨ ∃ e rest, pending = e :: rest ∧ find_existing_folder d e.1 e.2 = None)
  ∧ Forall (λ r, status_of r ∈ [missing; correct; conflict; needs_change]) rs
  ∧ missing_folders self' = missing_folders self ++ filter (has_status missing) rs
  ∧ already_correct self' = already_correct self ++ filter (has_status correct) rs
  ∧ conflicts self' = conflicts self ++ filter (has_status conflict) rs
  ∧ changes_needed self'
    = changes_needed self ++ filter (has_status needs_change) rs.
Proof.
  revert self. induction entities as [|e entities IH]; intros self.
  - simpl. rewrite !app_nil_r. repeat split; try done; [|by left].
    exists []. by split.
  - cbn [check_all].
    destruct (check_entity self d e.1 e.2) as [[r self1]|] eqn:Ec.
    + apply check_entity_filed in Ec as (Hs & Hrec & Hm & Hc & Hx & Hn).
      specialize (IH self1). destruct (check_all d self1 entities) as [[rs self'] pending].
      destruct IH as ((checked & -> & Hall) & Hpending & Hst & Hm' & Hc' & Hx' & Hn').
      split; [|split; [done|split; [by constructor|]]].
      * exists (e :: checked). split; [done|]. constructor; [|done].
        by destruct e.
      * rewrite Hm', Hc', Hx', Hn', Hm, Hc, Hx, Hn.
        rewrite <- !app_assoc. by rewrite <- !filter_app.
    + apply check_entity_raises in Ec. simpl. rewrite !app_nil_r.
      repeat split; try done.
      * exists []. by split.
      * right. by exists e, entities.
Qed.

Lemma first_that_answers {A} (test : A → option bool) (l : list A) :
  Forall (λ x, is_Some (test x)) l → is_Some (first_that test l).
Proof.
  induction 1 as [|x l [b Hb] _ IH]; [done|]. cbn [first_that].
  rewrite Hb. by destruct b.
Qed.

Lemma find_existing_folder_answers (d : fs) (name : str) (entity_id : option str) :
  answers d → is_Some (find_existing_folder d name entity_id).
Proof.
  intros [Hex (folders & Hls & Hdirs)]. unfold find_existing_folder. cbn zeta.
  destruct (Hex (expected_name_of name entity_id)) as [b ->].
  destruct b; [done|].
  match goal with
  | |- context [first_that (probe_exists d) ?l] =>
      destruct (first_that_answers (probe_exists d) l) as [found ->]
  end.
  { apply Forall_forall. intros n _. apply Hex. }
  destruct found; [done|].
  rewrite Hls.
  destruct (truthy entity_id).
  - match goal with
    | |- context [first_that ?t folders] =>
        destruct (first_that_answers t folders) as [folder ->]
    end; [|by destruct folder].
    eapply Forall_impl; [exact Hdirs|]. intros [n i] [b Hb]. simpl in *.
    subst i. done.
  - match goal with
    | |- context [first_that ?t folders] =>
        destruct (first_that_answers t folders) as [folder ->]
    end; [|by destruct folder].
    eapply Forall_impl; [exact Hdirs|]. intros [n i] [b Hb]. simpl in *.
    subst i. done.
Qed.
End checker_facts.

(** C10, as amended: a call of [check_entity] that returns gives its
    record one of the four statuses, never the placeholder; the record is
    that of the entity, with its name, its id, its expected folder and the
    folder found for it, and it is filed in the list of its status and in
    no other. The call raises, and then files nothing, exactly when the
    search for the folder raises. A run of calls stops at the first that
    raises: the records are those of the entities before it, one each and
    in order, and every list holds, in order, the records of its status,
    so that the four lists split the records returned. On a disk whose
    probes answer no call raises and every entity has its record. *)
Theorem check_entity_partition (U : UnicodeData) (fs : Type) (P : Probe fs) :
  (∀ (self : Checker.SanitizationChecker) (d : fs) (name : str)
     (entity_id : option str),
     match Checker.check_entity self d name entity_id with
     | Some (r, self') =>
         Checker.status_of r ≠ Checker.unknown
         ∧ Checker.status_of r
             ∈ [Checker.missing; Checker.correct; Checker.conflict;
                Checker.needs_change]
         ∧ record_of d (name, entity_id) r
         ∧ filed self self' r
     | None => Checker.find_existing_folder d name entity_id = None
     end)
  ∧ (∀ (d : fs) (entities : list (str * option str)),
       let '(rs, self', pending) := Checker.check_all d Checker.init entities in
       (∃ checked, entities = checked ++ pending
                   ∧ Forall2 (record_of d) checked rs)
       ∧ (pending = []
          ∨ ∃ e rest, pending = e :: rest
                      ∧ Checker.find_existing_folder d e.1 e.2 = None)
       ∧ Checker.missing_folders self' = filter (has_status Checker.missing) rs
       ∧ Checker.already_correct self' = filter (has_status Checker.correct) rs
       ∧ Checker.conflicts self' = filter (has_status Checker.conflict) rs
       ∧ Checker.changes_needed self' = filter (has_status Checker.needs_change) rs
       ∧ rs ≡ₚ Checker.missing_folders self' ++ Checker.already_correct self'
               ++ Checker.conflicts self' ++ Checker.changes_needed self')
  ∧ (∀ (d : fs) (entities : list (str * option str)),
       answers d →
       let '(rs, _, pending) := Checker.check_all d Checker.init entities in
       pending = [] ∧ Forall2 (record_of d) entities rs).
Proof.
  split; [|split].
  - intros self d name entity_id.
    destruct (Checker.check_entity self d name entity_id) as [[r self']|] eqn:Ec;
      [|by apply check_entity_raises in Ec].
    apply check_entity_filed in Ec as (Hs & Hrec & Hf).
    split; [|done].
    intros E. rewrite E in Hs. rewrite !elem_of_cons, elem_of_nil in Hs.
    by destruct Hs as [?|[?|[?|[?|[]]]]].
  - intros d entities. pose proof (check_all_filed d entities Checker.init) as H.
    destruct (Checker.check_all d Checker.init entities) as [[rs self'] pending].
    destruct H as (Hchecked & Hpending & Hall & Hm & Hc & Hx & Hn).
    simpl in Hm, Hc, Hx, Hn. rewrite Hm, Hc, Hx, Hn.
    repeat split; try done.
    clear Hm Hc Hx Hn Hchecked Hpending.
    induction Hall as [|r new Hr Hall IH]; [done|].
    rewrite !filter_cons.
    rewrite !elem_of_cons, elem_of_nil in Hr.
    destruct Hr as [E|[E|[E|[E|[]]]]];
      repeat case_decide; unfold has_status in *; try congruence; simpl.
    + by constructor.
    + by apply Permutation_cons_app.
    + rewrite app_assoc. apply Permutation_cons_app. by rewrite <- app_assoc.
    + rewrite !app_assoc. apply Permutation_cons_app. by rewrite <- !app_assoc.
  - intros d entities Hd.
    pose proof (check_all_filed d entities Checker.init) as H.
    destruct (Checker.check_all d Checker.init entities) as [[rs self'] pending].
    destruct H as ((checked & -> & Hrec) & [->|(e & rest & -> & He)] & _).
    + rewrite app_nil_r. by split.
    + destruct (find_existing_folder_answers d e.1 e.2 Hd) as [x Hx]. congruence.
Qed.

Lemma check_entity_partition_witness :
  let d : gset str := {[ py "bjork"; py "Sigur Ros" ]} in
  let entities := [(py "Björk", None); (py "Sigur Rós", None); (py "Moby", None)] in
  let '(rs, _, pending) :=
    Checker.check_all (U := Excerpt.table) (P := answering FlatDisk.flat) d
      Checker.init entities in
  pending = []
  ∧ Forall2 (record_of (U := Excerpt.table) (P := answering FlatDisk.flat) d)
      entities rs.
Proof.
  cbn zeta.
  apply (check_entity_partition Excerpt.table (gset str) (answering FlatDisk.flat)).
  split; [done|]. eexists. split; [reflexivity|].
  apply Forall_forall. by intros [n i] (x & [= _ ->] & _)%list_elem_of_fmap.
Defined.

(** C10 as the specification states it fails where a probe raises: without
    the base directory, which [main] only warns about, [iterdir] raises
    [FileNotFoundError] and no entity gets a record or a status; under a
    base directory that is there, a release whose expected name is too
    long for the file system gets none either. *)
Lemma check_entity_raises_without_status :
  let entities := [(py "Björk", None); (py "Sigur Rós", None)] in
  Checker.check_entity (U := Excerpt.table) (P := BaseDir.probe) Checker.init
    None (py "Björk") None = None
  ∧ Checker.check_all (U := Excerpt.table) (P := BaseDir.probe) None Checker.init
      entities = ([], Checker.init, entities)
  ∧ Checker.check_entity (U := Excerpt.table) (P := BaseDir.probe) Checker.init
      (Some ∅) (repeat 97 300) (Some (py "1")) = None.
Proof. repeat split; vm_compute; reflexivity. Qed.

(** ** Dictionaries *)

Section dict_facts.
Context {V : Type}.
Implicit Types (d : list (str * V)) (k : str) (v : V).

Lemma dict_set_elem d k v (kv : str * V) :
  kv ∈ Dict.set d k v → kv ∈ d ∨ kv = (k, v).
Proof.
  induction d as [|[k' v'] d IH]; simpl.
  - intros ->%list_elem_of_singleton. by right.
  - destruct (str_eqb k' k).
    + intros [->|H]%elem_of_cons; [by right | left; by right].
    + intros [->|H]%elem_of_cons; [left; by left|].
      destruct (IH H); [left; by right | by right].
Qed.

Lemma dict_get_None d k : Dict.get d k = None ↔ k ∉ map fst d.
Proof.
  induction d as [|[k' v'] d IH]; simpl.
  - split; [intros _ H; by apply elem_of_nil in H | done].
  - unfold str_eqb. case_bool_decide as E.
    + subst k'. split; [done|]. intros H. exfalso. apply H. by left.
    + rewrite IH. rewrite not_elem_of_cons.
      split; [intros ?; split; [congruence | done] | by intros [_ ?]].
Qed.

Lemma dict_set_fresh d k v : k ∉ map fst d → Dict.set d k v = d ++ [(k, v)].
Proof.
  induction d as [|[k' v'] d IH]; simpl; [done|].
  intros [Hne Hk]%not_elem_of_cons. unfold str_eqb.
  rewrite bool_decide_eq_false_2 by done. by rewrite IH.
Qed.

Lemma dict_set_present d k v : k ∈ map fst d → map fst (Dict.set d k v) = map fst d.
Proof.
  induction d as [|[k' v'] d IH]; simpl.
  - by intros ?%elem_of_nil.
  - unfold str_eqb. case_bool_decide as E; [by subst|].
    intros [?|H]%elem_of_cons; [done|]. simpl. by rewrite IH.
Qed.
End dict_facts.

(** ** The reconciler *)

Section reconciler_facts.
Context {U : UnicodeData} {O : SetOrder}.
Import Reconciler.

Lemma first_on_disk_Some (folders : gset str) (slugs : list str) (slug : str) :
  slug ∈ slugs → slug ∈ folders → first_on_disk folders slugs ≠ None.
Proof.
  intros Hs Hf Hnone. unfold first_on_disk in Hnone.
  apply list_elem_of_In in Hs.
  pose proof (find_none _ _ Hnone slug Hs) as H. simpl in H.
  by apply bool_decide_eq_false in H.
Qed.

Lemma matched_artists_from (db : list artist) (folders : gset str)
    (acc : gset Z) (i : Z) :
  i ∈ fold_left
        (λ matched artist,
           match first_on_disk folders (alternative_slugs artist) with
           | Some _ => matched ∪ {[id artist]}
           | None => matched
           end) db acc
  ↔ i ∈ acc ∨ ∃ a, a ∈ db ∧ id a = i
                   ∧ first_on_disk folders (alternative_slugs a) ≠ None.
Proof.
  revert acc. induction db as [|a db IH]; intros acc; simpl.
  - split; [by left|]. intros [?|(a & Ha & _)]; [done | by apply elem_of_nil in Ha].
  - rewrite IH. split.
    + intros [Hi|(b & Hb & Hid & Hf)].
      * destruct (first_on_disk folders (alternative_slugs a)) eqn:E; [|by left].
        apply elem_of_union in Hi as [?|Hi]; [by left|].
        apply elem_of_singleton in Hi. right. exists a.
        split; [by left|]. split; [done|]. by rewrite E.
      * right. exists b. split; [by right | done].
    + intros [Hi|(b & Hb & Hid & Hf)].
      * left. destruct (first_on_disk _ _); [|done]. apply elem_of_union. by left.
      * apply elem_of_cons in Hb as [->|Hb].
        -- left. destruct (first_on_disk _ _); [|done].
           apply elem_of_union. right. by apply elem_of_singleton.
        -- right. by exists b.
Qed.

Lemma matched_artists_spec (db : list artist) (folders : gset str) (i : Z) :
  i ∈ matched_artists db folders
  ↔ ∃ a, a ∈ db ∧ id a = i
         ∧ first_on_disk folders (alternative_slugs a) ≠ None.
Proof.
  unfold matched_artists. rewrite matched_artists_from.
  split; [intros [?%not_elem_of_empty|?]; done | by right].
Qed.

Lemma get_database_artists_slugs (rows : list row) (a : artist) :
  a ∈ get_database_artists rows →
  alternative_slugs a = alternative_slugify (name a)
  ∧ ∃ r, r ∈ rows ∧ id a = r.1.1 ∧ name a = r.1.2.
Proof.
  unfold get_database_artists. intros (r & -> & Hr)%list_elem_of_fmap.
  split; [done|]. by exists r.
Qed.

Lemma insert_by_score_elem (x y : str * Q) (l : list (str * Q)) :
  y ∈ insert_by_score x l ↔ y = x ∨ y ∈ l.
Proof.
  induction l as [|z l IH]; simpl.
  - rewrite list_elem_of_singleton, elem_of_nil. tauto.
  - destruct (Qgtb z.2 x.2); rewrite !elem_of_cons; [rewrite IH|]; tauto.
Qed.

Lemma sorted_by_score_elem (y : str * Q) (l : list (str * Q)) :
  y ∈ sorted_by_score l ↔ y ∈ l.
Proof.
  unfold sorted_by_score. induction l as [|x l IH]; simpl; [done|].
  rewrite insert_by_score_elem, IH, elem_of_cons. tauto.
Qed.

Lemma insert_by_score_length (x : str * Q) (l : list (str * Q)) :
  length (insert_by_score x l) = S (length l).
Proof.
  induction l as [|z l IH]; simpl; [done|].
  destruct (Qgtb z.2 x.2); simpl; by rewrite ?IH.
Qed.

Lemma sorted_by_score_length (l : list (str * Q)) :
  length (sorted_by_score l) = length l.
Proof.
  unfold sorted_by_score. induction l as [|x l IH]; simpl; [done|].
  by rewrite insert_by_score_length, IH.
Qed.

Lemma unique_step_elem (unique : list (str * Q)) (ns kv : str * Q) :
  kv ∈ unique_step unique ns → kv ∈ unique ∨ kv = ns.
Proof.
  unfold unique_step. destruct ns as [n s]. simpl.
  destruct (Dict.get unique n); [destruct (Qgtb s q)|];
    try (intros H; apply dict_set_elem in H; tauto). by left.
Qed.

Lemma unique_matches_elem (matches : list (str * Q)) (kv : str * Q) :
  kv ∈ unique_matches matches → kv ∈ matches.
Proof.
  unfold unique_matches.
  assert (∀ acc, kv ∈ fold_left unique_step matches acc → kv ∈ acc ∨ kv ∈ matches) as H.
  { induction matches as [|ns matches IH]; intros acc; simpl; [by left|].
    intros [H| H]%IH; [|right; by right].
    apply unique_step_elem in H as [?| ->]; [by left | right; by left]. }
  intros [?%elem_of_nil|?]%H; done.
Qed.

Lemma folder_matches_elem (threshold : Q) (unmatched : list artist) (folder : str)
    (kv : str * Q) :
  kv ∈ folder_matches threshold unmatched folder ↔
  ∃ a, a ∈ unmatched ∧ kv.1 = name a
       ∧ Qgeb kv.2 threshold = true
       ∧ (kv.2 = similarity_score folder (name a)
          ∨ ∃ slug, slug ∈ alternative_slugs a
                    ∧ kv.2 = similarity_score folder slug).
Proof.
  unfold folder_matches. rewrite list_elem_of_In, in_flat_map. split.
  - intros (a & Ha & Hkv). exists a. apply list_elem_of_In in Ha. split; [done|].
    apply in_app_or in Hkv as [Hkv|Hkv].
    + destruct (Qgeb _ threshold) eqn:E; [|done].
      destruct Hkv as [<-|[]]. simpl. auto.
    + apply in_flat_map in Hkv as (slug & Hslug & Hkv).
      destruct (Qgeb _ threshold) eqn:E; [|done].
      destruct Hkv as [<-|[]]. simpl. split; [done|]. split; [done|].
      right. exists slug. by rewrite list_elem_of_In.
  - intros (a & Ha & Hn & Hge & Hsc). exists a. rewrite <- list_elem_of_In.
    split; [done|]. apply in_or_app. destruct kv as [n s]. simpl in *. subst n.
    destruct Hsc as [->|(slug & Hslug & ->)].
    + left. rewrite Hge. by left.
    + right. apply in_flat_map. exists slug. rewrite <- list_elem_of_In.
      split; [done|]. rewrite Hge. by left.
Qed.
End reconciler_facts.

Section matching_priority.
Context {U : UnicodeData} {O : SetOrder}.
Import Reconciler.

Lemma potential_matches_from (threshold : Q) (unmatched : list artist)
    (folders : list str) (acc : list (str * list (str * Q)))
    (kv : str * list (str * Q)) :
  kv ∈ fold_left (add_folder threshold unmatched) folders acc →
  kv ∈ acc
  ∨ ∃ folder, folder ∈ folders ∧ kv.1 = folder
      ∧ kv.2 = sorted_by_score
                 (unique_matches (folder_matches threshold unmatched folder)).
Proof.
  revert acc. induction folders as [|f folders IH]; intros acc; simpl; [by left|].
  intros [H|(folder & Hf & Hk)]%IH.
  - unfold add_folder in H.
    destruct (folder_matches threshold unmatched f) eqn:E; [by left|].
    apply dict_set_elem in H as [?| ->]; [by left|].
    right. exists f. split; [by left|]. by rewrite E.
  - right. exists folder. split; [by right | done].
Qed.

(** Every candidate is the name of an artist that no folder matches. *)
Lemma candidate_unmatched (rows : list row) (public_folders : gset str)
    (threshold : Q) (folder : str) (candidates : list (str * Q)) (n : str) (sc : Q) :
  (folder, candidates) ∈ find_potential_matches rows public_folders threshold →
  (n, sc) ∈ candidates →
  ∃ a, a ∈ get_database_artists rows ∧ name a = n
       ∧ id a ∉ matched_artists (get_database_artists rows) public_folders.
Proof.
  unfold find_potential_matches.
  intros [H%elem_of_nil|(f & _ & _ & Hc)]%potential_matches_from; [done|].
  simpl in Hc. subst candidates.
  intros H%sorted_by_score_elem%unique_matches_elem%folder_matches_elem.
  destruct H as (a & Ha & Hn & _). simpl in Hn.
  unfold unmatched_artists in Ha. apply list_elem_of_filter in Ha as [Hid Ha].
  by exists a.
Qed.
End matching_priority.

Section matching_priority_slugs.
Context {U : UnicodeData} {O : SetOrder}.

(** An entity one of whose alternative slugs is the name of a folder on
    disk is matched, and its name is not among the candidates of any
    folder. *)
Lemma alternative_slug_has_priority (rows : list Reconciler.row)
    (public_folders : gset str) (threshold : Q) (r : Reconciler.row) (slug : str) :
  r ∈ rows →
  slug ∈ Reconciler.alternative_slugify r.1.2 →
  slug ∈ public_folders →
  r.1.1 ∈ Reconciler.matched_artists (Reconciler.get_database_artists rows)
            public_folders
  ∧ ∀ folder candidates n sc,
      (folder, candidates)
        ∈ Reconciler.find_potential_matches rows public_folders threshold →
      (n, sc) ∈ candidates →
      n ≠ r.1.2.
Proof.
  intros Hr Hslug Hdisk. split.
  - apply matched_artists_spec.
    exists {| Reconciler.id := r.1.1; Reconciler.name := r.1.2;
              Reconciler.discogs_id := r.2;
              Reconciler.slug := Reconciler.slugify r.1.2;
              Reconciler.alternative_slugs := Reconciler.alternative_slugify r.1.2 |}.
    split; [|split; [done|]].
    + unfold Reconciler.get_database_artists. apply list_elem_of_fmap. by exists r.
    + simpl. by apply (first_on_disk_Some _ _ slug).
  - intros folder candidates n sc Hf Hn ->.
    destruct (candidate_unmatched _ _ _ _ _ _ _ Hf Hn) as (a & Ha & Hname & Hid).
    apply Hid. apply matched_artists_spec. exists a. split; [done|]. split; [done|].
    apply get_database_artists_slugs in Ha as [-> _]. rewrite Hname.
    by apply (first_on_disk_Some _ _ slug).
Qed.

Lemma iter_set_singleton (x : str) : iter_set {[ x ]} = [x].
Proof.
  apply Permutation_singleton_r. rewrite iter_set_perm.
  by rewrite elements_singleton.
Qed.

(** The one artist of the name [The_Puzzle], in whatever order the set
    of its alternatives is listed. *)
Lemma the_puzzle_artist :
  Reconciler.get_database_artists [(1%Z, py "The_Puzzle", None)]
  = [ {| Reconciler.id := 1; Reconciler.name := py "The_Puzzle";
         Reconciler.discogs_id := None; Reconciler.slug := py "thepuzzle";
         Reconciler.alternative_slugs := [py "thepuzzle"] |} ].
Proof.
  unfold Reconciler.get_database_artists. cbn [map fst snd].
  unfold Reconciler.alternative_slugify.
  replace (Reconciler.alternatives (py "The_Puzzle")) with [py "thepuzzle"]
    by (vm_compute; reflexivity).
  rewrite list_of_set_singleton.
  replace (Reconciler.slugify (py "The_Puzzle")) with (py "thepuzzle")
    by (vm_compute; reflexivity).
  done.
Qed.
End matching_priority_slugs.

(** C5: exact matching has priority for the slugs of the reconciler only:
    an entity one of whose alternative slugs is the name of a folder on
    disk is matched and is no candidate of any folder. The canonical slug
    of section 4.1 is not always among them: the folder [the-puzzle] of
    the artist [The_Puzzle] is on disk, and yet the artist is not matched
    and is the candidate of that very folder, at the default threshold,
    and the coverage report has it as missing. The report also has as
    missing an artist that the matching has matched, where the set of
    the alternatives happens to list the slug after another. *)
Theorem exact_match_misses_canonical_slug (U : UnicodeData) (O : SetOrder) :
  let the_puzzle : list Reconciler.row := [(1%Z, py "The_Puzzle", None)] in
  let on_disk : gset str := {[ py "the-puzzle" ]} in
  let the_beatles : list Reconciler.row := [(2%Z, py "The Beatles", None)] in
  (∀ (rows : list Reconciler.row) (public_folders : gset str) (threshold : Q)
     (r : Reconciler.row) (slug : str),
     r ∈ rows →
     slug ∈ Reconciler.alternative_slugify r.1.2 →
     slug ∈ public_folders →
     r.1.1 ∈ Reconciler.matched_artists (Reconciler.get_database_artists rows)
               public_folders
     ∧ ∀ folder candidates n sc,
         (folder, candidates)
           ∈ Reconciler.find_potential_matches rows public_folders threshold →
         (n, sc) ∈ candidates →
         n ≠ r.1.2)
  ∧ sanitize_folder_name (py "The_Puzzle") ∈ on_disk
  ∧ (1%Z ∉ Reconciler.matched_artists
              (Reconciler.get_database_artists the_puzzle) on_disk)
  ∧ Reconciler.find_potential_matches the_puzzle on_disk (4 # 5)
    = [(py "the-puzzle", [(py "The_Puzzle", 18 # 19)])]
  ∧ (Report.missing_artists <$> Report.analyze_coverage the_puzzle on_disk)
    = Some (Reconciler.get_database_artists the_puzzle)
  ∧ 2%Z ∈ Reconciler.matched_artists
            (Reconciler.get_database_artists (O := by_encoding_reversed)
               the_beatles) {[ py "beatles" ]}
  ∧ (Report.missing_artists
        <$> Report.analyze_coverage (O := by_encoding_reversed) the_beatles
              {[ py "beatles" ]})
    = Some (Reconciler.get_database_artists (O := by_encoding_reversed)
              the_beatles).
Proof.
  cbn zeta. split; [apply alternative_slug_has_priority|].
  split.
  { replace (sanitize_folder_name (py "The_Puzzle")) with (py "the-puzzle")
      by (vm_compute; reflexivity).
    by apply elem_of_singleton. }
  split.
  { rewrite the_puzzle_artist. intros H. apply elem_of_elements in H.
    apply list_elem_of_In in H. vm_compute in H. done. }
  split.
  { unfold Reconciler.find_potential_matches. cbn zeta.
    rewrite the_puzzle_artist.
    match goal with
    | |- context [iter_set ?X] =>
        replace X with ({[ py "the-puzzle" ]} : gset str)
          by (vm_compute; reflexivity)
    end.
    rewrite iter_set_singleton. vm_compute. reflexivity. }
  split.
  { unfold Report.analyze_coverage. rewrite the_puzzle_artist.
    vm_compute. reflexivity. }
  split; [|vm_compute; reflexivity].
  apply elem_of_elements, list_elem_of_In. vm_compute. by left.
Qed.

Section threshold.
Context {U : UnicodeData} {O : SetOrder}.
Import Reconciler.

Lemma dict_get_Some_key {V} (d : list (str * V)) (k : str) (v : V) :
  Dict.get d k = Some v → k ∈ map fst d.
Proof.
  intros H. destruct (decide (k ∈ map fst d)) as [|Hn]; [done|].
  apply dict_get_None in Hn. congruence.
Qed.

Lemma unique_step_keys (unique : list (str * Q)) (ns : str * Q) :
  map fst (unique_step unique ns)
  = if decide (ns.1 ∈ map fst unique) then map fst unique
    else map fst unique ++ [ns.1].
Proof.
  unfold unique_step. destruct (Dict.get unique ns.1) as [best|] eqn:E.
  - apply dict_get_Some_key in E. rewrite decide_True by done.
    destruct (Qgtb ns.2 best); [by apply dict_set_present | done].
  - apply dict_get_None in E. rewrite decide_False by done.
    rewrite dict_set_fresh by done. by rewrite map_app.
Qed.

Lemma unique_matches_keys_from (matches acc : list (str * Q)) :
  NoDup (map fst acc) →
  NoDup (map fst (fold_left unique_step matches acc))
  ∧ ∀ n, n ∈ map fst (fold_left unique_step matches acc)
         ↔ n ∈ map fst acc ∨ n ∈ map fst matches.
Proof.
  revert acc. induction matches as [|ns matches IH]; intros acc Hnd; simpl.
  - split; [done|]. intros n. rewrite elem_of_nil. tauto.
  - destruct (IH (unique_step acc ns)) as [IH1 IH2].
    + rewrite unique_step_keys. case_decide; [done|].
      apply NoDup_app. split; [done|]. split; [|apply NoDup_singleton].
      intros x Hx ->%list_elem_of_singleton. done.
    + split; [done|]. intros n. rewrite IH2, unique_step_keys, elem_of_cons.
      case_decide as Hin.
      * split; [tauto|]. intros [?|[->|?]]; tauto.
      * rewrite elem_of_app, list_elem_of_singleton. tauto.
Qed.

Lemma unique_matches_keys (matches : list (str * Q)) :
  NoDup (map fst (unique_matches matches))
  ∧ ∀ n, n ∈ map fst (unique_matches matches) ↔ n ∈ map fst matches.
Proof.
  destruct (unique_matches_keys_from matches []) as [H1 H2]; [constructor|].
  split; [done|]. intros n. rewrite H2. simpl. rewrite elem_of_nil. tauto.
Qed.

(** The number of entries of [unique_matches] does not grow when names
    are taken away from the matches. *)
Lemma unique_matches_length_mono (m1 m2 : list (str * Q)) :
  (∀ n, n ∈ map fst m2 → n ∈ map fst m1) →
  (length (unique_matches m2) ≤ length (unique_matches m1))%nat.
Proof.
  intros Hsub.
  destruct (unique_matches_keys m1) as [_ H1].
  destruct (unique_matches_keys m2) as [Hnd2 H2].
  rewrite <- (length_map fst (unique_matches m2)).
  rewrite <- (length_map fst (unique_matches m1)).
  apply submseteq_length, NoDup_submseteq; [done|].
  intros n Hn. apply H1, Hsub, H2, Hn.
Qed.

Lemma Qgeb_mono (s t1 t2 : Q) :
  (t1 <= t2)%Q → Qgeb s t2 = true → Qgeb s t1 = true.
Proof.
  unfold Qgeb. rewrite !Qle_bool_iff. intros H1 H2. by eapply Qle_trans.
Qed.

Lemma folder_matches_mono (t1 t2 : Q) (unmatched : list artist) (folder : str)
    (kv : str * Q) :
  (t1 <= t2)%Q →
  kv ∈ folder_matches t2 unmatched folder → kv ∈ folder_matches t1 unmatched folder.
Proof.
  intros Ht. rewrite !folder_matches_elem.
  intros (a & Ha & Hn & Hge & Hsc). exists a. repeat split; try done.
  by apply (Qgeb_mono _ t1 t2).
Qed.

Lemma candidate_count_app (d1 d2 : list (str * list (str * Q))) :
  candidate_count (d1 ++ d2) = (candidate_count d1 + candidate_count d2)%nat.
Proof. unfold candidate_count. by rewrite map_app, list_sum_app. Qed.

Lemma add_folder_fresh (threshold : Q) (unmatched : list artist)
    (acc : list (str * list (str * Q))) (folder : str) :
  folder ∉ map fst acc →
  candidate_count (add_folder threshold unmatched acc folder)
  = (candidate_count acc + folder_count threshold unmatched folder)%nat
  ∧ ∀ k, k ∈ map fst (add_folder threshold unmatched acc folder) →
         k ∈ map fst acc ∨ k = folder.
Proof.
  intros Hf. unfold add_folder, folder_count.
  destruct (folder_matches threshold unmatched folder) as [|m ms] eqn:E.
  - split; [simpl; lia | by left].
  - rewrite dict_set_fresh by done. split.
    + rewrite candidate_count_app. unfold candidate_count at 2. simpl.
      rewrite sorted_by_score_length. lia.
    + intros k. rewrite map_app, elem_of_app. simpl.
      rewrite list_elem_of_singleton. tauto.
Qed.

Lemma potential_matches_count (threshold : Q) (unmatched : list artist)
    (folders : list str) (acc : list (str * list (str * Q))) :
  NoDup folders → (∀ f, f ∈ folders → f ∉ map fst acc) →
  candidate_count (fold_left (add_folder threshold unmatched) folders acc)
  = (candidate_count acc
     + list_sum (map (folder_count threshold unmatched) folders))%nat.
Proof.
  intros Hnd. revert acc. induction Hnd as [|f folders Hf Hnd IH]; intros acc Hacc.
  - simpl. lia.
  - simpl. destruct (add_folder_fresh threshold unmatched acc f) as [Hc Hk].
    { apply Hacc. by left. }
    rewrite IH.
    + rewrite Hc. lia.
    + intros g Hg [Hin| ->]%Hk; [|done]. apply (Hacc g); [by right | done].
Qed.

Lemma list_sum_mono {A} (f g : A → nat) (l : list A) :
  (∀ x, x ∈ l → (f x ≤ g x)%nat) →
  (list_sum (map f l) ≤ list_sum (map g l))%nat.
Proof.
  induction l as [|x l IH]; intros H; simpl; [lia|].
  pose proof (H x (list_elem_of_here _ _)).
  assert (list_sum (map f l) ≤ list_sum (map g l))%nat.
  { apply IH. intros y Hy. apply H. by right. }
  lia.
Qed.
End threshold.

(** C9: with the entities and the folders fixed, a higher threshold never
    gives more candidates. *)
Theorem threshold_monotone (U : UnicodeData) (O : SetOrder)
    (rows : list Reconciler.row)
    (public_folders : gset str) (t1 t2 : Q) :
  (t1 <= t2)%Q →
  (Reconciler.candidate_count
     (Reconciler.find_potential_matches rows public_folders t2)
   ≤ Reconciler.candidate_count
       (Reconciler.find_potential_matches rows public_folders t1))%nat.
Proof.
  intros Ht. unfold Reconciler.find_potential_matches.
  rewrite !potential_matches_count;
    try (rewrite iter_set_perm; apply NoDup_elements);
    try (intros f _ H; by apply elem_of_nil in H).
  apply Nat.add_le_mono_l, list_sum_mono. intros folder _.
  apply unique_matches_length_mono. intros n.
  rewrite !list_elem_of_fmap. intros (kv & -> & Hkv). exists kv. split; [done|].
  by apply (folder_matches_mono t1 t2).
Qed.

Lemma threshold_monotone_witness :
  let rows : list Reconciler.row :=
    [(1%Z, py "Björk", None); (2%Z, py "The Beatles", None)] in
  let public_folders : gset str := {[ py "bjork"; py "beatles-the" ]} in
  (Reconciler.candidate_count
     (Reconciler.find_potential_matches (U := Excerpt.table) (O := by_encoding) rows public_folders
        (9 # 10))
   ≤ Reconciler.candidate_count
       (Reconciler.find_potential_matches (U := Excerpt.table) (O := by_encoding) rows public_folders
          (1 # 2)))%nat.
Proof.
  apply (threshold_monotone Excerpt.table by_encoding
           [(1%Z, py "Björk", None); (2%Z, py "The Beatles", None)]
           {[ py "bjork"; py "beatles-the" ]} (1 # 2) (9 # 10)).
  by vm_compute.
Defined.

(** ** The sequence matcher *)

Section positions.
Import Difflib.
Local Open Scope nat_scope.

Lemma positions_from_elem (start : nat) (x : N) (l : str) (j : nat) :
  j ∈ positions_from start x l ↔ start ≤ j ∧ l !! (j - start) = Some x.
Proof.
  revert start. induction l as [|y l IH]; intros start; simpl.
  - rewrite elem_of_nil. split; [done | by intros [_ ?]].
  - rewrite elem_of_app, IH. destruct (N.eqb_spec y x) as [->|Hne].
    + rewrite list_elem_of_singleton. split.
      * intros [->|[Hle Hl]].
        -- split; [lia|]. by replace (start - start) with 0 by lia.
        -- split; [lia|]. replace (j - start) with (S (j - S start)) by lia. done.
      * intros [Hle Hl]. destruct (decide (j = start)) as [|Hn]; [by left|right].
        split; [lia|]. replace (j - start) with (S (j - S start)) in Hl by lia. done.
    + rewrite elem_of_nil. split.
      * intros [[]|[Hle Hl]]. split; [lia|].
        replace (j - start) with (S (j - S start)) by lia. done.
      * intros [Hle Hl]. right. destruct (decide (j = start)) as [->|Hn].
        -- replace (start - start) with 0 in Hl by lia. simpl in Hl. congruence.
        -- split; [lia|]. replace (j - start) with (S (j - S start)) in Hl by lia. done.
Qed.

Lemma positions_from_app (start : nat) (x : N) (l1 l2 : str) :
  positions_from start x (l1 ++ l2)
  = positions_from start x l1 ++ positions_from (start + length l1) x l2.
Proof.
  revert start. induction l1 as [|y l1 IH]; intros start; simpl.
  - by rewrite Nat.add_0_r.
  - rewrite IH, <- app_assoc. by replace (S start + length l1) with (start + S (length l1)) by lia.
Qed.

Lemma positions_from_bounds (start : nat) (x : N) (l : str) :
  Forall (λ j, start ≤ j < start + length l) (positions_from start x l).
Proof.
  apply Forall_forall. intros j [Hle Hl]%positions_from_elem.
  apply lookup_lt_Some in Hl. lia.
Qed.

(** The positions of the element at [i], split at [i]. *)
Lemma positions_from_split (s : str) (i : nat) (x : N) :
  s !! i = Some x →
  ∃ pre post, positions_from 0 x s = pre ++ i :: post
    ∧ Forall (λ j, j < i) pre ∧ Forall (λ j, i < j < length s) post.
Proof.
  intros Hi. pose proof (lookup_lt_Some _ _ _ Hi) as Hlt.
  exists (positions_from 0 x (take i s)), (positions_from (S i) x (drop (S i) s)).
  split; [|split].
  - rewrite <- (take_drop_middle s i x Hi) at 1.
    rewrite positions_from_app. simpl. rewrite N.eqb_refl. simpl.
    by rewrite length_take_le by lia.
  - eapply Forall_impl; [apply positions_from_bounds|]. simpl.
    intros j. rewrite length_take_le by lia. lia.
  - eapply Forall_impl; [apply positions_from_bounds|]. simpl.
    intros j. rewrite length_drop. lia.
Qed.

Lemma index_from (l : str) (start : nat) (m : gmap N (list nat)) (x : N) :
  fold_left setdefault_append (zip (seq start (length l)) l) m !! x
  = match positions_from start x l with
    | [] => m !! x
    | ps => Some (default [] (m !! x) ++ ps)
    end.
Proof.
  revert start m. induction l as [|y l IH]; intros start m; simpl; [done|].
  rewrite IH. unfold setdefault_append. simpl.
  destruct (N.eqb_spec y x) as [->|Hne]; simpl.
  - rewrite lookup_insert_eq. simpl.
    destruct (positions_from (S start) x l); [done|]. by rewrite <- app_assoc.
  - by rewrite lookup_insert_ne.
Qed.

Lemma index_b_lookup (b : str) (x : N) :
  index_b b !! x
  = match positions_from 0 x b with [] => None | ps => Some ps end.
Proof.
  unfold index_b, enumerate. rewrite index_from, lookup_empty. simpl.
  by destruct (positions_from 0 x b).
Qed.

(** An entry of [b2j] lists all the positions of its element. *)
Lemma b2j_lookup (b : str) (x : N) (idxs : list nat) :
  b2j b !! x = Some idxs → idxs = positions_from 0 x b.
Proof.
  unfold b2j, chain_b. intros H.
  assert (index_b b !! x = Some idxs) as Hi.
  { destruct (200 <=? length b); [|done].
    by apply map_lookup_filter_Some in H as [? _]. }
  rewrite index_b_lookup in Hi. destruct (positions_from 0 x b); congruence.
Qed.

Lemma b2j_sound (b : str) (x : N) (idxs : list nat) :
  b2j b !! x = Some idxs → Forall (λ j, b !! j = Some x) idxs.
Proof.
  intros ->%b2j_lookup. apply Forall_forall.
  intros j [_ Hj]%positions_from_elem. by rewrite Nat.sub_0_r in Hj.
Qed.

Lemma junk_at_false (b : str) (j : nat) : junk_at b j = false.
Proof. unfold junk_at, isbjunk, bjunk. by destruct (b !! j). Qed.
End positions.

Section longest_match.
Import Difflib.
Local Open Scope nat_scope.
Variables a b : str.

Lemma scan_row_ok (alo ahi blo bhi i : nat) (x : N) (prev : gmap nat nat)
    (idxs : list nat) (newrow : gmap nat nat) (best : Match) :
  alo ≤ i < ahi → a !! i = Some x → Forall (λ j, b !! j = Some x) idxs →
  row_ok a b alo blo i prev → row_ok a b alo blo (S i) newrow →
  in_window (alo, ahi, blo, bhi) best → agrees a b best →
  row_ok a b alo blo (S i) (scan_row prev i blo bhi idxs newrow best).1
  ∧ in_window (alo, ahi, blo, bhi) (scan_row prev i blo bhi idxs newrow best).2
  ∧ agrees a b (scan_row prev i blo bhi idxs newrow best).2.
Proof.
  intros Hi Hx Hidxs Hprev. revert newrow best.
  induction Hidxs as [|j idxs Hj Hidxs IH]; intros newrow best Hnew Hw Hag; [done|].
  cbn [scan_row]. destruct (Nat.ltb_spec j blo) as [|Hblo]; [by apply IH|].
  destruct (Nat.leb_spec bhi j) as [|Hbhi]; [done|].
  set (p := match j with O => 0 | S j' => default 0 (prev !! j') end).
  assert (same_elt a b i j = true) as Hsame.
  { unfold same_elt. rewrite Hx, Hj. apply N.eqb_refl. }
  assert (p + alo ≤ i ∧ S p ≤ j + 1 - blo
          ∧ ∀ t, t < p → same_elt a b (i - 1 - t) (j - 1 - t) = true) as (Hp1 & Hp2 & Hp3).
  { subst p. destruct j as [|j']; [repeat split; lia|].
    destruct (prev !! j') as [k'|] eqn:E; simpl; [|repeat split; lia].
    destruct (Hprev _ _ E) as (? & ? & ? & ? & Hag').
    repeat split; try lia. intros t Ht.
    match goal with
    | |- same_elt _ _ _ ?v = true => replace v with (j' - t) by lia
    end.
    by apply Hag'. }
  assert (∀ t, t < S p → same_elt a b (S i - 1 - t) (j - t) = true) as Hrun.
  { intros [|t] Ht.
    - by replace (S i - 1 - 0) with i by lia; replace (j - 0) with j by lia.
    - replace (S i - 1 - S t) with (i - 1 - t) by lia.
      replace (j - S t) with (j - 1 - t) by lia. apply Hp3. lia. }
  apply IH.
  - intros j0 k0. rewrite lookup_insert. case_decide as Hj0.
    + intros [= <-]. subst j0. repeat split; try lia. done.
    + apply Hnew.
  - destruct (Nat.ltb_spec (msize best) (S p)); [|done].
    unfold in_window. simpl. lia.
  - destruct (Nat.ltb_spec (msize best) (S p)); [|done].
    intros t Ht. cbn [fst snd] in *.
    specialize (Hrun (p - t)).
    replace (S i - 1 - (p - t)) with (i + 1 - S p + t) in Hrun by lia.
    replace (j - (p - t)) with (j + 1 - S p + t) in Hrun by lia.
    apply Hrun. lia.
Qed.

Lemma scan_step_ok (alo ahi blo bhi i : nat) (st : gmap nat nat * Match) :
  alo ≤ i < ahi → scan_ok a b (alo, ahi, blo, bhi) i st →
  scan_ok a b (alo, ahi, blo, bhi) (S i) (scan_step a b blo bhi st i).
Proof.
  intros Hi (Hrow & Hw & Hag). unfold scan_step.
  destruct (a !! i) as [x|] eqn:Hx.
  - apply (scan_row_ok alo ahi blo bhi i x); try done.
    destruct (b2j b !! x) as [idxs|] eqn:E; simpl; [|done].
    by apply b2j_sound.
  - split; [|done]. intros j k. cbn [fst]. by rewrite lookup_empty.
Qed.

Lemma scan_fold_ok (alo ahi blo bhi : nat) (n i : nat) (st : gmap nat nat * Match) :
  alo ≤ i → i + n ≤ ahi → scan_ok a b (alo, ahi, blo, bhi) i st →
  scan_ok a b (alo, ahi, blo, bhi) (i + n)
    (fold_left (scan_step a b blo bhi) (seq i n) st).
Proof.
  revert i st. induction n as [|n IH]; intros i st Hlo Hhi Hst; simpl.
  - by rewrite Nat.add_0_r.
  - replace (i + S n) with (S i + n) by lia. apply IH; [lia..|].
    apply scan_step_ok; [lia | done].
Qed.

Lemma longest_junk_free_ok (alo ahi blo bhi : nat) :
  alo ≤ ahi → blo ≤ bhi →
  in_window (alo, ahi, blo, bhi) (longest_junk_free a b alo ahi blo bhi)
  ∧ agrees a b (longest_junk_free a b alo ahi blo bhi).
Proof.
  intros Ha Hb. unfold longest_junk_free.
  destruct (scan_fold_ok alo ahi blo bhi (ahi - alo) alo (∅, (alo, blo, 0)))
    as (_ & Hw & Hag); try lia; [|done].
  split; [|split].
  - intros j k. cbn [fst]. by rewrite lookup_empty.
  - unfold in_window. simpl. lia.
  - intros t Ht. simpl in Ht. lia.
Qed.

Lemma extend_left_ok (want_junk : bool) (alo ahi blo bhi i j k : nat) :
  in_window (alo, ahi, blo, bhi) (i, j, k) → agrees a b (i, j, k) →
  in_window (alo, ahi, blo, bhi) (extend_left a b want_junk alo blo i j k)
  ∧ agrees a b (extend_left a b want_junk alo blo i j k).
Proof.
  revert j k. induction i as [|i IH]; intros j k Hw Hag; [done|].
  destruct j as [|j]; [done|]. cbn [extend_left].
  destruct (_ && _) eqn:E; [|done].
  apply andb_prop in E as [[[Hi Hj]%andb_prop _]%andb_prop Hs].
  apply Nat.leb_le in Hi, Hj. unfold in_window in Hw. simpl in Hw.
  apply IH.
  - unfold in_window. simpl. lia.
  - intros [|t] Ht; simpl in *.
    + by rewrite !Nat.add_0_r.
    + replace (i + S t) with (S i + t) by lia.
      replace (j + S t) with (S j + t) by lia. apply Hag. simpl. lia.
Qed.

Lemma extend_right_ok (want_junk : bool) (alo ahi blo bhi room i j k : nat) :
  i + k + room ≤ ahi →
  in_window (alo, ahi, blo, bhi) (i, j, k) → agrees a b (i, j, k) →
  in_window (alo, ahi, blo, bhi) (i, j, extend_right a b want_junk room bhi i j k)
  ∧ agrees a b (i, j, extend_right a b want_junk room bhi i j k).
Proof.
  revert k. induction room as [|room IH]; intros k Hroom Hw Hag; [done|].
  cbn [extend_right]. destruct (_ && _) eqn:E; [|done].
  apply andb_prop in E as [[Hj _]%andb_prop Hs].
  apply Nat.ltb_lt in Hj. unfold in_window in Hw. simpl in Hw.
  apply IH; [lia| |].
  - unfold in_window. simpl. lia.
  - intros t Ht. simpl in *. destruct (decide (t = k)) as [->|]; [done|].
    apply Hag. simpl. lia.
Qed.

Lemma extend_ok (want_junk : bool) (alo ahi blo bhi : nat) (m : Match) :
  in_window (alo, ahi, blo, bhi) m → agrees a b m →
  in_window (alo, ahi, blo, bhi) (extend a b want_junk alo ahi blo bhi m)
  ∧ agrees a b (extend a b want_junk alo ahi blo bhi m).
Proof.
  destruct m as [[i j] k]. intros Hw Hag. unfold extend. simpl.
  destruct (extend_left_ok want_junk alo ahi blo bhi i j k Hw Hag) as [Hw1 Hag1].
  destruct (extend_left a b want_junk alo blo i j k) as [[i1 j1] k1].
  apply extend_right_ok; try done. unfold in_window in Hw1. simpl in Hw1. lia.
Qed.

(** The match that [find_longest_match] returns lies in the window, and
    [a] and [b] agree on it. *)
Lemma find_longest_match_ok (alo ahi blo bhi : nat) :
  alo ≤ ahi → blo ≤ bhi →
  in_window (alo, ahi, blo, bhi) (find_longest_match a b alo ahi blo bhi)
  ∧ agrees a b (find_longest_match a b alo ahi blo bhi).
Proof.
  intros Ha Hb. unfold find_longest_match.
  destruct (longest_junk_free_ok alo ahi blo bhi Ha Hb) as [H1 H2].
  destruct (extend_ok false alo ahi blo bhi _ H1 H2) as [H3 H4].
  by apply extend_ok.
Qed.
End longest_match.

Section matching_blocks.
Import Difflib.
Local Open Scope nat_scope.
Variables a b : str.

Lemma total_app (l1 l2 : list Match) : total (l1 ++ l2) = total l1 + total l2.
Proof. unfold total. by rewrite map_app, list_sum_app. Qed.

Lemma blocks_loop_tree (n : nat) :
  ∀ alo ahi blo bhi queue acc fuel,
    alo ≤ ahi → blo ≤ bhi → ahi - alo < n →
    rounds_of a b n (alo, ahi, blo, bhi) ≤ fuel →
    blocks_loop a b fuel ((alo, ahi, blo, bhi) :: queue) acc
    = blocks_loop a b (fuel - rounds_of a b n (alo, ahi, blo, bhi)) queue
        (acc ++ blocks_of a b n (alo, ahi, blo, bhi)).
Proof.
  induction n as [|n IH]; intros alo ahi blo bhi queue acc fuel Ha Hb Hn Hfuel;
    [lia|].
  cbn [rounds_of blocks_of] in *.
  destruct (find_longest_match_ok a b alo ahi blo bhi Ha Hb) as [Hw _].
  destruct (find_longest_match a b alo ahi blo bhi) as [[i j] k] eqn:Eflm.
  unfold in_window in Hw. cbn [fst snd] in Hw.
  destruct fuel as [|fuel]; [destruct (k =? 0); lia|].
  cbn [blocks_loop]. rewrite Eflm.
  destruct (Nat.eqb_spec k 0) as [->|Hk].
  { rewrite app_nil_r. by replace (S fuel - 1) with fuel by lia. }
  destruct ((i + k <? ahi) && (j + k <? bhi)) eqn:Er;
    destruct ((alo <? i) && (blo <? j)) eqn:El.
  - apply andb_prop in Er as [Er1%Nat.ltb_lt Er2%Nat.ltb_lt].
    apply andb_prop in El as [El1%Nat.ltb_lt El2%Nat.ltb_lt].
    rewrite IH by lia. rewrite IH by lia.
    rewrite <- !app_assoc. simpl. f_equal; lia.
  - apply andb_prop in Er as [Er1%Nat.ltb_lt Er2%Nat.ltb_lt].
    rewrite IH by lia. rewrite app_nil_r, <- !app_assoc. simpl. f_equal; lia.
  - apply andb_prop in El as [El1%Nat.ltb_lt El2%Nat.ltb_lt].
    rewrite IH by lia. rewrite <- !app_assoc. simpl. f_equal; lia.
  - simpl. f_equal; lia.
Qed.

(** What the blocks of a window add up to: no more than either side of
    the window, few enough rounds, and when they fill the window on both
    sides, the two sides are equal. *)
Lemma blocks_of_total (n : nat) :
  ∀ alo ahi blo bhi,
    alo ≤ ahi → blo ≤ bhi → ahi - alo < n →
    let s := total (blocks_of a b n (alo, ahi, blo, bhi)) in
    s ≤ ahi - alo ∧ s ≤ bhi - blo
    ∧ rounds_of a b n (alo, ahi, blo, bhi) ≤ 2 * s + 1
    ∧ (s = ahi - alo → s = bhi - blo →
       ∀ t, t < ahi - alo → same_elt a b (alo + t) (blo + t) = true).
Proof.
  induction n as [|n IH]; intros alo ahi blo bhi Ha Hb Hn; [lia|].
  cbn [rounds_of blocks_of].
  destruct (find_longest_match_ok a b alo ahi blo bhi Ha Hb) as [Hw Hag].
  destruct (find_longest_match a b alo ahi blo bhi) as [[i j] k] eqn:Eflm.
  unfold in_window in Hw. cbn [fst snd] in Hw. unfold agrees in Hag.
  cbn [fst snd] in Hag.
  destruct (Nat.eqb_spec k 0) as [->|Hk].
  { cbn zeta. unfold total. simpl. repeat split; intros; lia. }
  set (right := if (i + k <? ahi) && (j + k <? bhi)
                then blocks_of a b n (i + k, ahi, j + k, bhi) else []).
  set (left := if (alo <? i) && (blo <? j)
               then blocks_of a b n (alo, i, blo, j) else []).
  set (rr := if (i + k <? ahi) && (j + k <? bhi)
             then rounds_of a b n (i + k, ahi, j + k, bhi) else 0).
  set (rl := if (alo <? i) && (blo <? j)
             then rounds_of a b n (alo, i, blo, j) else 0).
  assert (total right ≤ ahi - (i + k) ∧ total right ≤ bhi - (j + k)
          ∧ rr ≤ 2 * total right + 1
          ∧ (total right = ahi - (i + k) → total right = bhi - (j + k) →
             ∀ t, t < ahi - (i + k) →
                  same_elt a b (i + k + t) (j + k + t) = true)) as (Hr1 & Hr2 & Hr3 & Hr4).
  { subst right rr. destruct ((i + k <? ahi) && (j + k <? bhi)) eqn:Er.
    - apply andb_prop in Er as [Er1%Nat.ltb_lt Er2%Nat.ltb_lt].
      apply IH; lia.
    - unfold total. simpl. repeat split; intros; lia. }
  assert (total left ≤ i - alo ∧ total left ≤ j - blo
          ∧ rl ≤ 2 * total left + 1
          ∧ (total left = i - alo → total left = j - blo →
             ∀ t, t < i - alo → same_elt a b (alo + t) (blo + t) = true))
    as (Hl1 & Hl2 & Hl3 & Hl4).
  { subst left rl. destruct ((alo <? i) && (blo <? j)) eqn:El.
    - apply andb_prop in El as [El1%Nat.ltb_lt El2%Nat.ltb_lt].
      apply IH; lia.
    - unfold total. simpl. repeat split; intros; lia. }
  cbn zeta. change ((i, j, k) :: right ++ left) with ([(i, j, k)] ++ right ++ left).
  rewrite !total_app.
  assert (total [(i, j, k)] = k) as -> by (unfold total; simpl; lia).
  repeat split; try lia.
  intros E1 E2 t Ht.
  destruct (Nat.lt_ge_cases t (i - alo)) as [Hlt|Hge].
  { apply Hl4; lia. }
  destruct (Nat.lt_ge_cases t (i - alo + k)) as [Hlt2|Hge2].
  { specialize (Hag (t - (i - alo))).
    replace (i + (t - (i - alo))) with (alo + t) in Hag by lia.
    replace (j + (t - (i - alo))) with (blo + t) in Hag by lia.
    apply Hag. lia. }
  specialize (Hr4 ltac:(lia) ltac:(lia) (t - (i - alo + k)) ltac:(lia)).
  replace (i + k + (t - (i - alo + k))) with (alo + t) in Hr4 by lia.
  replace (j + k + (t - (i - alo + k))) with (blo + t) in Hr4 by lia.
  done.
Qed.
End matching_blocks.

Section ratio_facts.
Import Difflib.
Local Open Scope nat_scope.

Lemma total_insert_sorted (x : Match) (l : list Match) :
  total (insert_sorted x l) = msize x + total l.
Proof.
  unfold total. induction l as [|y l IH]; simpl; [done|].
  destruct (match_leb x y); simpl; [done|]. rewrite IH. lia.
Qed.

Lemma total_sort_blocks (l : list Match) : total (sort_blocks l) = total l.
Proof.
  unfold sort_blocks. induction l as [|x l IH]; simpl; [done|].
  rewrite total_insert_sorted, IH. unfold total. simpl. done.
Qed.

Lemma total_collapse_adjacent (cur : Match) (l : list Match) :
  total (collapse_adjacent cur l) = msize cur + total l.
Proof.
  revert cur. induction l as [|[[i2 j2] k2] l IH]; intros [[i1 j1] k1]; simpl.
  - unfold total, msize. simpl. destruct (Nat.eqb_spec k1 0); simpl; lia.
  - destruct (_ && _).
    + rewrite IH. unfold total, msize. simpl. lia.
    + rewrite total_app, IH. unfold total, msize. simpl.
      destruct (Nat.eqb_spec k1 0); simpl; lia.
Qed.

Lemma blocks_loop_nil (a b : str) (fuel : nat) (acc : list Match) :
  blocks_loop a b fuel [] acc = acc.
Proof. by destruct fuel. Qed.

(** The rounds that [get_matching_blocks] allows are enough: the loop
    ends with an empty queue, and it has found the blocks of the tree. *)
Lemma blocks_loop_enough (a b : str) :
  blocks_loop a b (2 * length a + 1) [(0, length a, 0, length b)] []
  = blocks_of a b (S (length a)) (0, length a, 0, length b).
Proof.
  destruct (blocks_of_total a b (S (length a)) 0 (length a) 0 (length b))
    as (H1 & _ & H3 & _); [lia..|].
  rewrite (blocks_loop_tree a b (S (length a))) by lia.
  by rewrite blocks_loop_nil.
Qed.

Lemma matches_total (a b : str) :
  matches a b = total (blocks_of a b (S (length a)) (0, length a, 0, length b)).
Proof.
  change (matches a b) with (total (get_matching_blocks a b)).
  unfold get_matching_blocks. cbn zeta.
  rewrite total_app, total_collapse_adjacent, total_sort_blocks.
  rewrite blocks_loop_enough. unfold total, msize. simpl. lia.
Qed.

Lemma matches_le (a b : str) :
  matches a b ≤ length a ∧ matches a b ≤ length b.
Proof.
  rewrite matches_total.
  destruct (blocks_of_total a b (S (length a)) 0 (length a) 0 (length b))
    as (H1 & H2 & _); lia.
Qed.

Lemma same_everywhere (a b : str) :
  length a = length b → (∀ t, t < length a → same_elt a b t t = true) → a = b.
Proof.
  intros Hlen H. apply list_eq. intros i.
  destruct (Nat.lt_ge_cases i (length a)) as [Hlt|Hge].
  - specialize (H i Hlt). unfold same_elt in H.
    destruct (a !! i) as [x|] eqn:Ea; [|done].
    destruct (b !! i) as [y|] eqn:Eb; [|done].
    apply N.eqb_eq in H. subst y. etrans; [exact Ea | symmetry; exact Eb].
  - rewrite !lookup_ge_None_2; [done | lia | lia].
Qed.

Lemma matches_full (a b : str) :
  matches a b = length a → matches a b = length b → a = b.
Proof.
  rewrite matches_total. intros Ha Hb.
  destruct (blocks_of_total a b (S (length a)) 0 (length a) 0 (length b))
    as (_ & _ & _ & H); [lia..|].
  apply same_everywhere; [lia|]. intros t Ht.
  apply (H ltac:(lia) ltac:(lia) t). lia.
Qed.

Lemma matches_disjoint (a b : str) :
  (∀ c, c ∈ a → c ∉ b) → matches a b = 0.
Proof.
  intros Hdis. rewrite matches_total. cbn [blocks_of].
  destruct (find_longest_match_ok a b 0 (length a) 0 (length b)) as [_ Hag];
    [lia..|].
  destruct (find_longest_match a b 0 (length a) 0 (length b)) as [[i j] k].
  destruct (Nat.eqb_spec k 0) as [|Hk]; [done|]. exfalso.
  specialize (Hag 0 ltac:(simpl; lia)). unfold same_elt in Hag. simpl in Hag.
  rewrite !Nat.add_0_r in Hag.
  destruct (a !! i) as [x|] eqn:Ea; [|done].
  destruct (b !! j) as [y|] eqn:Eb; [|done].
  apply N.eqb_eq in Hag. subst y.
  apply (Hdis x); by eapply list_elem_of_lookup_2.
Qed.

Lemma Zpos_of_nat (n : nat) : n ≠ 0 → Zpos (Pos.of_nat n) = Z.of_nat n.
Proof. intros Hn. rewrite <- positive_nat_Z. by rewrite Nat2Pos.id. Qed.

Lemma calculate_ratio_bounds (m len : nat) :
  2 * m ≤ len → (0 <= calculate_ratio m len <= 1)%Q.
Proof.
  intros H. unfold calculate_ratio. destruct len as [|len]; [done|].
  unfold Qle. simpl Qnum. simpl Qden. rewrite Zpos_of_nat by done. lia.
Qed.

Lemma calculate_ratio_one (m len : nat) :
  (calculate_ratio m len == 1)%Q ↔ len = 0 ∨ 2 * m = len.
Proof.
  unfold calculate_ratio. destruct len as [|len]; [by split; [left|]|].
  unfold Qeq. simpl Qnum. simpl Qden. rewrite Zpos_of_nat by done. lia.
Qed.

Lemma calculate_ratio_zero (m len : nat) :
  len ≠ 0 → m = 0 → (calculate_ratio m len == 0)%Q.
Proof.
  intros Hlen ->. unfold calculate_ratio. destruct len as [|len]; [done|].
  unfold Qeq. simpl. lia.
Qed.

End ratio_facts.

Section identical.
Import Difflib.
Local Open Scope nat_scope.
Variable s : str.

Lemma live_run_live (i : nat) (x : N) :
  s !! i = Some x → live s x = true → live_run s i = S (before s i).
Proof. intros Hi Hx. destruct i; simpl; by rewrite Hi, Hx. Qed.

Lemma live_run_dead (i : nat) (x : N) :
  s !! i = Some x → live s x = false → live_run s i = 0.
Proof. intros Hi Hx. destruct i; simpl; by rewrite Hi, Hx. Qed.

Lemma scan_row_app (prev : gmap nat nat) (i blo bhi : nat) (l1 l2 : list nat)
    (newrow : gmap nat nat) (best : Match) :
  Forall (λ j, j < bhi) l1 →
  scan_row prev i blo bhi (l1 ++ l2) newrow best
  = scan_row prev i blo bhi l2 (scan_row prev i blo bhi l1 newrow best).1
      (scan_row prev i blo bhi l1 newrow best).2.
Proof.
  intros H. revert newrow best. induction H as [|j l1 Hj Hl1 IH];
    intros newrow best; [done|].
  simpl. destruct (j <? blo); [done|].
  destruct (Nat.leb_spec bhi j); [lia|]. apply IH.
Qed.

Lemma run_at_le (prev : gmap nat nat) (i j : nat) (x : N) :
  diag_row s i prev → s !! i = Some x → s !! j = Some x → live s x = true →
  run_at prev j ≤ live_run s (Nat.min i j).
Proof.
  intros [Hrow _] Hi Hj Hx. unfold run_at.
  assert (s !! Nat.min i j = Some x) as Hm.
  { destruct (Nat.min_spec i j) as [[_ ->]|[_ ->]]; done. }
  rewrite (live_run_live _ x Hm Hx).
  destruct j as [|j']; [lia|].
  destruct (prev !! j') as [k'|] eqn:E; simpl; [|lia].
  destruct (Hrow _ _ E) as (i' & -> & Hk).
  replace (Nat.min (S i') (S j')) with (S (Nat.min i' j')) by lia.
  simpl. lia.
Qed.

Lemma run_at_diag (prev : gmap nat nat) (i : nat) (x : N) :
  diag_row s i prev → s !! i = Some x → live s x = true →
  run_at prev i = live_run s i.
Proof.
  intros [_ Hdiag] Hi Hx. unfold run_at. rewrite (live_run_live _ x Hi Hx).
  destruct i as [|i']; [done|]. simpl. by rewrite (Hdiag i').
Qed.

(** Off the diagonal the best match stays as it is. *)
Lemma scan_row_off_diagonal (prev : gmap nat nat) (i : nat) (x : N)
    (idxs : list nat) (newrow : gmap nat nat) (best : Match) :
  diag_row s i prev → s !! i = Some x → live s x = true →
  Forall (λ j, j < length s ∧ s !! j = Some x ∧ j ≠ i
               ∧ live_run s (Nat.min i j) ≤ msize best) idxs →
  (∀ j k, newrow !! j = Some k → k ≤ live_run s (Nat.min i j)) →
  let r := scan_row prev i 0 (length s) idxs newrow best in
  r.2 = best ∧ r.1 !! i = newrow !! i
  ∧ ∀ j k, r.1 !! j = Some k → k ≤ live_run s (Nat.min i j).
Proof.
  intros Hprev Hi Hx Hidxs. revert newrow.
  induction Hidxs as [|j idxs (Hj1 & Hj2 & Hj3 & Hj4) Hidxs IH];
    intros newrow Hnew; [done|].
  cbn zeta. cbn [scan_row]. replace (j <? 0) with false by done.
  destruct (Nat.leb_spec (length s) j); [lia|].
  fold (run_at prev j).
  pose proof (run_at_le prev i j x Hprev Hi Hj2 Hx) as Hle.
  destruct (Nat.ltb_spec (msize best) (run_at prev j)); [lia|].
  destruct (IH (<[j := run_at prev j]> newrow)) as (H1 & H2 & H3).
  - intros j0 k0. rewrite lookup_insert. case_decide; [|apply Hnew].
    intros [= <-]. by subst j0.
  - split; [done|]. split; [|done]. by rewrite H2, lookup_insert_ne.
Qed.

Lemma scan_step_diag (i : nat) (st : gmap nat nat * Match) :
  i < length s → diag_row s i st.1 → diag_best s i st.2 →
  diag_row s (S i) (scan_step s s 0 (length s) st i).1
  ∧ diag_best s (S i) (scan_step s s 0 (length s) st i).2.
Proof.
  intros Hi Hrow [Hd Hbest]. destruct st as [prev best]. cbn [fst snd] in *.
  unfold scan_step. cbn [fst snd].
  assert (is_Some (s !! i)) as [x Hx] by (by apply lookup_lt_is_Some_2).
  rewrite Hx.
  destruct (live s x) eqn:Hlive.
  - (* the element has an entry: all its positions, [i] among them *)
    pose proof Hlive as Hsome. apply bool_decide_eq_true in Hsome as [idxs Hidxs].
    rewrite Hidxs. change (default [] (Some idxs)) with idxs.
    pose proof (b2j_lookup _ _ _ Hidxs) as ->.
    assert (∀ j, j ∈ positions_from 0 x s → s !! j = Some x) as Hpos.
    { intros j [_ Hj]%positions_from_elem. by rewrite Nat.sub_0_r in Hj. }
    destruct (positions_from_split s i x Hx) as (pre & post & Heq & Hpre & Hpost).
    rewrite Heq in Hpos |- *.
    rewrite scan_row_app
      by (eapply Forall_impl; [exact Hpre|]; simpl; intros; lia).
    destruct (scan_row_off_diagonal prev i x pre ∅ best) as (Hb1 & Hi1 & Hr1);
      try done.
    { apply Forall_forall. intros j Hj.
      pose proof (proj1 (Forall_forall _ _) Hpre j Hj) as Hlt. simpl in Hlt.
      split; [lia|]. split; [apply Hpos, elem_of_app; by left|].
      split; [lia|]. replace (Nat.min i j) with j by lia. apply Hbest. lia. }
    rewrite Hb1. set (row1 := (scan_row prev i 0 (length s) pre ∅ best).1) in *.
    cbn [scan_row]. replace (i <? 0) with false by done.
    destruct (Nat.leb_spec (length s) i); [lia|].
    fold (run_at prev i). rewrite (run_at_diag prev i x) by done.
    set (best2 := if msize best <? live_run s i
                  then (i + 1 - live_run s i, i + 1 - live_run s i, live_run s i)
                  else best).
    assert (best2.1.1 = best2.1.2 ∧ msize best ≤ msize best2
            ∧ live_run s i ≤ msize best2) as (Hd2 & Hm2 & Hl2).
    { subst best2. destruct (Nat.ltb_spec (msize best) (live_run s i));
        unfold msize in *; simpl; repeat split; try done; lia. }
    destruct (scan_row_off_diagonal prev i x post
                (<[i := live_run s i]> row1) best2) as (Hb3 & Hi3 & Hr3);
      try done.
    { apply Forall_forall. intros j Hj.
      pose proof (proj1 (Forall_forall _ _) Hpost j Hj) as Hlt. simpl in Hlt.
      split; [lia|]. split; [apply Hpos, elem_of_app; right; by right|].
      split; [lia|]. by replace (Nat.min i j) with i by lia. }
    { intros j k. rewrite lookup_insert. case_decide; [|apply Hr1].
      intros [= <-]. subst j. by replace (Nat.min i i) with i by lia. }
    rewrite Hb3. split; split.
    + intros j k Hjk. exists i. split; [done|]. by apply Hr3.
    + intros i0 [= <-]. by rewrite Hi3, lookup_insert_eq.
    + done.
    + intros i0 Hi0. destruct (decide (i0 = i)) as [->|]; [done|].
      etrans; [apply Hbest; lia | done].
  - (* the element is popular and has no entry: an empty row *)
    assert (b2j s !! x = None) as ->.
    { apply bool_decide_eq_false in Hlive. by apply eq_None_not_Some. }
    simpl. split; split.
    + intros j k. by rewrite lookup_empty.
    + intros i0 [= <-]. rewrite lookup_empty. simpl.
      by rewrite (live_run_dead i x).
    + done.
    + intros i0 Hi0. destruct (decide (i0 = i)) as [->|].
      * rewrite (live_run_dead i x) by done. lia.
      * apply Hbest. lia.
Qed.

Lemma scan_fold_diag (m i : nat) (st : gmap nat nat * Match) :
  i + m ≤ length s → diag_row s i st.1 → diag_best s i st.2 →
  diag_best s (i + m) (fold_left (scan_step s s 0 (length s)) (seq i m) st).2.
Proof.
  revert i st. induction m as [|m IH]; intros i st Hlen Hrow Hbest; simpl.
  - by rewrite Nat.add_0_r.
  - replace (i + S m) with (S i + m) by lia.
    destruct (scan_step_diag i st) as [Hrow' Hbest']; [lia | done | done |].
    apply IH; [lia | done | done].
Qed.

Lemma same_elt_diagonal (i : nat) : i < length s → same_elt s s i i = true.
Proof.
  intros Hi. unfold same_elt.
  assert (is_Some (s !! i)) as [x ->] by (by apply lookup_lt_is_Some_2).
  apply N.eqb_refl.
Qed.

Lemma extend_left_diagonal (d k : nat) :
  d ≤ length s → extend_left s s false 0 0 d d k = (0, 0, k + d).
Proof.
  revert k. induction d as [|d IH]; intros k Hd; simpl.
  - by rewrite Nat.add_0_r.
  - rewrite junk_at_false, same_elt_diagonal by lia. simpl.
    rewrite IH by lia. f_equal. lia.
Qed.

Lemma extend_right_diagonal (room k : nat) :
  k + room = length s → extend_right s s false room (length s) 0 0 k = length s.
Proof.
  revert k. induction room as [|room IH]; intros k Hk; simpl; [lia|].
  rewrite junk_at_false, same_elt_diagonal by lia.
  destruct (Nat.ltb_spec k (length s)); [|lia]. simpl. apply IH. lia.
Qed.

(** A string matches itself from end to end. *)
Lemma find_longest_match_identical :
  find_longest_match s s 0 (length s) 0 (length s) = (0, 0, length s).
Proof.
  unfold find_longest_match.
  destruct (longest_junk_free_ok s s 0 (length s) 0 (length s)) as [Hw _];
    [lia..|].
  assert (diag_best s (length s) (longest_junk_free s s 0 (length s) 0 (length s)))
    as [Hd _].
  { unfold longest_junk_free. rewrite Nat.sub_0_r.
    apply (scan_fold_diag (length s) 0); [lia| |].
    - split; [intros j k; cbn [fst]; by rewrite lookup_empty | done].
    - split; [done | intros; lia]. }
  destruct (longest_junk_free s s 0 (length s) 0 (length s)) as [[d d'] k].
  unfold in_window in Hw. simpl in Hw, Hd. subst d'.
  unfold extend at 2. cbn [fst snd]. rewrite extend_left_diagonal by lia.
  rewrite extend_right_diagonal by lia.
  unfold extend. simpl. by rewrite Nat.sub_diag.
Qed.

Lemma matches_identical : matches s s = length s.
Proof.
  rewrite matches_total. cbn [blocks_of]. rewrite find_longest_match_identical.
  destruct (Nat.eqb_spec (length s) 0) as [->|Hn]; [done|].
  replace (0 + length s <? length s) with false
    by (symmetry; apply Nat.ltb_ge; lia).
  unfold total, msize. simpl. lia.
Qed.
End identical.

Section ratio_theorems.
Import Difflib.
Local Open Scope nat_scope.

Lemma ratio_bounds (a b : str) : (0 <= ratio a b <= 1)%Q.
Proof.
  unfold ratio. apply calculate_ratio_bounds.
  destruct (matches_le a b). lia.
Qed.

Lemma ratio_one (a b : str) : (ratio a b == 1)%Q ↔ a = b.
Proof.
  unfold ratio. rewrite calculate_ratio_one. split.
  - destruct (matches_le a b) as [Ha Hb]. intros [H|H].
    + destruct a, b; simpl in *; try lia. done.
    + apply matches_full; lia.
  - intros <-. right. rewrite matches_identical. lia.
Qed.

Lemma ratio_zero (a b : str) :
  (∀ c, c ∈ a → c ∉ b) → a ≠ [] ∨ b ≠ [] → (ratio a b == 0)%Q.
Proof.
  intros Hdis Hne. unfold ratio. apply calculate_ratio_zero.
  - destruct a, b; simpl; try lia. by destruct Hne.
  - by apply matches_disjoint.
Qed.
End ratio_theorems.

(** C6, as amended: the score lies between 0 and 1, depends on the two
    strings only through their lowercase forms, is 1 exactly when the
    lowercase forms are the same string, and is 0 when the lowercase forms
    have no character in common and are not both empty. *)
Theorem similarity_score_properties (U : UnicodeData) (a b : str) :
  (0 <= Reconciler.similarity_score a b <= 1)%Q
  ∧ (∀ a' b', lower a' = lower a → lower b' = lower b →
       Reconciler.similarity_score a' b' = Reconciler.similarity_score a b)
  ∧ ((Reconciler.similarity_score a b == 1)%Q ↔ lower a = lower b)
  ∧ ((∀ c, c ∈ lower a → c ∉ lower b) → lower a ≠ [] ∨ lower b ≠ [] →
     (Reconciler.similarity_score a b == 0)%Q).
Proof.
  unfold Reconciler.similarity_score. split; [apply ratio_bounds|].
  split; [by intros a' b' -> ->|]. split; [apply ratio_one|]. apply ratio_zero.
Qed.

Lemma similarity_score_properties_witness :
  (Reconciler.similarity_score (U := Excerpt.table) (py "Björk") (py "BJÖRK") == 1)%Q.
Proof.
  apply (similarity_score_properties Excerpt.table (py "Björk") (py "BJÖRK")).
  vm_compute. reflexivity.
Defined.

(** C6 as the specification states it fails: the score is not symmetric,
    and two empty strings, which have nothing in common, score 1. *)
Lemma similarity_score_not_symmetric :
  (Reconciler.similarity_score (U := Excerpt.table) (py "tide") (py "diet") == 1 # 4)%Q
  ∧ (Reconciler.similarity_score (U := Excerpt.table) (py "diet") (py "tide") == 1 # 2)%Q
  ∧ ¬ (Reconciler.similarity_score (U := Excerpt.table) (py "tide") (py "diet")
       == Reconciler.similarity_score (U := Excerpt.table) (py "diet") (py "tide"))%Q
  ∧ (Reconciler.similarity_score (U := Excerpt.table) [] [] == 1)%Q.
Proof. repeat split; vm_compute; congruence. Qed.

(** ** [slugify] *)

Section slugify_facts.
Context {U : UnicodeData}.

Lemma slugify_tidy (text : str) :
  Reconciler.slugify text
  = tidy (replace_all Reconciler.accent_map
            (replace (py " ") (py "-") (lower text))).
Proof. reflexivity. Qed.

Lemma finder_slugify (text : str) : Finder.slugify text = Reconciler.slugify text.
Proof. reflexivity. Qed.

Lemma accent_map_slug_chars :
  forallb (λ kv : str * str, forallb slug_char kv.2) Reconciler.accent_map = true.
Proof. vm_compute. reflexivity. Qed.

Lemma slugify_Forall (P : N → Prop) (text : str) :
  (∀ c, slug_char c = true → P c) → Forall P (lower text) →
  Forall P (Reconciler.slugify text).
Proof.
  intros HP Hl. rewrite slugify_tidy. apply tidy_Forall; [by apply HP|].
  apply replace_all_Forall.
  - pose proof accent_map_slug_chars as H. apply forallb_Forall in H.
    eapply Forall_impl; [exact H|]. intros kv Hkv. simpl in Hkv.
    by apply Forall_slug_char.
  - apply replace_Forall; [|done]. repeat constructor. by apply HP.
Qed.

Lemma tidy_id (t : str) :
  Forall (λ c, keep_char c = true) t → head t ≠ Some DASH →
  last t ≠ Some DASH → contains double_dash t = false → tidy t = t.
Proof.
  intros Hk Hh Hl Hd. unfold tidy.
  rewrite (filter_all (λ c, keep_char c = true) t Hk).
  rewrite collapse_dashes_id by done.
  unfold strip_chars. apply strip_by_ends.
  - destruct t as [|c r]; [done|]. simpl in *. rewrite orb_false_r.
    apply N.eqb_neq. intros ->. by apply Hh.
  - intros c Hc. simpl. rewrite orb_false_r.
    apply N.eqb_neq. intros ->. by apply Hl.
Qed.
End slugify_facts.

(** X1: the slug of the reconciler and of the finder is made of dashes and of
    characters that [str.isalnum] accepts, neither starts nor ends with a
    dash and holds no two dashes in a row; for an ASCII name it is in
    [a-z0-9-]. The two copies of [slugify] give the same slug. *)
Theorem slugify_shape (U : UnicodeData) (text : str) :
  let slug := Reconciler.slugify text in
  Finder.slugify text = slug
  ∧ Forall (λ c, c = DASH ∨ isalnum c = true) slug
  ∧ head slug ≠ Some DASH
  ∧ last slug ≠ Some DASH
  ∧ contains double_dash slug = false
  ∧ (Forall (λ c, is_ascii c = true) text → Forall (λ c, slug_char c = true) slug).
Proof.
  cbn zeta. split; [done|]. rewrite slugify_tidy.
  split; [|split; [|split; [|split]]].
  - eapply Forall_impl; [apply tidy_keep|]. intros c. apply keep_char_spec.
  - apply tidy_head.
  - apply tidy_last.
  - apply tidy_no_double_dash.
  - intros Ha. rewrite <- slugify_tidy.
    assert (Forall plain_ascii (Reconciler.slugify text)) as Hp.
    { apply slugify_Forall; [apply slug_char_plain_ascii|].
      by apply lower_plain_ascii. }
    pose proof (tidy_keep (replace_all Reconciler.accent_map
      (replace (py " ") (py "-") (lower text)))) as Hk.
    rewrite <- slugify_tidy in Hk.
    apply Forall_forall. intros c Hc. apply plain_ascii_keep.
    + revert c Hc. by apply Forall_forall.
    + revert c Hc. by apply Forall_forall.
Qed.

Section slugify_fixed_points.
Context {U : UnicodeData} {L : UnicodeLaws U}.

Lemma accent_map_same : Reconciler.accent_map = Sanitizer.accent_map.
Proof. reflexivity. Qed.

Lemma accent_keys_single :
  forallb (λ kv : str * str,
             match kv.1 with [c0] => negb (slug_char c0) | _ => false end)
    Reconciler.accent_map = true.
Proof. vm_compute. reflexivity. Qed.

Lemma slugify_fixed (t : str) :
  Forall (λ c, keep_char c = true) t → Forall lower_fixed t →
  Forall (λ kv : str * str, ∃ c0 o, kv.1 = c0 :: o ∧ c0 ∉ t) Reconciler.accent_map →
  head t ≠ Some DASH → last t ≠ Some DASH → contains double_dash t = false →
  Reconciler.slugify t = t.
Proof.
  intros Hk Hl Ha Hh Hla Hd. rewrite slugify_tidy. unfold lower.
  rewrite lower_from_fixed by done.
  change (py " ") with [32]. rewrite replace_absent.
  2:{ apply keep_absent; [done|]. reflexivity. }
  rewrite replace_all_id by done. by apply tidy_id.
Qed.

Lemma slugify_accent_free (text : str) :
  Forall (λ kv : str * str, ∃ c0 o, kv.1 = c0 :: o ∧ c0 ∉ Reconciler.slugify text)
    Reconciler.accent_map.
Proof.
  pose proof accent_keys_single as Hs. apply forallb_Forall in Hs.
  rewrite Forall_forall in Hs. apply Forall_forall. intros kv Hkv.
  specialize (Hs _ Hkv). simpl in Hs.
  destruct kv as [[|c0 [|c1 o]] v]; simpl in Hs; try done.
  apply negb_true_iff in Hs. exists c0, []. split; [done|].
  rewrite slugify_tidy.
  assert (Forall (λ c, c ≠ c0)
            (tidy (replace_all Reconciler.accent_map
                     (replace (py " ") (py "-") (lower text))))) as H.
  { apply tidy_Forall; [by intros <-|].
    apply Forall_forall. intros c Hc ->. revert Hc.
    apply (replace_all_removes c0 v); [done|].
    pose proof accent_map_slug_chars as Hv. apply forallb_Forall in Hv.
    eapply Forall_impl; [exact Hv|]. intros kv' Hkv' Hin. simpl in Hkv'.
    apply forallb_Forall in Hkv'. rewrite Forall_forall in Hkv'.
    specialize (Hkv' _ Hin). congruence. }
  rewrite Forall_forall in H. intros Hc. by apply (H c0).
Qed.

Lemma settled_accent_free (t : str) :
  settled t →
  Forall (λ kv : str * str, ∃ c0 o, kv.1 = c0 :: o ∧ c0 ∉ t) Reconciler.accent_map.
Proof.
  intros Ht. pose proof accent_keys_single as Hs. apply forallb_Forall in Hs.
  rewrite Forall_forall in Hs. apply Forall_forall. intros kv Hkv.
  specialize (Hs _ Hkv). simpl in Hs.
  destruct kv as [[|c0 [|c1 o]] v] eqn:E; simpl in Hs; try done.
  exists c0, []. split; [done|]. apply (settled_keys _ Ht).
  unfold key_heads. apply list_elem_of_In, in_flat_map. exists kv. subst kv.
  split; [|by left]. apply list_elem_of_In. unfold all_replacements.
  apply elem_of_app. left. by rewrite <- accent_map_same.
Qed.
End slugify_fixed_points.

(** X2: [slugify] is idempotent. *)
Theorem slugify_idempotent (U : UnicodeData) (L : UnicodeLaws U) (text : str) :
  Reconciler.slugify (Reconciler.slugify text) = Reconciler.slugify text.
Proof.
  apply slugify_fixed.
  - rewrite slugify_tidy. apply tidy_keep.
  - apply slugify_Forall; [apply slug_char_lower_fixed | apply lower_lower_fixed].
  - apply slugify_accent_free.
  - rewrite slugify_tidy. apply tidy_head.
  - rewrite slugify_tidy. apply tidy_last.
  - rewrite slugify_tidy. apply tidy_no_double_dash.
Qed.

Lemma slugify_idempotent_witness :
  Reconciler.slugify (U := Excerpt.table)
    (Reconciler.slugify (U := Excerpt.table) (py "Mötley Crüe & Friends"))
  = Reconciler.slugify (U := Excerpt.table) (py "Mötley Crüe & Friends").
Proof. apply (slugify_idempotent Excerpt.table excerpt_laws). Defined.

(** X3: [slugify] leaves every folder name that [sanitize_folder_name] makes
    as it is. *)
Theorem slugify_keeps_canonical (U : UnicodeData) (L : UnicodeLaws U) (name : str) :
  Reconciler.slugify (sanitize_folder_name name) = sanitize_folder_name name.
Proof.
  destruct (sanitize_folder_name_cases name) as [->|(-> & Hne & _)].
  - vm_compute. reflexivity.
  - pose proof (pipeline_settled name Hne) as Ht. apply slugify_fixed.
    + apply (settled_keep _ Ht).
    + apply (settled_lower _ Ht).
    + by apply settled_accent_free.
    + apply (settled_head _ Ht).
    + apply (settled_last _ Ht).
    + apply (settled_dashes _ Ht).
Qed.

Lemma slugify_keeps_canonical_witness :
  Reconciler.slugify (U := Excerpt.table)
    (sanitize_folder_name (U := Excerpt.table) (py "The_Puzzle"))
  = sanitize_folder_name (U := Excerpt.table) (py "The_Puzzle").
Proof. apply (slugify_keeps_canonical Excerpt.table excerpt_laws). Defined.

(** ** Where [slugify] and [sanitize_folder_name] agree *)

Section squeeze_facts.

Lemma replace_pair_here (a b : N) (new r : str) :
  replace [a; b] new (a :: b :: r) = new ++ replace [a; b] new r.
Proof. unfold replace. simpl. by rewrite !N.eqb_refl. Qed.

Lemma replace_pair_next (a b c : N) (new t : str) :
  is_prefix [a; b] (c :: t) = false →
  replace [a; b] new (c :: t) = c :: replace [a; b] new t.
Proof. unfold replace. cbn [replace_from]. by intros ->. Qed.

Lemma is_prefix_pair (a b c : N) (t : str) :
  is_prefix [a; b] (c :: t) = true ↔ c = a ∧ head t = Some b.
Proof.
  simpl. destruct t as [|d r]; simpl.
  - rewrite andb_false_r. split; [done | by intros [_ ?]].
  - rewrite andb_true_r, andb_true_iff, !N.eqb_eq. split.
    + by intros [-> ->].
    + by intros [-> [= ->]].
Qed.

Lemma squeeze_replace_bounded (n : nat) :
  ∀ s b, (length s ≤ n)%nat →
    squeeze b (replace double_dash [DASH] s) = squeeze b s.
Proof.
  unfold double_dash.
  induction n as [|n IH]; intros s b Hn.
  - destruct s; [done | simpl in Hn; lia].
  - destruct s as [|x t]; [done|].
    destruct (is_prefix [DASH; DASH] (x :: t)) eqn:E.
    + apply is_prefix_pair in E as [-> Ht]. destruct t as [|d r]; [done|].
      simpl in Ht. injection Ht as ->.
      rewrite replace_pair_here. simpl. f_equal.
      apply IH. simpl in Hn. lia.
    + rewrite (replace_pair_next _ _ _ _ _ E). simpl in *.
      destruct (x =? DASH); rewrite IH; try done; lia.
Qed.

Lemma squeeze_replace (s : str) (b : bool) :
  squeeze b (replace double_dash [DASH] s) = squeeze b s.
Proof. by apply (squeeze_replace_bounded (length s)). Qed.

Lemma squeeze_collapse_loop (fuel : nat) (s : str) :
  squeeze false (collapse_dashes_loop fuel s) = squeeze false s.
Proof.
  revert s. induction fuel as [|fuel IH]; intros s; simpl.
  - by destruct (contains double_dash s).
  - destruct (contains double_dash s); [|done].
    by rewrite IH, squeeze_replace.
Qed.

Lemma squeeze_id (s : str) (b : bool) :
  contains double_dash s = false → (b = true → head s ≠ Some DASH) →
  squeeze b s = s.
Proof.
  revert b. induction s as [|c r IH]; intros b Hd Hb; [done|].
  simpl. destruct (c =? DASH) eqn:E.
  - apply N.eqb_eq in E. subst c.
    destruct b; [by destruct Hb|]. simpl. f_equal.
    cbn [contains] in Hd. apply orb_false_iff in Hd as [Hp Hd].
    apply IH; [done|]. intros _ Hh.
    assert (is_prefix double_dash (DASH :: r) = true) as Hp'.
    { apply is_prefix_pair. done. }
    congruence.
  - f_equal. cbn [contains] in Hd. apply orb_false_iff in Hd as [_ Hd].
    by apply IH.
Qed.

(** The loop over the double dashes ends with every run cut to one dash. *)
Lemma collapse_dashes_squeeze (s : str) : collapse_dashes s = squeeze false s.
Proof.
  unfold collapse_dashes. rewrite <- (squeeze_collapse_loop (length s) s).
  symmetry. apply squeeze_id; [|done]. apply collapse_dashes_done.
Qed.
End squeeze_facts.

Section plain_name_facts.
Context {U : UnicodeData}.

Lemma replace_single_delete (k : N) (s : str) :
  replace [k] [] s = filter (λ c, c ≠ k) s.
Proof.
  unfold replace, str in *. induction s as [|c r IH]; [done|].
  cbn [replace_from is_prefix length pred app].
  rewrite andb_true_r. destruct (k =? c) eqn:E.
  - apply N.eqb_eq in E. subst c.
    rewrite filter_cons_False by (intros H; by apply H). exact IH.
  - apply N.eqb_neq in E. rewrite filter_cons_True by done. by rewrite IH.
Qed.

Lemma filter_keep_delete (k : N) (s : str) :
  keep_char k = false →
  filter (λ c, keep_char c = true) (replace [k] [] s)
  = filter (λ c, keep_char c = true) s.
Proof.
  intros Hk. rewrite replace_single_delete. unfold str in *.
  induction s as [|c r IH]; [done|].
  destruct (decide (c = k)) as [->|Hc].
  - rewrite (filter_cons_False (λ c, c ≠ k)) by (intros H; by apply H).
    rewrite (filter_cons_False (λ c, keep_char c = true)) by congruence.
    exact IH.
  - rewrite (filter_cons_True (λ c, c ≠ k)) by done.
    destruct (keep_char c) eqn:E.
    + rewrite !(filter_cons_True (λ c, keep_char c = true)) by done.
      by rewrite IH.
    + rewrite !(filter_cons_False (λ c, keep_char c = true)) by congruence.
      exact IH.
Qed.

Lemma replace_second_absent (c0 c1 : N) (o new s : str) :
  c1 ∉ s → replace (c0 :: c1 :: o) new s = s.
Proof.
  unfold replace. induction s as [|c r IH]; intros Hs; [done|].
  assert (c1 ∉ r) as Hr by (intros ?; apply Hs; by right).
  cbn [replace_from is_prefix].
  destruct r as [|d r'].
  - by rewrite andb_false_r.
  - assert ((c1 =? d) = false) as ->.
    { apply N.eqb_neq. intros ->. apply Hs. right. by left. }
    rewrite andb_false_r. by rewrite IH.
Qed.

Lemma spaceless_spec (c : N) :
  spaceless c = true ↔ is_ascii c = true ∧ c ≠ UNDERSCORE ∧ c ≠ 32.
Proof.
  unfold spaceless. rewrite !andb_true_iff, !negb_true_iff, !N.eqb_neq. tauto.
Qed.

Lemma inert_step (kv : str * str) (s : str) :
  inert kv = true → Forall (λ c, spaceless c = true) s →
  filter (λ c, keep_char c = true) (replace kv.1 kv.2 s)
  = filter (λ c, keep_char c = true) s
  ∧ Forall (λ c, spaceless c = true) (replace kv.1 kv.2 s).
Proof.
  intros Hi Hs. unfold inert in Hi.
  destruct kv as [[|c0 [|c1 o]] v]; cbn [fst snd] in *; [done| |].
  - apply orb_true_iff in Hi as [Ha|[Hk Hv]%andb_true_iff].
    + rewrite replace_absent; [done|]. intros Hin.
      rewrite Forall_forall in Hs. apply Hs, spaceless_spec in Hin as [Hin _].
      apply negb_true_iff in Ha. congruence.
    + apply bool_decide_eq_true in Hv. subst v. apply negb_true_iff in Hk.
      split; [by apply filter_keep_delete | by apply replace_Forall].
  - assert (replace (c0 :: c1 :: o) v s = s) as ->; [|done].
    apply orb_true_iff in Hi as [Ha|Hc].
    + apply replace_absent. intros Hin.
      rewrite Forall_forall in Hs. apply Hs, spaceless_spec in Hin as [Hin _].
      apply negb_true_iff in Ha. congruence.
    + apply N.eqb_eq in Hc. subst c1. apply replace_second_absent. intros Hin.
      rewrite Forall_forall in Hs. apply Hs, spaceless_spec in Hin as (_ & _ & Hin).
      done.
Qed.

Lemma inert_table (m : list (str * str)) (s : str) :
  forallb inert m = true → Forall (λ c, spaceless c = true) s →
  filter (λ c, keep_char c = true) (replace_all m s)
  = filter (λ c, keep_char c = true) s
  ∧ Forall (λ c, spaceless c = true) (replace_all m s).
Proof.
  unfold replace_all. revert s. induction m as [|kv m IH]; intros s Hm Hs; [done|].
  simpl in Hm. apply andb_true_iff in Hm as [Hkv Hm]. simpl.
  destruct (inert_step kv s Hkv Hs) as [H1 H2].
  destruct (IH _ Hm H2) as [H3 H4]. split; [congruence | done].
Qed.

Lemma tables_inert :
  forallb inert (map (λ k, (k, [])) deleted_chars ++ all_replacements) = true.
Proof. vm_compute. reflexivity. Qed.

Lemma accent_map_inert : forallb inert Reconciler.accent_map = true.
Proof. vm_compute. reflexivity. Qed.

Lemma normalise_replace_all (name : str) :
  normalise name
  = replace_all (map (λ k, (k, [])) deleted_chars)
      (resolve_underscores (sub_whitespace_runs false (lower name))).
Proof. reflexivity. Qed.

Lemma plain_name_char_spec (c : N) :
  plain_name_char c = true ↔
  is_ascii c = true ∧ c ≠ UNDERSCORE ∧ (isspace c = true → c = 32).
Proof.
  unfold plain_name_char.
  rewrite !andb_true_iff, orb_true_iff, !negb_true_iff, N.eqb_neq, N.eqb_eq.
  destruct (isspace c); intuition congruence.
Qed.

Lemma lower_plain_name (name : str) :
  Forall (λ c, plain_name_char c = true) name →
  Forall (λ c, plain_name_char c = true) (lower name).
Proof.
  intros Hn. apply lower_from_Forall.
  - intros c Hc _. rewrite Forall_forall in Hn. specialize (Hn _ Hc).
    unfold to_lower_full. apply plain_name_char_spec in Hn as (Ha & Hu & Hs).
    rewrite Ha. repeat constructor. clear Hc.
    unfold plain_name_char, isspace in *. rewrite Ha in Hs.
    destruct (is_upper_az c) eqn:E; [|by rewrite Ha; code_point_cases].
    clear Hs Hu Ha. code_point_cases.
  - intros Hc. rewrite Forall_forall in Hn. specialize (Hn _ Hc). done.
Qed.
End plain_name_facts.

Section agreement.
Context {U : UnicodeData}.

Lemma whitespace_runs_spaceless (b : bool) (s : str) :
  Forall (λ c, plain_name_char c = true) s →
  Forall (λ c, spaceless c = true) (sub_whitespace_runs b s).
Proof.
  intros Hs. revert b. induction Hs as [|c r Hc Hr IH]; intros b; [done|].
  simpl. apply plain_name_char_spec in Hc as (Ha & Hu & Hsp).
  destruct (isspace c) eqn:E.
  - destruct b; simpl; [apply IH | constructor; [done | apply IH]].
  - constructor; [|apply IH]. apply spaceless_spec. repeat split; try done.
    intros ->. unfold isspace in E. done.
Qed.

Lemma spaces_to_dashes_spaceless (s : str) :
  Forall (λ c, plain_name_char c = true) s →
  Forall (λ c, spaceless c = true) (replace (py " ") (py "-") s).
Proof.
  intros Hs. change (py " ") with [32]. change (py "-") with [DASH].
  rewrite replace_single_map. apply Forall_map.
  eapply Forall_impl; [exact Hs|]. intros c Hc.
  apply plain_name_char_spec in Hc as (Ha & Hu & Hsp).
  destruct (c =? 32) eqn:E; [done|]. apply N.eqb_neq in E.
  apply spaceless_spec. done.
Qed.

(** After the filter and the loop over the double dashes, a dash for
    every run of spaces is as good as a dash for every space. *)
Lemma squeeze_whitespace_runs (s : str) :
  Forall (λ c, plain_name_char c = true) s →
  ∀ b p, (b = true → p = true) →
    squeeze p (filter (λ c, keep_char c = true) (sub_whitespace_runs b s))
    = squeeze p (filter (λ c, keep_char c = true)
                   (map (λ c, if c =? 32 then DASH else c) s)).
Proof.
  unfold str in *.
  induction 1 as [|c r Hc Hr IH]; intros b p Hbp; [done|].
  apply plain_name_char_spec in Hc as (Ha & Hu & Hsp).
  cbn [sub_whitespace_runs map]. destruct (isspace c) eqn:E.
  - rewrite (Hsp eq_refl). rewrite N.eqb_refl.
    rewrite (filter_cons_True (λ c, keep_char c = true) DASH) by done.
    destruct b.
    + rewrite (Hbp eq_refl). cbn [app squeeze]. rewrite N.eqb_refl.
      cbn [app]. by apply IH.
    + cbn [app].
      rewrite (filter_cons_True (λ c, keep_char c = true) DASH) by done.
      cbn [squeeze]. rewrite N.eqb_refl. f_equal. by apply IH.
  - assert ((c =? 32) = false) as ->.
    { apply N.eqb_neq. intros ->. unfold isspace in E. done. }
    destruct (keep_char c) eqn:Ek.
    + rewrite !(filter_cons_True (λ c, keep_char c = true) c) by done.
      cbn [squeeze]. destruct (c =? DASH); f_equal; by apply IH.
    + rewrite !(filter_cons_False (λ c, keep_char c = true) c) by congruence.
      by apply IH.
Qed.

Lemma resolve_underscores_id (s : str) :
  UNDERSCORE ∉ s → resolve_underscores s = s.
Proof.
  intros Hs. unfold resolve_underscores.
  rewrite sub_letter_underscore_letter_id by done. by apply replace_absent.
Qed.

(** On a plain name the two pipelines give the same string. *)
Lemma pipelines_agree (name : str) :
  Forall (λ c, plain_name_char c = true) name →
  tidy (transliterate (normalise name)) = Reconciler.slugify name.
Proof.
  intros Hn. apply lower_plain_name in Hn.
  rewrite slugify_tidy, normalise_replace_all, transliterate_replace_all.
  pose proof (whitespace_runs_spaceless false _ Hn) as Hw.
  rewrite resolve_underscores_id.
  2:{ intros Hin. rewrite Forall_forall in Hw.
      apply Hw, spaceless_spec in Hin as (_ & Hin & _). done. }
  pose proof tables_inert as Hi. rewrite forallb_app in Hi.
  apply andb_true_iff in Hi as [Hi1 Hi2].
  destruct (inert_table _ _ Hi1 Hw) as [E1 Hw1].
  destruct (inert_table _ _ Hi2 Hw1) as [E2 _].
  destruct (inert_table _ _ accent_map_inert (spaces_to_dashes_spaceless _ Hn))
    as [E3 _].
  unfold tidy. rewrite E2, E1, E3. f_equal.
  rewrite !collapse_dashes_squeeze.
  change (py " ") with [32]. change (py "-") with [DASH].
  rewrite replace_single_map. by apply squeeze_whitespace_runs.
Qed.

Lemma strip_by_all (p : N → bool) (s : str) :
  Forall (λ c, p c = true) s → strip_by p s = [].
Proof.
  intros Hs. unfold strip_by, lstrip, rstrip.
  assert (dropwhile p s = []) as ->; [|done].
  induction Hs as [|c r Hc Hr IH]; [done|]. simpl. by rewrite Hc.
Qed.

Lemma squeeze_Forall (P : N → Prop) (b : bool) (s : str) :
  Forall P s → Forall P (squeeze b s).
Proof.
  intros Hs. revert b. induction Hs as [|c r Hc Hr IH]; intros b; [done|].
  simpl. destruct (c =? DASH) eqn:E.
  - apply N.eqb_eq in E. subst c.
    destruct b; simpl; [apply IH | constructor; [done | apply IH]].
  - constructor; [done | apply IH].
Qed.

Lemma lower_no_alnum (name : str) :
  Forall (λ c, is_ascii c = true ∧ isalnum c = false) name →
  Forall (λ c, isalnum c = false) (lower name).
Proof.
  intros Hn. apply lower_from_Forall.
  - intros c Hc _. rewrite Forall_forall in Hn. destruct (Hn _ Hc) as [Ha Hal].
    unfold to_lower_full. rewrite Ha. repeat constructor.
    destruct (is_upper_az c) eqn:E; [|done].
    unfold isalnum in Hal. rewrite Ha, E in Hal.
    by rewrite orb_true_r in Hal.
  - intros Hc. rewrite Forall_forall in Hn. by destruct (Hn _ Hc).
Qed.

(** A plain name without a letter or a digit has the empty slug. *)
Lemma slugify_no_alnum (name : str) :
  Forall (λ c, plain_name_char c = true) name →
  Forall (λ c, isalnum c = false) name →
  Reconciler.slugify name = [].
Proof.
  intros Hp Hn.
  assert (Forall (λ c, isalnum c = false) (lower name)) as Hl.
  { apply lower_no_alnum. rewrite Forall_forall in *. intros c Hc. split; [|auto].
    by apply Hp, plain_name_char_spec in Hc as [? _]. }
  apply lower_plain_name in Hp.
  rewrite slugify_tidy. unfold tidy, strip_chars.
  apply strip_by_all. rewrite collapse_dashes_squeeze. apply squeeze_Forall.
  destruct (inert_table _ _ accent_map_inert (spaces_to_dashes_spaceless _ Hp))
    as [-> _].
  change (py " ") with [32]. change (py "-") with [DASH].
  rewrite replace_single_map.
  apply Forall_forall. intros c [Hk Hc]%list_elem_of_filter.
  apply keep_char_spec in Hk as [->|Hk]; [reflexivity|]. exfalso.
  apply list_elem_of_fmap in Hc as (c' & -> & Hc').
  rewrite Forall_forall in Hl. specialize (Hl _ Hc').
  destruct (c' =? 32); [done | congruence].
Qed.
End agreement.

Section agreement_cases.
Context {U : UnicodeData}.

Lemma strip_by_split (p : N → bool) (s : str) :
  ∃ t t', s = t ++ strip_by p s ++ t'
          ∧ Forall (λ c, p c = true) t ∧ Forall (λ c, p c = true) t'.
Proof.
  destruct (dropwhile_split p s) as (t & Hs & Ht).
  destruct (rstrip_split p (dropwhile p s)) as (t' & Hs' & Ht').
  exists t, t'. unfold strip_by, lstrip. split; [|done].
  rewrite <- Hs'. exact Hs.
Qed.

(** A plain name that [sanitize_folder_name] does not send through its
    pipeline has no letter and no digit. *)
Lemma set_aside_no_alnum (name : str) :
  Forall (λ c, plain_name_char c = true) name →
  strip name = [] ∨ str_in (strip name) empty_brackets = true →
  Forall (λ c, isalnum c = false) name.
Proof.
  intros Hp Hcase.
  destruct (strip_by_split isspace name) as (t & t' & Hs & Ht & Ht').
  fold (strip name) in Hs.
  assert (∀ l, Forall (λ c, plain_name_char c = true) l →
               Forall (λ c, isspace c = true) l →
               Forall (λ c, isalnum c = false) l) as Hspace.
  { intros l Hl1 Hl2. apply Forall_forall. intros c Hc.
    rewrite Forall_forall in Hl1, Hl2. specialize (Hl1 _ Hc).
    apply plain_name_char_spec in Hl1 as (_ & _ & Hl1).
    rewrite (Hl1 (Hl2 _ Hc)). reflexivity. }
  rewrite Hs in Hp. apply Forall_app in Hp as [Hp1 Hp2].
  apply Forall_app in Hp2 as [_ Hp2].
  rewrite Hs. apply Forall_app. split; [by apply Hspace|].
  apply Forall_app. split; [|by apply Hspace].
  destruct Hcase as [->|Hin]; [done|].
  unfold str_in in Hin. apply existsb_exists in Hin as (br & Hbr & Heq).
  unfold str_eqb in Heq. apply bool_decide_eq_true in Heq. rewrite Heq.
  pose proof empty_brackets_no_alnum as H. rewrite forallb_forall in H.
  specialize (H _ Hbr). apply forallb_Forall in H.
  eapply Forall_impl; [exact H|]. intros c Hc. simpl in Hc.
  by apply negb_true_iff in Hc.
Qed.
End agreement_cases.

(** X4: on a name of ASCII characters without an underscore and with no other
    whitespace than the space, [sanitize_folder_name] gives the slug of
    [slugify], and ["unknown"] where that slug is empty. *)
Theorem slugify_agrees_on_plain_names (U : UnicodeData) (name : str) :
  Forall (λ c, plain_name_char c = true) name →
  sanitize_folder_name name
  = match Reconciler.slugify name with
    | [] => unknown
    | slug => slug
    end.
Proof.
  intros Hp. unfold sanitize_folder_name.
  destruct name as [|c0 r0] eqn:En; [vm_compute; reflexivity|]. rewrite <- En in *.
  destruct (strip name) as [|c1 r1] eqn:Es.
  - rewrite slugify_no_alnum; [done | done |].
    apply set_aside_no_alnum; [done|]. by left.
  - rewrite <- Es. destruct (str_in (strip name) empty_brackets) eqn:Eb.
    + rewrite slugify_no_alnum; [done | done |].
      apply set_aside_no_alnum; [done|]. by right.
    + by rewrite pipelines_agree.
Qed.

Lemma slugify_agrees_on_plain_names_witness :
  sanitize_folder_name (U := Excerpt.table) (py "Guns N' Roses (Live)")
  = match Reconciler.slugify (U := Excerpt.table) (py "Guns N' Roses (Live)") with
    | [] => unknown
    | slug => slug
    end.
Proof.
  apply (slugify_agrees_on_plain_names Excerpt.table (py "Guns N' Roses (Live)")).
  apply forallb_Forall. reflexivity.
Defined.

(** ** Capital letters in ASCII names *)

Section ascii_case.
Context {U : UnicodeData}.

Lemma lower_from_ascii (before s : str) :
  Forall (λ c, is_ascii c = true) s → lower_from before s = map ascii_lower s.
Proof.
  intros Hs. revert before. induction Hs as [|c r Hc Hr IH]; intros before;
    [done|].
  cbn [lower_from map]. rewrite IH.
  assert ((c =? CAPITAL_SIGMA) = false) as ->.
  { apply N.eqb_neq. intros ->. done. }
  unfold to_lower_full. by rewrite Hc.
Qed.

Lemma ascii_lower_ascii (c : N) : is_ascii c = true → is_ascii (ascii_lower c) = true.
Proof. unfold ascii_lower. intros H. code_point_cases. Qed.

Lemma ascii_lower_idem (c : N) : ascii_lower (ascii_lower c) = ascii_lower c.
Proof.
  unfold ascii_lower. destruct (is_upper_az c) eqn:E; [|by rewrite E].
  assert (is_upper_az (c + 32) = false) as ->; [|done]. code_point_cases.
Qed.

Lemma ascii_lower_space (c : N) :
  is_ascii c = true → isspace (ascii_lower c) = isspace c.
Proof.
  intros Ha. unfold ascii_lower. destruct (is_upper_az c) eqn:E; [|done].
  unfold isspace. rewrite Ha.
  assert (is_ascii (c + 32) = true) as -> by code_point_cases.
  clear Ha. code_point_cases.
Qed.

Lemma lower_lower_ascii (s : str) :
  Forall (λ c, is_ascii c = true) s → lower (lower s) = lower s.
Proof.
  intros Hs. unfold lower. rewrite (lower_from_ascii [] s Hs).
  rewrite lower_from_ascii.
  - rewrite <- list_fmap_compose. apply list_fmap_ext. intros _ c _. simpl.
    apply ascii_lower_idem.
  - apply Forall_map. eapply Forall_impl; [exact Hs|]. intros c.
    apply ascii_lower_ascii.
Qed.

Lemma dropwhile_map (p : N → bool) (f : N → N) (s : str) :
  Forall (λ c, p (f c) = p c) s →
  dropwhile p (map f s) = map f (dropwhile p s).
Proof.
  induction 1 as [|c r Hc Hr IH]; [done|]. simpl. rewrite Hc.
  by destruct (p c).
Qed.

Lemma strip_by_map (p : N → bool) (f : N → N) (s : str) :
  Forall (λ c, p (f c) = p c) s →
  strip_by p (map f s) = map f (strip_by p s).
Proof.
  intros Hs. unfold strip_by, lstrip, rstrip.
  rewrite dropwhile_map by done. rewrite <- map_rev, dropwhile_map.
  - by rewrite map_rev.
  - apply Forall_forall. intros c Hc. rewrite Forall_forall in Hs. apply Hs.
    apply list_elem_of_In, in_rev, list_elem_of_In in Hc.
    by apply dropwhile_elem in Hc.
Qed.

Lemma sanitize_folder_name_unfold (name : str) :
  sanitize_folder_name name
  = if bool_decide (strip name = []) || str_in (strip name) empty_brackets
    then unknown
    else match tidy (transliterate (normalise name)) with
         | [] => unknown
         | sanitized => sanitized
         end.
Proof.
  unfold sanitize_folder_name. destruct name as [|c r]; [done|].
  destruct (strip (c :: r)) as [|c' r']; [done|].
  rewrite bool_decide_eq_false_2 by done. done.
Qed.

Lemma brackets_ascii_lower (s : str) :
  Forall (λ c, is_ascii c = true) s →
  str_in (map ascii_lower s) empty_brackets = str_in s empty_brackets.
Proof.
  intros Hs.
  destruct (decide (Forall (λ c, is_upper_az c = false) s)) as [Hu|Hu].
  { f_equal. rewrite <- (map_id s) at 2. apply map_ext_Forall.
    eapply Forall_impl; [exact Hu|]. intros c Hc. unfold ascii_lower.
    by rewrite Hc. }
  apply not_Forall_Exists in Hu; [|apply _].
  apply Exists_exists in Hu as (c & Hc & Hup). simpl in Hup.
  apply not_false_is_true in Hup.
  assert (∀ t d, d ∈ t → isalnum d = true → str_in t empty_brackets = false)
    as Hout.
  { intros t d Hd Hal. apply not_true_is_false.
    unfold str_in. intros (br & Hbr & Heq)%existsb_exists.
    unfold str_eqb in Heq. apply bool_decide_eq_true in Heq. subst br.
    pose proof empty_brackets_no_alnum as H. rewrite forallb_forall in H.
    specialize (H _ Hbr). rewrite forallb_forall in H.
    apply list_elem_of_In in Hd. specialize (H _ Hd).
    apply negb_true_iff in H. congruence. }
  rewrite Forall_forall in Hs. pose proof (Hs _ Hc) as Ha.
  rewrite (Hout s c Hc).
  2:{ unfold isalnum. rewrite Ha, Hup. apply orb_true_iff. left.
      apply orb_true_r. }
  apply (Hout _ (ascii_lower c)).
  - apply list_elem_of_fmap. by exists c.
  - unfold ascii_lower. rewrite Hup. unfold isalnum.
    assert (is_ascii (c + 32) = true) as -> by (clear Hc; code_point_cases).
    assert (is_az (c + 32) = true) as -> by (clear Hc Ha; code_point_cases).
    apply orb_true_r.
Qed.
End ascii_case.

(** X5: capital letters make no difference to the folder name of an ASCII
    name: the name and its lowercase form get the same folder name. *)
Theorem sanitize_folder_name_ignores_case (U : UnicodeData) (name : str) :
  Forall (λ c, is_ascii c = true) name →
  sanitize_folder_name (lower name) = sanitize_folder_name name.
Proof.
  intros Ha. rewrite !sanitize_folder_name_unfold.
  assert (normalise (lower name) = normalise name) as ->.
  { unfold normalise. by rewrite lower_lower_ascii. }
  unfold lower. rewrite (lower_from_ascii [] name Ha).
  unfold strip. rewrite strip_by_map.
  2:{ eapply Forall_impl; [exact Ha|]. intros c. apply ascii_lower_space. }
  rewrite brackets_ascii_lower.
  2:{ apply Forall_forall. intros c Hc%strip_by_elem.
      rewrite Forall_forall in Ha. auto. }
  destruct (strip_by isspace name) as [|c r]; [done|].
  cbn [map]. by rewrite !bool_decide_eq_false_2 by done.
Qed.

Lemma sanitize_folder_name_ignores_case_witness :
  sanitize_folder_name (U := Excerpt.table)
    (lower (U := Excerpt.table) (py "AC/DC Live"))
  = sanitize_folder_name (U := Excerpt.table) (py "AC/DC Live").
Proof.
  apply (sanitize_folder_name_ignores_case Excerpt.table (py "AC/DC Live")).
  apply forallb_Forall. reflexivity.
Defined.

(** ** The alternatives and the candidates *)

Section alternatives_facts.
Context {U : UnicodeData} {O : SetOrder}.
Import Reconciler.

Lemma list_of_set_elem (l : list str) (x : str) : x ∈ list_of_set l ↔ x ∈ l.
Proof. by rewrite list_of_set_perm, elem_of_elements, elem_of_list_to_set. Qed.

Lemma list_of_set_NoDup (l : list str) : NoDup (list_of_set l).
Proof. rewrite list_of_set_perm. apply NoDup_elements. Qed.

Lemma list_of_set_length (l : list str) : (length (list_of_set l) ≤ length l)%nat.
Proof.
  apply submseteq_length, NoDup_submseteq; [apply list_of_set_NoDup|].
  intros x. by rewrite list_of_set_elem.
Qed.

Lemma alternatives_head (text : str) :
  head (alternatives text) = Some (slugify text).
Proof.
  unfold alternatives.
  assert (∀ (ps : list (list Re.atom)) (l : list str),
            head l = Some (slugify text) →
            head (fold_left
                    (λ alternatives pattern,
                       let cleaned := Re.sub_empty pattern 0 text in
                       if negb (str_eqb cleaned text)
                       then alternatives ++ [slugify cleaned]
                       else alternatives) ps l) = Some (slugify text)) as H.
  { induction ps as [|p ps IH]; intros l Hl; [done|]. simpl. apply IH.
    destruct (negb _); [|done]. by destruct l. }
  apply H. destruct (startswith _ _), (contains _ _); done.
Qed.

Lemma alternatives_length (text : str) :
  (1 ≤ length (alternatives text) ≤ 7)%nat.
Proof.
  unfold alternatives, suffix_patterns. cbn [fold_left].
  repeat match goal with
         | |- context [if ?b then _ else _] => destruct b
         end; rewrite ?length_app; simpl; lia.
Qed.

Lemma alternatives_slugs (text : str) :
  Forall (λ alt, ∃ t, alt = slugify t) (alternatives text).
Proof.
  unfold alternatives, suffix_patterns. cbn [fold_left].
  repeat match goal with
         | |- context [if ?b then _ else _] => destruct b
         end; repeat (apply Forall_app; split); repeat constructor; by eexists.
Qed.
End alternatives_facts.

(** X6: [alternative_slugify] lists between one and seven slugs, each once;
    the slug of the name is among them, and each of them is the slug of
    some text. *)
Theorem alternative_slugify_list (U : UnicodeData) (O : SetOrder) (text : str) :
  let alternatives := Reconciler.alternative_slugify text in
  NoDup alternatives
  ∧ Reconciler.slugify text ∈ alternatives
  ∧ (1 ≤ length alternatives ≤ 7)%nat
  ∧ Forall (λ alt, ∃ t, alt = Reconciler.slugify t) alternatives.
Proof.
  cbn zeta. unfold Reconciler.alternative_slugify.
  assert (Reconciler.slugify text ∈ list_of_set (Reconciler.alternatives text)) as Hin.
  { apply list_of_set_elem. pose proof (alternatives_head text) as H.
    destruct (Reconciler.alternatives text); [done|]. injection H as ->. by left. }
  repeat split.
  - apply list_of_set_NoDup.
  - done.
  - destruct (list_of_set (Reconciler.alternatives text)); [|simpl; lia].
    by apply elem_of_nil in Hin.
  - etrans; [apply list_of_set_length|]. apply alternatives_length.
  - apply Forall_forall. intros alt Halt. rewrite list_of_set_elem in Halt.
    pose proof (alternatives_slugs text) as H. rewrite Forall_forall in H. auto.
Qed.

Section dict_lookup.
Context {V : Type}.
Implicit Types (d : list (str * V)) (k : str) (v : V).

Lemma dict_get_set d k k' v :
  Dict.get (Dict.set d k v) k' = if decide (k' = k) then Some v else Dict.get d k'.
Proof.
  induction d as [|[k0 v0] d IH]; simpl.
  - unfold str_eqb. case_bool_decide as E0; case_decide as E1; congruence.
  - unfold str_eqb. case_bool_decide as E0; simpl; unfold str_eqb.
    + subst k0. case_bool_decide as E1; case_decide as E2; congruence.
    + case_bool_decide as E1; [|exact IH].
      subst k0. by rewrite decide_False by congruence.
Qed.

Lemma dict_get_elem d k v : Dict.get d k = Some v → (k, v) ∈ d.
Proof.
  induction d as [|[k0 v0] d IH]; simpl; [done|].
  unfold str_eqb. case_bool_decide as E.
  - intros [= ->]. subst. by left.
  - intros Hg. right. by apply IH.
Qed.

Lemma dict_elem_get d k v : NoDup (map fst d) → (k, v) ∈ d → Dict.get d k = Some v.
Proof.
  induction d as [|[k0 v0] d IH]; simpl; [by intros _ ?%elem_of_nil|].
  intros [Hk Hd]%NoDup_cons [[= -> ->]|Hin]%elem_of_cons; unfold str_eqb.
  - by rewrite bool_decide_eq_true_2.
  - rewrite bool_decide_eq_false_2; [by apply IH|].
    intros ->. apply Hk. apply list_elem_of_fmap. by exists (k, v).
Qed.
End dict_lookup.

Section candidates.
Context {U : UnicodeData} {O : SetOrder}.
Import Reconciler.

Lemma add_folder_entry (threshold : Q) (unmatched : list artist)
    (acc : list (str * list (str * Q))) (f : str) :
  f ∉ map fst acc →
  add_folder threshold unmatched acc f
  = acc ++ match folder_entry threshold unmatched f with
           | Some kv => [kv]
           | None => []
           end
  ∧ ∀ kv, folder_entry threshold unmatched f = Some kv → kv.1 = f.
Proof.
  intros Hf. unfold add_folder, folder_entry.
  destruct (folder_matches threshold unmatched f) as [|m ms].
  - split; [by rewrite app_nil_r | done].
  - rewrite dict_set_fresh by done. split; [done|]. by intros kv [= <-].
Qed.

Lemma potential_matches_omap (threshold : Q) (unmatched : list artist)
    (folders : list str) (acc : list (str * list (str * Q))) :
  NoDup folders → (∀ f, f ∈ folders → f ∉ map fst acc) →
  fold_left (add_folder threshold unmatched) folders acc
  = acc ++ omap (folder_entry threshold unmatched) folders.
Proof.
  intros Hnd. revert acc. induction Hnd as [|f folders Hf Hnd IH]; intros acc Hacc.
  - simpl. by rewrite app_nil_r.
  - cbn [fold_left].
    destruct (add_folder_entry threshold unmatched acc f) as [-> Hkey].
    { apply Hacc. by left. }
    change (omap (folder_entry threshold unmatched) (f :: folders))
      with (match folder_entry threshold unmatched f with
            | Some kv => kv :: omap (folder_entry threshold unmatched) folders
            | None => omap (folder_entry threshold unmatched) folders
            end).
    destruct (folder_entry threshold unmatched f) as [kv|] eqn:E.
    + rewrite IH; [by rewrite <- app_assoc|].
      intros g Hg. rewrite map_app, elem_of_app. simpl.
      rewrite list_elem_of_singleton, (Hkey kv eq_refl).
      intros [Hin| ->]; [|done]. by apply (Hacc g); [right|].
    + rewrite app_nil_r. apply IH. intros g Hg. apply Hacc. by right.
Qed.

Lemma find_potential_matches_omap (rows : list row) (public_folders : gset str)
    (threshold : Q) :
  let db_artists := get_database_artists rows in
  let matched := matched_artists db_artists public_folders in
  find_potential_matches rows public_folders threshold
  = omap (folder_entry threshold (unmatched_artists db_artists matched))
      (iter_set (public_folders
                 ∖ matched_folders db_artists public_folders matched)).
Proof.
  cbn zeta. unfold find_potential_matches. cbn zeta.
  rewrite potential_matches_omap; [done | |].
  - rewrite iter_set_perm. apply NoDup_elements.
  - intros f _ H. by apply elem_of_nil in H.
Qed.

Lemma matched_folders_from (db : list artist) (folders : gset str)
    (matched : gset Z) (acc : gset str) (f : str) :
  f ∈ fold_left
        (λ folders' artist,
           if bool_decide (id artist ∈ matched) then
             match first_on_disk folders (alternative_slugs artist) with
             | Some slug => folders' ∪ {[slug]}
             | None => folders'
             end
           else folders') db acc
  ↔ f ∈ acc ∨ ∃ a, a ∈ db ∧ id a ∈ matched
                   ∧ first_on_disk folders (alternative_slugs a) = Some f.
Proof.
  revert acc. induction db as [|a db IH]; intros acc; simpl.
  - split; [by left|]. intros [?|(a & Ha & _)]; [done | by apply elem_of_nil in Ha].
  - rewrite IH. split.
    + intros [Hf|(b & Hb & Hid & Hfd)].
      * case_bool_decide as Hm; [|by left].
        destruct (first_on_disk folders (alternative_slugs a)) eqn:E; [|by left].
        apply elem_of_union in Hf as [?|Hf]; [by left|].
        apply elem_of_singleton in Hf. subst. right. exists a.
        split; [by left | done].
      * right. exists b. split; [by right | done].
    + intros [Hf|(b & Hb & Hid & Hfd)].
      * left. case_bool_decide; [|done].
        destruct (first_on_disk _ _); [|done]. apply elem_of_union. by left.
      * apply elem_of_cons in Hb as [->|Hb].
        -- left. rewrite bool_decide_eq_true_2 by done. rewrite Hfd.
           apply elem_of_union. right. by apply elem_of_singleton.
        -- right. by exists b.
Qed.

Lemma matched_folders_spec (db : list artist) (folders : gset str) (f : str) :
  f ∈ matched_folders db folders (matched_artists db folders)
  ↔ ∃ a, a ∈ db ∧ first_on_disk folders (alternative_slugs a) = Some f.
Proof.
  unfold matched_folders. rewrite matched_folders_from. split.
  - intros [?%not_elem_of_empty|(a & Ha & _ & Hf)]; [done|]. by exists a.
  - intros (a & Ha & Hf). right. exists a. split; [done|]. split; [|done].
    apply matched_artists_spec. exists a. split; [done|]. split; [done|].
    by rewrite Hf.
Qed.

Lemma first_on_disk_on_disk (folders : gset str) (slugs : list str) (f : str) :
  first_on_disk folders slugs = Some f → f ∈ slugs ∧ f ∈ folders.
Proof.
  unfold first_on_disk. intros H. apply find_some in H as [H1 H2].
  apply list_elem_of_In in H1. by apply bool_decide_eq_true in H2.
Qed.

Lemma folder_entry_Some (threshold : Q) (unmatched : list artist) (folder : str)
    (kv : str * list (str * Q)) :
  folder_entry threshold unmatched folder = Some kv ↔
  folder_matches threshold unmatched folder ≠ []
  ∧ kv = (folder, sorted_by_score
                    (unique_matches (folder_matches threshold unmatched folder))).
Proof.
  unfold folder_entry.
  destruct (folder_matches threshold unmatched folder) as [|m ms]; split.
  - done.
  - by intros [? _].
  - by intros [= <-].
  - by intros [_ ->].
Qed.

Lemma insert_by_score_perm (x : str * Q) (l : list (str * Q)) :
  insert_by_score x l ≡ₚ x :: l.
Proof.
  induction l as [|y l IH]; simpl; [done|].
  destruct (Qgtb y.2 x.2); [|done]. rewrite IH. apply Permutation_swap.
Qed.

Lemma sorted_by_score_perm (l : list (str * Q)) : sorted_by_score l ≡ₚ l.
Proof.
  unfold sorted_by_score. induction l as [|x l IH]; simpl; [done|].
  by rewrite insert_by_score_perm, IH.
Qed.

Lemma Qgtb_true (x y : Q) : Qgtb x y = true → (y <= x)%Q.
Proof.
  unfold Qgtb. intros H%negb_true_iff. apply Qlt_le_weak, Qnot_le_lt.
  intros Hle. apply Qle_bool_iff in Hle. congruence.
Qed.

Lemma Qgtb_false (x y : Q) : Qgtb x y = false → (x <= y)%Q.
Proof. unfold Qgtb. intros H%negb_false_iff. by apply Qle_bool_iff. Qed.

Lemma insert_by_score_sorted (x : str * Q) (l : list (str * Q)) :
  StronglySorted by_falling_score l →
  StronglySorted by_falling_score (insert_by_score x l).
Proof.
  induction 1 as [|y l Hl IH Hy]; simpl.
  - repeat constructor.
  - destruct (Qgtb y.2 x.2) eqn:E.
    + constructor; [done|]. rewrite insert_by_score_perm.
      constructor; [|done]. by apply Qgtb_true.
    + apply Qgtb_false in E. constructor; [by constructor|].
      constructor; [done|]. eapply Forall_impl; [exact Hy|].
      intros z Hz. unfold by_falling_score in *. by eapply Qle_trans.
Qed.

Lemma sorted_by_score_sorted (l : list (str * Q)) :
  StronglySorted by_falling_score (sorted_by_score l).
Proof.
  unfold sorted_by_score. induction l as [|x l IH]; simpl; [constructor|].
  by apply insert_by_score_sorted.
Qed.

Lemma unique_step_get (acc : list (str * Q)) (m n : str) (sm : Q) :
  Dict.get (unique_step acc (m, sm)) n
  = if decide (n = m)
    then Some (match Dict.get acc m with
               | Some best => if Qgtb sm best then sm else best
               | None => sm
               end)
    else Dict.get acc n.
Proof.
  unfold unique_step. cbn [fst snd].
  destruct (Dict.get acc m) as [best|] eqn:Eg.
  - destruct (Qgtb sm best).
    + by rewrite dict_get_set.
    + case_decide as E; [by subst | done].
  - by rewrite dict_get_set.
Qed.

(** The dictionary [unique_matches] holds for every name a score that is
    not below any score that the name has in the list. *)
Lemma unique_matches_best_from (matches acc : list (str * Q)) (n : str) (s' : Q) :
  (n, s') ∈ matches ∨ (∃ s0, Dict.get acc n = Some s0 ∧ (s' <= s0)%Q) →
  ∃ s, Dict.get (fold_left unique_step matches acc) n = Some s ∧ (s' <= s)%Q.
Proof.
  revert acc. induction matches as [|[m sm] matches IH]; intros acc; simpl.
  - intros [?%elem_of_nil|?]; done.
  - intros [[[= -> ->]|Hin]%elem_of_cons|(s0 & Hs0 & Hle)]; apply IH.
    + right. rewrite unique_step_get, decide_True by done.
      eexists. split; [done|].
      destruct (Dict.get acc m) as [best|]; [|apply Qle_refl].
      destruct (Qgtb sm best) eqn:E; [apply Qle_refl | by apply Qgtb_false].
    + by left.
    + right. rewrite unique_step_get. case_decide as E; [|by exists s0].
      subst m. rewrite Hs0. eexists. split; [done|].
      destruct (Qgtb sm s0) eqn:Eg; [|done].
      apply Qgtb_true in Eg. by eapply Qle_trans.
Qed.

Lemma unique_matches_best (matches : list (str * Q)) (n : str) (s s' : Q) :
  (n, s) ∈ unique_matches matches → (n, s') ∈ matches → (s' <= s)%Q.
Proof.
  intros Hs Hs'.
  destruct (unique_matches_best_from matches [] n s' (or_introl Hs'))
    as (s2 & Hget & Hle).
  apply dict_elem_get in Hs; [|apply unique_matches_keys].
  unfold unique_matches in Hs. congruence.
Qed.

Lemma unique_matches_all (matches : list (str * Q)) (n : str) (s' : Q) :
  (n, s') ∈ matches → ∃ s, (n, s) ∈ unique_matches matches ∧ (s' <= s)%Q.
Proof.
  intros Hs'.
  destruct (unique_matches_best_from matches [] n s' (or_introl Hs'))
    as (s & Hget & Hle).
  exists s. split; [|done]. by apply dict_get_elem.
Qed.
End candidates.

Section answer_facts.
Context {U : UnicodeData} {O : SetOrder}.
Import Reconciler.

Lemma folder_entry_keys (threshold : Q) (unmatched : list artist) (folders : list str) :
  map fst (omap (folder_entry threshold unmatched) folders) `sublist_of` folders.
Proof.
  induction folders as [|f folders IH]; [done|].
  change (omap (folder_entry threshold unmatched) (f :: folders))
    with (match folder_entry threshold unmatched f with
          | Some kv => kv :: omap (folder_entry threshold unmatched) folders
          | None => omap (folder_entry threshold unmatched) folders
          end).
  destruct (folder_entry threshold unmatched f) as [kv|] eqn:E.
  - apply folder_entry_Some in E as [_ ->]. simpl. by apply sublist_skip.
  - by apply sublist_cons.
Qed.

(** An entry of the answer: its folder is on disk and matches no artist,
    and its candidates are those of [folder_matches], one for each name
    and in the order of the scores. *)
Lemma answer_entry (rows : list row) (public_folders : gset str) (threshold : Q)
    (folder : str) (candidates : list (str * Q)) :
  let db_artists := get_database_artists rows in
  let unmatched :=
    unmatched_artists db_artists (matched_artists db_artists public_folders) in
  (folder, candidates) ∈ find_potential_matches rows public_folders threshold ↔
  folder ∈ public_folders
  ∧ (∀ a, a ∈ db_artists →
          first_on_disk public_folders (alternative_slugs a) ≠ Some folder)
  ∧ folder_matches threshold unmatched folder ≠ []
  ∧ candidates
    = sorted_by_score (unique_matches (folder_matches threshold unmatched folder)).
Proof.
  cbn zeta. rewrite find_potential_matches_omap. cbn zeta.
  rewrite list_elem_of_omap. split.
  - intros (f & Hf & [Hm [= -> ->]]%folder_entry_Some).
    rewrite iter_set_perm, elem_of_elements, elem_of_difference in Hf.
    destruct Hf as [Hf Hnm]. split; [done|]. split; [|done].
    intros a Ha Hfd. apply Hnm, matched_folders_spec. by exists a.
  - intros (Hf & Hnm & Hm & ->). exists folder. split.
    + rewrite iter_set_perm, elem_of_elements, elem_of_difference.
      split; [done|]. intros (a & Ha & Hfd)%matched_folders_spec.
      by apply (Hnm a).
    + by apply folder_entry_Some.
Qed.

Lemma unmatched_artists_spec (rows : list row) (public_folders : gset str) (a : artist) :
  let db_artists := get_database_artists rows in
  a ∈ unmatched_artists db_artists (matched_artists db_artists public_folders) →
  a ∈ db_artists ∧ first_on_disk public_folders (alternative_slugs a) = None.
Proof.
  cbn zeta. unfold unmatched_artists. intros [Hid Ha]%list_elem_of_filter.
  split; [done|].
  destruct (first_on_disk public_folders (alternative_slugs a)) eqn:E; [|done].
  exfalso. apply Hid, matched_artists_spec. exists a.
  split; [done|]. split; [done|]. by rewrite E.
Qed.
End answer_facts.

(** X7: the folders of the answer of [find_potential_matches] are distinct;
    each is on disk, is not the folder by which an artist was matched, and
    has at least one candidate. *)
Theorem potential_matches_folders (U : UnicodeData) (O : SetOrder)
    (rows : list Reconciler.row) (public_folders : gset str) (threshold : Q) :
  let db_artists := Reconciler.get_database_artists rows in
  let answer := Reconciler.find_potential_matches rows public_folders threshold in
  NoDup (map fst answer)
  ∧ ∀ folder candidates, (folder, candidates) ∈ answer →
      folder ∈ public_folders
      ∧ (∀ a, a ∈ db_artists →
           Reconciler.first_on_disk public_folders (Reconciler.alternative_slugs a)
           ≠ Some folder)
      ∧ candidates ≠ [].
Proof.
  cbn zeta. split.
  - rewrite find_potential_matches_omap. cbn zeta.
    eapply sublist_NoDup; [|apply folder_entry_keys].
    rewrite iter_set_perm. apply NoDup_elements.
  - intros folder candidates (Hf & Hnm & Hm & ->)%answer_entry.
    split; [done|]. split; [done|]. intros Hnil.
    apply (f_equal length) in Hnil. rewrite sorted_by_score_length in Hnil.
    destruct (Reconciler.folder_matches _ _ _) as [|[n s] ms] eqn:E; [done|].
    destruct (unique_matches_all ((n, s) :: ms) n s) as (s2 & Hin & _); [by left|].
    destruct (Reconciler.unique_matches ((n, s) :: ms)); [|done].
    by apply elem_of_nil in Hin.
Qed.

Lemma potential_matches_folders_witness :
  py "beatles-the" ∈ ({[ py "bjork"; py "beatles-the" ]} : gset str)
  ∧ [(py "The Beatles", 14 # 18)] ≠ [].
Proof.
  pose proof (potential_matches_folders Excerpt.table by_encoding
    [(1%Z, py "Björk", None); (2%Z, py "The Beatles", None)]
    {[ py "bjork"; py "beatles-the" ]} (1 # 2)) as [_ H].
  destruct (H (py "beatles-the") [(py "The Beatles", 14 # 18)]) as (H1 & _ & H2).
  - apply list_elem_of_In. vm_compute. by left.
  - done.
Defined.

(** X8: the candidates of a folder are in the order of the scores, highest
    first; no name comes twice; every score reaches the threshold and is
    the similarity of the folder to the name or to a slug of an unmatched
    artist of that name. *)
Theorem candidates_ranked (U : UnicodeData) (O : SetOrder)
    (rows : list Reconciler.row) (public_folders : gset str) (threshold : Q)
    (folder : str) (candidates : list (str * Q)) :
  (folder, candidates)
    ∈ Reconciler.find_potential_matches rows public_folders threshold →
  StronglySorted by_falling_score candidates
  ∧ NoDup (map fst candidates)
  ∧ ∀ n s, (n, s) ∈ candidates →
      (threshold <= s)%Q
      ∧ ∃ a, a ∈ Reconciler.get_database_artists rows
             ∧ Reconciler.name a = n
             ∧ Reconciler.first_on_disk public_folders
                 (Reconciler.alternative_slugs a) = None
             ∧ (s = Reconciler.similarity_score folder n
                ∨ ∃ slug, slug ∈ Reconciler.alternative_slugs a
                          ∧ s = Reconciler.similarity_score folder slug).
Proof.
  intros (Hf & Hnm & Hm & ->)%answer_entry. split; [apply sorted_by_score_sorted|].
  split.
  - rewrite sorted_by_score_perm. apply unique_matches_keys.
  - intros n s Hin.
    apply sorted_by_score_elem, unique_matches_elem, folder_matches_elem in Hin.
    destruct Hin as (a & Ha & Hn & Hge & Hsc). simpl in *. subst n.
    split; [by apply Qle_bool_iff|].
    apply unmatched_artists_spec in Ha as [Ha Hnone]. by exists a.
Qed.

Lemma candidates_ranked_witness :
  StronglySorted by_falling_score [(py "The Beatles", 14 # 18)].
Proof.
  apply (candidates_ranked Excerpt.table by_encoding
           [(1%Z, py "Björk", None); (2%Z, py "The Beatles", None)]
           {[ py "bjork"; py "beatles-the" ]} (1 # 2) (py "beatles-the")).
  apply list_elem_of_In. vm_compute. by left.
Defined.

(** X9: no candidate is left out: an orphaned folder lists every unmatched
    artist one of whose scores reaches the threshold, with a score that is
    not below any score of an artist of that name. *)
Theorem candidates_complete (U : UnicodeData) (O : SetOrder)
    (rows : list Reconciler.row) (public_folders : gset str) (threshold : Q)
    (folder : str) (a : Reconciler.artist) (s' : Q) :
  let db_artists := Reconciler.get_database_artists rows in
  let matched := Reconciler.matched_artists db_artists public_folders in
  folder ∈ public_folders
             ∖ Reconciler.matched_folders db_artists public_folders matched →
  a ∈ Reconciler.unmatched_artists db_artists matched →
  s' = Reconciler.similarity_score folder (Reconciler.name a)
  ∨ (∃ slug, slug ∈ Reconciler.alternative_slugs a
             ∧ s' = Reconciler.similarity_score folder slug) →
  (threshold <= s')%Q →
  ∃ candidates s,
    (folder, candidates)
      ∈ Reconciler.find_potential_matches rows public_folders threshold
    ∧ (Reconciler.name a, s) ∈ candidates
    ∧ (s' <= s)%Q.
Proof.
  cbn zeta. intros Hf Ha Hs' Hge.
  assert ((Reconciler.name a, s')
            ∈ Reconciler.folder_matches threshold
                (Reconciler.unmatched_artists (Reconciler.get_database_artists rows)
                   (Reconciler.matched_artists
                      (Reconciler.get_database_artists rows) public_folders))
                folder) as Hin.
  { apply folder_matches_elem. exists a. split; [done|]. split; [done|].
    split; [by apply Qle_bool_iff | done]. }
  destruct (unique_matches_all _ _ _ Hin) as (s & Hs & Hle).
  eexists _, s. split; [|split; [|exact Hle]].
  - rewrite find_potential_matches_omap. cbn zeta. apply list_elem_of_omap.
    exists folder. split.
    + by rewrite iter_set_perm, elem_of_elements.
    + apply folder_entry_Some. split; [|done]. intros Hnil. rewrite Hnil in Hin.
      by apply elem_of_nil in Hin.
  - by apply sorted_by_score_elem.
Qed.

Lemma candidates_complete_witness :
  ∃ candidates s,
    (py "beatles-the", candidates)
      ∈ Reconciler.find_potential_matches (U := Excerpt.table) (O := by_encoding)
          [(1%Z, py "Björk", None); (2%Z, py "The Beatles", None)]
          {[ py "bjork"; py "beatles-the" ]} (1 # 2)
    ∧ (py "The Beatles", s) ∈ candidates
    ∧ (14 # 18 <= s)%Q.
Proof.
  apply (candidates_complete Excerpt.table by_encoding
           [(1%Z, py "Björk", None); (2%Z, py "The Beatles", None)]
           {[ py "bjork"; py "beatles-the" ]} (1 # 2) (py "beatles-the")
           {| Reconciler.id := 2; Reconciler.name := py "The Beatles";
              Reconciler.discogs_id := None;
              Reconciler.slug := py "the-beatles";
              Reconciler.alternative_slugs := [py "the-beatles"; py "beatles"] |}).
  - apply elem_of_elements, list_elem_of_In. vm_compute. by left.
  - apply list_elem_of_In. vm_compute. by left.
  - right. exists (py "beatles"). split; [by right; left|].
    vm_compute. reflexivity.
  - done.
Defined.

(** ** The score and the threshold *)

Section score_bound.
Context {U : UnicodeData}.
Import Difflib.

Lemma calculate_ratio_mono (m m' len : nat) :
  (m ≤ m')%nat → (calculate_ratio m len <= calculate_ratio m' len)%Q.
Proof.
  intros Hm. unfold calculate_ratio. destruct len as [|len]; [apply Qle_refl|].
  unfold Qle. cbn [Qnum Qden]. apply Z.mul_le_mono_nonneg_r; lia.
Qed.
End score_bound.

(** X10: the score of two strings does not exceed twice the length of the
    shorter lowercase form over the sum of the two lengths. *)
Theorem similarity_score_length_bound (U : UnicodeData) (a b : str) :
  (Reconciler.similarity_score a b
   <= Difflib.calculate_ratio
        (length (lower a) `min` length (lower b))
        (length (lower a) + length (lower b)))%Q.
Proof.
  unfold Reconciler.similarity_score, Difflib.ratio.
  apply calculate_ratio_mono. destruct (matches_le (lower a) (lower b)). lia.
Qed.

Section threshold_edges.
Context {U : UnicodeData} {O : SetOrder}.
Import Reconciler.

Lemma folder_matches_above_one (threshold : Q) (unmatched : list artist)
    (folder : str) :
  (1 < threshold)%Q → folder_matches threshold unmatched folder = [].
Proof.
  intros Ht. destruct (folder_matches threshold unmatched folder) as [|kv l] eqn:E;
    [done|].
  assert (kv ∈ folder_matches threshold unmatched folder) as Hin
    by (rewrite E; by left).
  apply folder_matches_elem in Hin as (a & _ & _ & Hge & Hsc).
  apply Qle_bool_iff in Hge. exfalso.
  assert (kv.2 <= 1)%Q as Hle.
  { destruct Hsc as [->|(slug & _ & ->)]; unfold similarity_score;
      apply ratio_bounds. }
  apply (Qlt_irrefl 1). eapply Qlt_le_trans; [exact Ht|].
  by eapply Qle_trans.
Qed.

Lemma omap_none {A B} (f : A → option B) (l : list A) :
  (∀ x, f x = None) → omap f l = [].
Proof.
  intros H. induction l as [|x l IH]; [done|].
  change (omap f (x :: l)) with (match f x with
                                 | Some y => y :: omap f l
                                 | None => omap f l
                                 end).
  by rewrite H.
Qed.
End threshold_edges.

(** X11: with a threshold above 1 [find_potential_matches] finds nothing. *)
Theorem no_candidates_above_one (U : UnicodeData) (O : SetOrder)
    (rows : list Reconciler.row) (public_folders : gset str) (threshold : Q) :
  (1 < threshold)%Q →
  Reconciler.find_potential_matches rows public_folders threshold = [].
Proof.
  intros Ht. rewrite find_potential_matches_omap. cbn zeta.
  apply omap_none. intros folder. unfold folder_entry.
  by rewrite folder_matches_above_one.
Qed.

Lemma no_candidates_above_one_witness :
  Reconciler.find_potential_matches (U := Excerpt.table) (O := by_encoding)
    [(1%Z, py "Björk", None); (2%Z, py "The Beatles", None)]
    {[ py "bjork"; py "beatles-the" ]} (11 # 10)
  = [].
Proof. by apply (no_candidates_above_one Excerpt.table by_encoding). Defined.

(** X12: more folders on disk match more artists, never fewer. *)
Theorem matched_artists_monotone (U : UnicodeData) (O : SetOrder)
    (rows : list Reconciler.row) (public_folders more_folders : gset str) :
  public_folders ⊆ more_folders →
  Reconciler.matched_artists (Reconciler.get_database_artists rows) public_folders
  ⊆ Reconciler.matched_artists (Reconciler.get_database_artists rows) more_folders.
Proof.
  intros Hsub i (a & Ha & Hid & Hf)%matched_artists_spec.
  apply matched_artists_spec. exists a. split; [done|]. split; [done|].
  destruct (Reconciler.first_on_disk public_folders (Reconciler.alternative_slugs a))
    as [f|] eqn:E; [|done].
  apply first_on_disk_on_disk in E as [E1 E2].
  apply (first_on_disk_Some _ _ f); [done|]. by apply Hsub.
Qed.

Lemma matched_artists_monotone_witness :
  Reconciler.matched_artists
    (Reconciler.get_database_artists (U := Excerpt.table) (O := by_encoding)
       [(1%Z, py "Björk", None)]) {[ py "bjork" ]}
  ⊆ Reconciler.matched_artists
      (Reconciler.get_database_artists (U := Excerpt.table) (O := by_encoding)
         [(1%Z, py "Björk", None)]) {[ py "bjork"; py "abba" ]}.
Proof.
  apply (matched_artists_monotone Excerpt.table by_encoding).
  intros f Hf. apply elem_of_union. by left.
Defined.

Section common_element.
Import Difflib.
Local Open Scope nat_scope.
Variables a b : str.

Lemma scan_row_size (j2len : gmap nat nat) (i blo bhi : nat) (idxs : list nat)
    (newj2len : gmap nat nat) (best : Match) :
  msize best ≤ msize (scan_row j2len i blo bhi idxs newj2len best).2.
Proof.
  revert newj2len best. induction idxs as [|j rest IH]; intros newj2len best;
    [done|].
  cbn [scan_row]. destruct (j <? blo); [apply IH|].
  destruct (bhi <=? j); [done|]. cbn zeta.
  etrans; [|apply IH]. destruct (_ <? _) eqn:E; [|done].
  apply Nat.ltb_lt in E. unfold msize in *. simpl. lia.
Qed.

Lemma scan_row_hit (j2len : gmap nat nat) (i blo bhi : nat) (idxs : list nat)
    (newj2len : gmap nat nat) (best : Match) (j0 : nat) :
  j0 ∈ idxs → blo ≤ j0 → Forall (λ j, j < bhi) idxs →
  1 ≤ msize (scan_row j2len i blo bhi idxs newj2len best).2.
Proof.
  intros Hin Hlo Hhi. revert newj2len best.
  induction Hhi as [|j rest Hj Hrest IH]; intros newj2len best.
  - by apply elem_of_nil in Hin.
  - cbn [scan_row]. destruct (Nat.ltb_spec j blo) as [Hlt|Hge].
    + apply elem_of_cons in Hin as [->|Hin]; [lia|]. by apply IH.
    + destruct (Nat.leb_spec bhi j) as [?|_]; [lia|]. cbn zeta.
      etrans; [|apply scan_row_size].
      destruct (_ <? _) eqn:E; [unfold msize; simpl; lia|].
      apply Nat.ltb_ge in E. lia.
Qed.

Lemma scan_step_size (blo bhi : nat) (st : gmap nat nat * Match) (i : nat) :
  msize st.2 ≤ msize (scan_step a b blo bhi st i).2.
Proof.
  unfold scan_step. destruct (a !! i); [apply scan_row_size | done].
Qed.

Lemma scan_fold_size (blo bhi : nat) (l : list nat) (st : gmap nat nat * Match) :
  msize st.2 ≤ msize (fold_left (scan_step a b blo bhi) l st).2.
Proof.
  revert st. induction l as [|i l IH]; intros st; [done|].
  cbn [fold_left]. etrans; [apply scan_step_size | apply IH].
Qed.

Lemma scan_fold_hit (bhi : nat) (l : list nat) (st : gmap nat nat * Match)
    (i0 j0 : nat) (x : N) (idxs : list nat) :
  i0 ∈ l → a !! i0 = Some x → b2j b !! x = Some idxs → j0 ∈ idxs →
  Forall (λ j, j < bhi) idxs →
  1 ≤ msize (fold_left (scan_step a b 0 bhi) l st).2.
Proof.
  intros Hi Ha Hb Hj Hhi. revert st.
  induction l as [|i l IH]; intros st; [by apply elem_of_nil in Hi|].
  cbn [fold_left]. apply elem_of_cons in Hi as [<-|Hi]; [|by apply IH].
  etrans; [|apply scan_fold_size]. unfold scan_step. rewrite Ha, Hb.
  apply (scan_row_hit _ _ _ _ _ _ _ j0); [done | lia | done].
Qed.

Lemma extend_left_size (want_junk : bool) (alo blo besti bestj bestsize : nat) :
  bestsize ≤ msize (extend_left a b want_junk alo blo besti bestj bestsize).
Proof.
  revert bestj bestsize. induction besti as [|i' IH]; intros bestj bestsize;
    [done|].
  cbn [extend_left]. destruct bestj as [|j']; [done|].
  destruct (_ && _); [|done]. etrans; [|apply IH]. lia.
Qed.

Lemma extend_right_size (want_junk : bool) (room bhi besti bestj bestsize : nat) :
  bestsize ≤ extend_right a b want_junk room bhi besti bestj bestsize.
Proof.
  revert bestsize. induction room as [|room IH]; intros bestsize; [done|].
  cbn [extend_right]. destruct (_ && _); [|done]. etrans; [|apply IH]. lia.
Qed.

Lemma extend_size (want_junk : bool) (alo ahi blo bhi : nat) (m : Match) :
  msize m ≤ msize (extend a b want_junk alo ahi blo bhi m).
Proof.
  unfold extend.
  pose proof (extend_left_size want_junk alo blo m.1.1 m.1.2 m.2) as H.
  destruct (extend_left a b want_junk alo blo m.1.1 m.1.2 m.2) as [[i j] k].
  unfold msize in *. cbn [snd] in *. etrans; [exact H|].
  apply extend_right_size.
Qed.

(** In a [b] of fewer than 200 elements no element is popular: a common
    element gives a match. *)
Lemma matches_common (x : N) :
  length b < 200 → x ∈ a → x ∈ b → 1 ≤ matches a b.
Proof.
  intros Hlen [i0 Hi0]%list_elem_of_lookup [j0 Hj0]%list_elem_of_lookup.
  rewrite matches_total. cbn [blocks_of].
  assert (1 ≤ msize (find_longest_match a b 0 (length a) 0 (length b))) as Hm.
  { unfold find_longest_match. etrans; [|apply extend_size].
    etrans; [|apply extend_size]. unfold longest_junk_free.
    assert (b2j b !! x = Some (positions_from 0 x b)) as Hb.
    { unfold b2j, chain_b. destruct (Nat.leb_spec 200 (length b)) as [?|_]; [lia|].
      rewrite index_b_lookup.
      assert (j0 ∈ positions_from 0 x b) as Hin.
      { apply positions_from_elem. split; [lia|]. by rewrite Nat.sub_0_r. }
      destruct (positions_from 0 x b); [by apply elem_of_nil in Hin | done]. }
    apply (scan_fold_hit _ _ _ i0 j0 x (positions_from 0 x b)); try done.
    - apply elem_of_seq. apply lookup_lt_Some in Hi0. lia.
    - apply positions_from_elem. split; [lia|]. by rewrite Nat.sub_0_r.
    - eapply Forall_impl; [apply positions_from_bounds|]. simpl. lia. }
  destruct (find_longest_match a b 0 (length a) 0 (length b)) as [[i j] k].
  unfold msize in Hm. cbn [snd] in Hm.
  destruct (Nat.eqb_spec k 0) as [|_]; [lia|].
  unfold total, msize. simpl. lia.
Qed.
End common_element.

Section positive_score.
Import Difflib.

Lemma ratio_positive (a b : str) :
  (1 ≤ matches a b)%nat → (0 < ratio a b)%Q.
Proof.
  intros Hm. unfold ratio, calculate_ratio.
  destruct (matches_le a b) as [Ha _].
  destruct (length a + length b)%nat as [|n] eqn:E; [lia|].
  unfold Qlt. cbn [Qnum Qden]. lia.
Qed.
End positive_score.

(** X13: where the second lowercase form has fewer than 200 characters, the
    score is 0 exactly when the two lowercase forms have no character in
    common and are not both empty. *)
Theorem similarity_score_zero (U : UnicodeData) (a b : str) :
  (length (lower b) < 200)%nat →
  (Reconciler.similarity_score a b == 0)%Q ↔
  (∀ c, c ∈ lower a → c ∉ lower b) ∧ (lower a ≠ [] ∨ lower b ≠ []).
Proof.
  intros Hlen. unfold Reconciler.similarity_score. split.
  - intros Hz. split.
    + intros c Ha Hb.
      pose proof (ratio_positive _ _ (matches_common _ _ c Hlen Ha Hb)) as Hp.
      rewrite Hz in Hp. by apply Qlt_irrefl in Hp.
    + destruct (lower a) as [|x la] eqn:Ea; [|by left].
      destruct (lower b) as [|y lb] eqn:Eb; [|by right].
      exfalso. vm_compute in Hz. discriminate.
  - intros [Hdis Hne]. by apply ratio_zero.
Qed.

Lemma similarity_score_zero_witness :
  (Reconciler.similarity_score (U := Excerpt.table) (py "ABBA") (py "Muse") == 0)%Q
  ↔ (∀ c, c ∈ lower (U := Excerpt.table) (py "ABBA")
          → c ∉ lower (U := Excerpt.table) (py "Muse"))
    ∧ (lower (U := Excerpt.table) (py "ABBA") ≠ []
       ∨ lower (U := Excerpt.table) (py "Muse") ≠ []).
Proof.
  apply (similarity_score_zero Excerpt.table (py "ABBA") (py "Muse")).
  vm_compute. lia.
Defined.

(** ** The coverage report *)

Section coverage_facts.
Context {U : UnicodeData} {O : SetOrder}.
Import Reconciler Report.

Lemma coverage_step_spec (public_folders : gset str)
    (st : nat * nat * list artist * gset str) (a : artist) :
  let st' := coverage_step public_folders st a in
  (st'.1.1.1 + st'.1.1.2 + length st'.1.2
   = st.1.1.1 + st.1.1.2 + length st.1.2 + 1)%nat
  ∧ st'.1.1.1
    = (st.1.1.1 + if bool_decide (slug a ∈ public_folders) then 1 else 0)%nat
  ∧ st'.1.2 = st.1.2 ++ filter (uncovered public_folders) [a]
  ∧ (st.2 ⊆ public_folders → st'.2 ⊆ public_folders).
Proof.
  destruct st as [[[e al] miss] mf]. cbn zeta. unfold coverage_step.
  case_bool_decide as Hs.
  - cbn [fst snd]. split; [lia|]. split; [lia|]. split.
    + rewrite filter_cons_False, filter_nil by (by intros [? _]).
      by rewrite app_nil_r.
    + intros Hmf f [?| ->%elem_of_singleton]%elem_of_union; [by apply Hmf | done].
  - destruct (first_on_disk public_folders (drop 1 (alternative_slugs a)))
      as [alt|] eqn:E; cbn [fst snd].
    + split; [lia|]. split; [lia|]. split.
      * rewrite filter_cons_False, filter_nil by (intros [_ ?]; congruence).
        by rewrite app_nil_r.
      * intros Hmf f [?| ->%elem_of_singleton]%elem_of_union; [by apply Hmf|].
        by apply first_on_disk_on_disk in E as [_ ?].
    + split; [rewrite length_app; simpl; lia|]. split; [lia|]. split; [|done].
      by rewrite filter_cons_True, filter_nil by done.
Qed.

Lemma coverage_fold_spec (public_folders : gset str) (db : list artist)
    (st : nat * nat * list artist * gset str) :
  let st' := fold_left (coverage_step public_folders) db st in
  (st'.1.1.1 + st'.1.1.2 + length st'.1.2
   = st.1.1.1 + st.1.1.2 + length st.1.2 + length db)%nat
  ∧ st'.1.1.1
    = (st.1.1.1 + length (filter (λ a, slug a ∈ public_folders) db))%nat
  ∧ st'.1.2 = st.1.2 ++ filter (uncovered public_folders) db
  ∧ (st.2 ⊆ public_folders → st'.2 ⊆ public_folders).
Proof.
  revert st. induction db as [|a db IH]; intros st; cbn zeta.
  - simpl. rewrite app_nil_r. repeat split; lia || done.
  - cbn [fold_left].
    destruct (coverage_step_spec public_folders st a) as (H1 & H2 & H3 & H4).
    destruct (IH (coverage_step public_folders st a)) as (I1 & I2 & I3 & I4).
    cbn zeta in *. split; [|split; [|split]].
    + rewrite I1, H1. simpl. lia.
    + rewrite I2, H2. case_bool_decide as Hs.
      * rewrite filter_cons_True by done. simpl. lia.
      * rewrite filter_cons_False by done. lia.
    + rewrite I3, H3, <- app_assoc. f_equal.
      destruct (decide (uncovered public_folders a)) as [Hu|Hu].
      * by rewrite !filter_cons_True by done.
      * by rewrite !filter_cons_False by done.
    + auto.
Qed.

Lemma percentage_bounds (m n : nat) :
  (m ≤ n)%nat → n ≠ 0%nat →
  (0 <= (Z.of_nat m # Pos.of_nat n) * 100 <= 100)%Q
  ∧ (((Z.of_nat m # Pos.of_nat n) * 100 == 100)%Q ↔ m = n).
Proof.
  intros Hle Hn. unfold Qle, Qeq, Qmult. cbn [Qnum Qden].
  rewrite Pos.mul_1_r, Zpos_of_nat by done. lia.
Qed.

Lemma slug_among_alternatives (rows : list row) (a : artist) :
  a ∈ get_database_artists rows → slug a ∈ alternative_slugs a.
Proof.
  unfold get_database_artists. intros (r & -> & _)%list_elem_of_fmap. simpl.
  unfold alternative_slugify. apply list_of_set_elem.
  pose proof (alternatives_head r.1.2) as H.
  destruct (alternatives r.1.2); [done|]. injection H as ->. by left.
Qed.

Lemma first_on_disk_None (folders : gset str) (slugs : list str) :
  first_on_disk folders slugs = None ↔ ∀ s, s ∈ slugs → s ∉ folders.
Proof.
  unfold first_on_disk. split.
  - intros H s Hs Hf. by apply (first_on_disk_Some folders slugs s).
  - intros H. destruct (List.find _ slugs) as [s|] eqn:E; [|done].
    apply find_some in E as [E1 E2]. apply list_elem_of_In in E1.
    apply bool_decide_eq_true in E2. by destruct (H s).
Qed.

(** An artist without any slug on disk is among the missing of the
    report. *)
Lemma unmatched_uncovered (rows : list row) (public_folders : gset str) (a : artist) :
  a ∈ get_database_artists rows →
  first_on_disk public_folders (alternative_slugs a) = None →
  uncovered public_folders a.
Proof.
  intros Ha Hnone. rewrite first_on_disk_None in Hnone. split.
  - apply Hnone. by apply (slug_among_alternatives rows).
  - apply first_on_disk_None. intros s Hs. apply Hnone.
    eapply elem_of_sublist; [exact Hs|]. apply sublist_drop.
Qed.

Lemma uncovered_slug_first (public_folders : gset str) (a : artist) :
  head (alternative_slugs a) = Some (slug a) →
  uncovered public_folders a →
  first_on_disk public_folders (alternative_slugs a) = None.
Proof.
  intros Hh [Hs Hr]. destruct (alternative_slugs a) as [|s0 alts]; [done|].
  injection Hh as ->. unfold first_on_disk in *. simpl in *.
  by rewrite bool_decide_eq_false_2.
Qed.
End coverage_facts.

(** X14: [analyze_coverage] fails on an empty table of artists and on no other.
    In its report every artist is counted once, as an exact match, as an
    alternative match or as missing; the coverage lies between 0 and 100
    and is 100 exactly when no artist is missing; the orphaned folders are
    folders on disk. *)
Theorem analyze_coverage_report (U : UnicodeData) (O : SetOrder)
    (rows : list Reconciler.row) (public_folders : gset str) :
  match Report.analyze_coverage rows public_folders with
  | None => rows = []
  | Some r =>
      rows ≠ []
      ∧ Report.total_db_artists r = length rows
      ∧ (Report.exact_matches r + Report.alternative_matches r
         + length (Report.missing_artists r) = length rows)%nat
      ∧ Report.total_matches r
        = (Report.exact_matches r + Report.alternative_matches r)%nat
      ∧ (0 <= Report.coverage_percentage r <= 100)%Q
      ∧ ((Report.coverage_percentage r == 100)%Q ↔ Report.missing_artists r = [])
      ∧ NoDup (Report.orphaned_folders r)
      ∧ ∀ f, f ∈ Report.orphaned_folders r → f ∈ public_folders
  end.
Proof.
  unfold Report.analyze_coverage. cbn zeta.
  pose proof (coverage_fold_spec public_folders
                (Reconciler.get_database_artists rows) (0%nat, 0%nat, [], ∅))
    as (H1 & _ & _ & _). cbn zeta in H1.
  destruct (fold_left _ _ _) as [[[e al] miss] mf]. cbn [fst snd] in H1.
  assert (length (Reconciler.get_database_artists rows) = length rows) as Hlen.
  { unfold Reconciler.get_database_artists. apply length_map. }
  rewrite Hlen in *. simpl in H1.
  destruct rows as [|r0 rows]; [done|]. cbn [length] in *.
  cbn [Report.total_db_artists Report.exact_matches Report.alternative_matches
       Report.missing_artists Report.total_matches Report.coverage_percentage
       Report.orphaned_folders].
  destruct (percentage_bounds (e + al) (S (length rows))) as [Hb He]; [lia | done |].
  split; [done|]. split; [done|]. split; [lia|]. split; [done|].
  split; [exact Hb|]. split.
  - rewrite He. destruct miss; simpl in *; split; (done || lia).
  - split; [rewrite iter_set_perm; apply NoDup_elements|].
    intros f. rewrite iter_set_perm, elem_of_elements, elem_of_difference. tauto.
Qed.

(** X15: the report and the fuzzy matching agree on who is missing only in
    part: an artist that [find_potential_matches] leaves unmatched is
    among the missing of the report, and where every list of alternatives
    starts with the slug of the artist, a missing artist has none of its
    slugs on disk. *)
Theorem analyze_coverage_missing (U : UnicodeData) (O : SetOrder)
    (rows : list Reconciler.row) (public_folders : gset str) :
  let db_artists := Reconciler.get_database_artists rows in
  match Report.analyze_coverage rows public_folders with
  | None => rows = []
  | Some r =>
      (∀ a, a ∈ Reconciler.unmatched_artists db_artists
                  (Reconciler.matched_artists db_artists public_folders) →
            a ∈ Report.missing_artists r)
      ∧ ((∀ a, a ∈ db_artists →
               head (Reconciler.alternative_slugs a) = Some (Reconciler.slug a)) →
         ∀ a, a ∈ Report.missing_artists r →
              a ∈ db_artists
              ∧ ∀ s, s ∈ Reconciler.alternative_slugs a → s ∉ public_folders)
  end.
Proof.
  cbn zeta. unfold Report.analyze_coverage. cbn zeta.
  pose proof (coverage_fold_spec public_folders
                (Reconciler.get_database_artists rows) (0%nat, 0%nat, [], ∅))
    as (_ & _ & H3 & _). cbn zeta in H3.
  destruct (fold_left _ _ _) as [[[e al] miss] mf]. cbn [fst snd] in H3.
  simpl in H3. subst miss.
  destruct (length (Reconciler.get_database_artists rows)) eqn:Hlen.
  { unfold Reconciler.get_database_artists in Hlen. rewrite length_map in Hlen.
    by destruct rows. }
  cbn [Report.missing_artists]. split.
  - intros a [Ha Hnone]%unmatched_artists_spec. apply list_elem_of_filter.
    split; [|done]. by apply (unmatched_uncovered rows).
  - intros Hfirst a [Hu Ha]%list_elem_of_filter. split; [done|].
    apply first_on_disk_None. apply uncovered_slug_first; [|done]. by apply Hfirst.
Qed.

(** With the alternatives listed backwards, the report counts as missing
    an artist whose folder is on disk and whom the matching finds. *)
Example analyze_coverage_skips_first :
  let rows : list Reconciler.row := [(2%Z, py "The Beatles", None)] in
  let public_folders : gset str := {[ py "beatles" ]} in
  Reconciler.alternative_slugify (U := Excerpt.table) (O := by_encoding_reversed)
    (py "The Beatles") = [py "beatles"; py "the-beatles"]
  ∧ 2%Z ∈ Reconciler.matched_artists
            (Reconciler.get_database_artists (U := Excerpt.table)
               (O := by_encoding_reversed) rows) public_folders
  ∧ (Report.missing_artists
       <$> Report.analyze_coverage (U := Excerpt.table)
             (O := by_encoding_reversed) rows public_folders)
    = Some (Reconciler.get_database_artists (U := Excerpt.table)
              (O := by_encoding_reversed) rows).
Proof.
  cbn zeta. split; [vm_compute; reflexivity|]. split; [|vm_compute; reflexivity].
  apply elem_of_elements, list_elem_of_In. vm_compute. by left.
Qed.

(** ** The script *)

Section script_facts.
Context {U : UnicodeData}.
Import Reconciler Report PyList.

Lemma split_at_line (sep : N) (s : str) : sep ∉ s → split_at sep s = [s].
Proof.
  induction s as [|c r IH]; intros Hs; [done|]. simpl.
  rewrite (proj2 (N.eqb_neq c sep)) by (intros ->; apply Hs; by left).
  rewrite IH; [done|]. intros ?. apply Hs. by right.
Qed.

Lemma split_at_app (sep : N) (s rest : str) :
  sep ∉ s → split_at sep (s ++ sep :: rest) = s :: split_at sep rest.
Proof.
  induction s as [|c r IH]; intros Hs; simpl.
  - by rewrite N.eqb_refl.
  - rewrite (proj2 (N.eqb_neq c sep)) by (intros ->; apply Hs; by left).
    rewrite IH; [done|]. intros ?. apply Hs. by right.
Qed.

Lemma split_at_join (sep : N) (lines : list str) :
  lines ≠ [] → Forall (λ line, sep ∉ line) lines →
  split_at sep (join [sep] lines) = lines.
Proof.
  intros Hne Hl. induction Hl as [|s lines Hs Hl IH]; [done|].
  destruct lines as [|s' lines].
  - simpl. by apply split_at_line.
  - change (join [sep] (s :: s' :: lines))
      with (s ++ sep :: join [sep] (s' :: lines)).
    rewrite split_at_app by done. by rewrite IH.
Qed.

Lemma script_lines_concat (missing_artists : list artist) :
  script_lines missing_artists
  = script_header ++ concat (map script_entry missing_artists)
    ++ script_footer missing_artists.
Proof.
  unfold script_lines.
  transitivity ((script_header ++ concat (map script_entry missing_artists))
                ++ script_footer missing_artists); [|symmetry; apply app_assoc].
  f_equal. generalize script_header as acc.
  induction missing_artists as [|a l IH]; intros acc; cbn [fold_left map concat].
  - symmetry. apply app_nil_r.
  - rewrite IH. symmetry. apply app_assoc.
Qed.

Lemma str_of_uint_digits (d : Decimal.uint) :
  Forall (λ c, is_digit c = true) (str_of_uint d).
Proof. induction d; simpl; by constructor. Qed.

Lemma keep_char_not_special (c : N) :
  keep_char c = true → c ∉ shell_special.
Proof.
  intros [->|Hc]%keep_char_spec; unfold shell_special.
  - rewrite !not_elem_of_cons. repeat split; try done. apply not_elem_of_nil.
  - intros Hin. unfold isalnum in Hc.
    repeat (apply elem_of_cons in Hin as [->|Hin]; [done|]).
    by apply elem_of_nil in Hin.
Qed.

Lemma slug_not_special (text : str) :
  Forall (λ c, c ∉ shell_special) (slugify text).
Proof.
  rewrite slugify_tidy. eapply Forall_impl; [apply tidy_keep|].
  intros c. apply keep_char_not_special.
Qed.

Lemma script_header_lines : Forall (λ line, NEWLINE ∉ line) script_header.
Proof.
  apply Forall_forall. intros line Hl Hin. apply list_elem_of_In in Hl.
  vm_compute in Hl.
  repeat (destruct Hl as [<-|Hl];
          [vm_compute in Hin; apply list_elem_of_In in Hin; simpl in Hin;
           intuition discriminate|]).
  done.
Qed.
End script_facts.

Section script_lines_facts.
Context {U : UnicodeData}.
Import Reconciler Report PyList.

Lemma literal_no_newline (s : str) :
  forallb (λ c, negb (c =? NEWLINE)) s = true → NEWLINE ∉ s.
Proof.
  intros H Hin. rewrite forallb_forall in H. apply list_elem_of_In in Hin.
  specialize (H _ Hin). by rewrite N.eqb_refl in H.
Qed.

Lemma slug_no_newline (text : str) : NEWLINE ∉ slugify text.
Proof.
  intros Hin. pose proof (slug_not_special text) as H.
  rewrite Forall_forall in H. apply (H _ Hin). unfold shell_special.
  do 4 right. by left.
Qed.

Lemma digits_no_newline (n : nat) : NEWLINE ∉ str_of_nat n.
Proof.
  intros Hin. pose proof (str_of_uint_digits (Nat.to_uint n)) as H.
  rewrite Forall_forall in H. by specialize (H _ Hin).
Qed.

Lemma script_entry_lines (a : artist) :
  slug a = slugify (name a) →
  Forall (λ line, NEWLINE ∉ line) (script_entry a).
Proof.
  intros Hs. unfold script_entry. cbn zeta. rewrite Hs.
  repeat constructor; rewrite ?not_elem_of_app; repeat split;
    try apply slug_no_newline; try (by apply literal_no_newline);
    try apply not_elem_of_nil.
Qed.

Lemma script_footer_lines (missing_artists : list artist) :
  Forall (λ line, NEWLINE ∉ line) (script_footer missing_artists).
Proof.
  unfold script_footer.
  repeat constructor; rewrite ?not_elem_of_app; repeat split;
    try apply digits_no_newline; try (by apply literal_no_newline).
Qed.

Lemma script_lines_no_newline (missing_artists : list artist) :
  Forall (λ a, slug a = slugify (name a)) missing_artists →
  Forall (λ line, NEWLINE ∉ line) (script_lines missing_artists).
Proof.
  intros Hm. rewrite script_lines_concat.
  apply Forall_app. split; [apply script_header_lines|].
  apply Forall_app. split; [|apply script_footer_lines].
  induction Hm as [|a l Ha Hl IH]; [done|]. cbn [map concat].
  apply Forall_app. split; [by apply script_entry_lines | done].
Qed.

Lemma script_entries_length (missing_artists : list artist) :
  length (concat (map script_entry missing_artists))
  = (3 * length missing_artists)%nat.
Proof.
  induction missing_artists as [|a l IH]; [done|]. cbn [map concat].
  rewrite length_app, IH. simpl. lia.
Qed.

Lemma script_entries_lookup (missing_artists : list artist) (k : nat) (a : artist) :
  missing_artists !! k = Some a →
  concat (map script_entry missing_artists) !! (3 * k + 1)%nat
  = Some (py "mkdir -p " ++ [DQUOTE] ++ py "$PUBLIC_DIR/" ++ slug a ++ [DQUOTE]).
Proof.
  revert k. induction missing_artists as [|b l IH]; intros k Hk; [done|].
  cbn [map concat]. destruct k as [|k].
  - injection Hk as ->. reflexivity.
  - replace (3 * S k + 1)%nat with (3 + (3 * k + 1))%nat by lia.
    change ((script_entry b ++ concat (map script_entry l))
              !! (3 + (3 * k + 1))%nat)
      with (concat (map script_entry l) !! (3 * k + 1)%nat).
    by apply IH.
Qed.
End script_lines_facts.

(** X16: the script has three lines for every artist between eight lines
    before and two after, and no line holds a line break: cut at the line
    breaks, the text gives the lines back. The second line of an artist
    makes the folder of its slug, and no slug holds a character that the
    shell reads between the double quotes. *)
Theorem generated_script_lines (U : UnicodeData)
    (missing_artists : list Reconciler.artist) :
  Forall (λ a, Reconciler.slug a = Reconciler.slugify (Reconciler.name a))
    missing_artists →
  split_at NEWLINE (Report.generate_folder_creation_script missing_artists)
  = Report.script_lines missing_artists
  ∧ length (Report.script_lines missing_artists)
    = (10 + 3 * length missing_artists)%nat
  ∧ (∀ k a, missing_artists !! k = Some a →
       Report.script_lines missing_artists !! (9 + 3 * k)%nat
       = Some (py "mkdir -p " ++ [DQUOTE] ++ py "$PUBLIC_DIR/"
               ++ Reconciler.slug a ++ [DQUOTE]))
  ∧ Forall (λ a, Forall (λ c, c ∉ shell_special) (Reconciler.slug a))
      missing_artists.
Proof.
  intros Hm. split; [|split; [|split]].
  - unfold Report.generate_folder_creation_script. apply split_at_join.
    + rewrite script_lines_concat. done.
    + by apply script_lines_no_newline.
  - rewrite script_lines_concat, !length_app, script_entries_length. simpl. lia.
  - intros k a Hk. rewrite script_lines_concat.
    replace (9 + 3 * k)%nat with (8 + (3 * k + 1))%nat by lia.
    change ((Report.script_header ++ ?l) !! (8 + ?i)%nat) with (l !! i).
    rewrite lookup_app_l.
    + by apply script_entries_lookup.
    + rewrite script_entries_length. apply lookup_lt_Some in Hk. lia.
  - eapply Forall_impl; [exact Hm|]. intros a ->. apply slug_not_special.
Qed.

Lemma generated_script_lines_witness :
  length (Report.script_lines
            (Reconciler.get_database_artists (U := Excerpt.table)
               (O := by_encoding) [(1%Z, py "Björk", None)]))
  = 13%nat.
Proof.
  apply (generated_script_lines Excerpt.table
           (Reconciler.get_database_artists (U := Excerpt.table)
              (O := by_encoding) [(1%Z, py "Björk", None)])).
  repeat constructor.
Defined.

(** ** The finder of the missing artists *)

Section string_order.
Import PyList.

Lemma str_leb_refl (a : str) : str_leb a a = true.
Proof. induction a as [|x a IH]; [done|]. simpl. by rewrite N.ltb_irrefl. Qed.

Lemma str_leb_total (a b : str) : str_leb a b = true ∨ str_leb b a = true.
Proof.
  revert b. induction a as [|x a IH]; intros [|y b]; simpl; auto.
  destruct (N.ltb_spec x y), (N.ltb_spec y x); auto; lia.
Qed.

Lemma str_leb_trans (a b c : str) :
  str_leb a b = true → str_leb b c = true → str_leb a c = true.
Proof.
  revert b c. induction a as [|x a IH]; intros [|y b] [|z c]; simpl; try done.
  destruct (N.ltb_spec x y), (N.ltb_spec y x), (N.ltb_spec y z),
    (N.ltb_spec z y), (N.ltb_spec x z), (N.ltb_spec z x);
    try done; try lia. apply IH.
Qed.

Lemma str_leb_antisym (a b : str) :
  str_leb a b = true → str_leb b a = true → a = b.
Proof.
  revert b. induction a as [|x a IH]; intros [|y b]; simpl; try done.
  destruct (N.ltb_spec x y), (N.ltb_spec y x); try done; try lia.
  intros Hab Hba. f_equal; [lia | by apply IH].
Qed.

Global Instance str_le_trans : Transitive str_le.
Proof. intros a b c. apply str_leb_trans. Qed.

Global Instance str_le_antisym : AntiSymm (=) str_le.
Proof. intros a b. apply str_leb_antisym. Qed.

Lemma insert_str_perm (x : str) (l : list str) : insert_str x l ≡ₚ x :: l.
Proof.
  induction l as [|y l IH]; simpl; [done|].
  destruct (str_leb x y); [done|]. rewrite IH. apply Permutation_swap.
Qed.

Lemma sorted_perm (l : list str) : sorted l ≡ₚ l.
Proof.
  unfold sorted. induction l as [|x l IH]; simpl; [done|].
  by rewrite insert_str_perm, IH.
Qed.

Lemma insert_str_sorted (x : str) (l : list str) :
  StronglySorted str_le l → StronglySorted str_le (insert_str x l).
Proof.
  induction 1 as [|y l Hl IH Hy]; simpl.
  - repeat constructor.
  - destruct (str_leb x y) eqn:E.
    + constructor; [by constructor|]. constructor; [done|].
      eapply Forall_impl; [exact Hy|]. intros z Hz. by etrans.
    + constructor; [done|]. rewrite insert_str_perm. constructor; [|done].
      by destruct (str_leb_total x y) as [?|?]; [congruence|].
Qed.

Lemma sorted_sorted (l : list str) : StronglySorted str_le (sorted l).
Proof.
  unfold sorted. induction l as [|x l IH]; simpl; [constructor|].
  by apply insert_str_sorted.
Qed.
End string_order.

Section finder_facts.
Context {U : UnicodeData} {O : SetOrder}.
Import Finder.

Lemma find_missing_artists_fold (public_folders : gset str) (db : list artist)
    (acc : list artist * list artist) :
  fold_left
    (λ '(missing_artists, present_artists) artist,
       if bool_decide (slug artist ∈ public_folders)
       then (missing_artists, present_artists ++ [artist])
       else (missing_artists ++ [artist], present_artists))
    db acc
  = (acc.1 ++ filter (λ a, slug a ∉ public_folders) db,
     acc.2 ++ filter (λ a, slug a ∈ public_folders) db).
Proof.
  revert acc. induction db as [|a db IH]; intros [m p]; simpl.
  - by rewrite !app_nil_r.
  - rewrite IH. case_bool_decide as Hs; cbn [fst snd].
    + rewrite (filter_cons_False (λ a, slug a ∉ public_folders)) by (by intros ?).
      rewrite (filter_cons_True (λ a, slug a ∈ public_folders)) by done.
      by rewrite <- app_assoc.
    + rewrite (filter_cons_True (λ a, slug a ∉ public_folders)) by done.
      rewrite (filter_cons_False (λ a, slug a ∈ public_folders)) by done.
      by rewrite <- app_assoc.
Qed.

Lemma find_missing_artists_lists (rows : list Reconciler.row)
    (public_folders : gset str) :
  let r := find_missing_artists rows public_folders in
  missing r = filter (λ a, slug a ∉ public_folders) (get_database_artists rows)
  ∧ present r = filter (λ a, slug a ∈ public_folders) (get_database_artists rows)
  ∧ total_db r = length rows.
Proof.
  cbn zeta. unfold find_missing_artists. cbn zeta.
  rewrite find_missing_artists_fold. cbn [fst snd app missing present total_db].
  repeat split. unfold get_database_artists. apply length_map.
Qed.

Lemma filter_split_length {A} (P : A → Prop) `{∀ x, Decision (P x)} (l : list A) :
  (length (filter (λ x, ¬ P x) l) + length (filter P l) = length l)%nat.
Proof.
  induction l as [|x l IH]; [done|].
  destruct (decide (P x)).
  - rewrite (filter_cons_False (λ x, ¬ P x)) by auto.
    rewrite (filter_cons_True P) by done. simpl. lia.
  - rewrite (filter_cons_True (λ x, ¬ P x)) by done.
    rewrite (filter_cons_False P) by done. simpl. lia.
Qed.
End finder_facts.

(** X17: [find_missing_artists] puts every artist of the table in one of its
    two lists, those whose slug is the name of a folder in [present] and
    the others in [missing], each list in the order of the table. *)
Theorem find_missing_artists_partition (U : UnicodeData)
    (rows : list Reconciler.row) (public_folders : gset str) :
  let r := Finder.find_missing_artists rows public_folders in
  let db_artists := Finder.get_database_artists rows in
  Finder.missing r = filter (λ a, Finder.slug a ∉ public_folders) db_artists
  ∧ Finder.present r = filter (λ a, Finder.slug a ∈ public_folders) db_artists
  ∧ Finder.missing r ++ Finder.present r ≡ₚ db_artists
  ∧ Finder.total_db r
    = (length (Finder.missing r) + length (Finder.present r))%nat
  ∧ Finder.total_db r = length rows.
Proof.
  cbn zeta. destruct (find_missing_artists_lists rows public_folders)
    as (Hm & Hp & Ht). cbn zeta in *.
  split; [done|]. split; [done|]. rewrite Hm, Hp, Ht. split; [|split; [|done]].
  - rewrite Permutation_app_comm.
    apply (filter_app_complement (λ a, Finder.slug a ∈ public_folders)).
  - pose proof (filter_split_length (λ a, Finder.slug a ∈ public_folders)
                  (Finder.get_database_artists rows)) as Hlen.
    cbn beta in Hlen. rewrite Hlen.
    unfold Finder.get_database_artists. by rewrite length_map.
Qed.

(** X18: [find_orphaned_folders] lists, in the order of the strings and each
    once, the folders on disk that are the slug of no artist; the list is
    the same in whatever order the set of the folders is gone through. *)
Theorem find_orphaned_folders_sorted (U : UnicodeData) (O O' : SetOrder)
    (rows : list Reconciler.row) (public_folders : gset str) :
  let orphaned := Finder.find_orphaned_folders (O := O) rows public_folders in
  StronglySorted str_le orphaned
  ∧ NoDup orphaned
  ∧ (∀ folder, folder ∈ orphaned ↔
       folder ∈ public_folders
       ∧ ∀ r, r ∈ rows → Finder.slugify r.1.2 ≠ folder)
  ∧ Finder.find_orphaned_folders (O := O') rows public_folders = orphaned.
Proof.
  cbn zeta. unfold Finder.find_orphaned_folders. cbn zeta.
  set (db_slugs := list_to_set _ : gset str).
  assert (∀ O0 : SetOrder,
            PyList.sorted (filter (λ folder, folder ∉ db_slugs)
                             (iter_set (SetOrder := O0) public_folders))
            ≡ₚ filter (λ folder, folder ∉ db_slugs) (elements public_folders))
    as Hperm.
  { intros O0. by rewrite sorted_perm, iter_set_perm. }
  split; [apply sorted_sorted|]. split; [|split].
  - rewrite Hperm. apply NoDup_filter, NoDup_elements.
  - intros folder. rewrite Hperm, list_elem_of_filter, elem_of_elements.
    unfold db_slugs. rewrite elem_of_list_to_set.
    unfold Finder.get_database_artists. rewrite <- list_fmap_compose.
    split.
    + intros [Hn Hf]. split; [done|].
      intros r Hr Heq. apply Hn. apply list_elem_of_fmap. by exists r.
    + intros [Hf Hn]. split; [|done].
      intros (r & Heq & Hr)%list_elem_of_fmap. by apply (Hn r).
  - apply (StronglySorted_unique str_le); try apply sorted_sorted.
    by rewrite !Hperm.
Qed.

Section summary_facts.
Context {U : UnicodeData}.

Lemma percentage_below (m n : nat) :
  (m < n)%nat → (0 <= (Z.of_nat m # Pos.of_nat n) * 100 < 100)%Q.
Proof.
  intros Hlt. unfold Qle, Qlt, Qmult. cbn [Qnum Qden].
  rewrite Pos.mul_1_r, Zpos_of_nat by lia. lia.
Qed.
End summary_facts.

(** X19: on the result of [find_missing_artists], [print_summary] never divides
    by zero: it prints a coverage only when an artist is missing, and that
    coverage is then below 100. *)
Theorem print_summary_coverage_defined (U : UnicodeData)
    (rows : list Reconciler.row) (public_folders : gset str) :
  let results := Finder.find_missing_artists rows public_folders in
  match Finder.print_summary_coverage results with
  | None => False
  | Some Finder.AllHaveFolders => Finder.missing results = []
  | Some (Finder.Coverage coverage) =>
      Finder.missing results ≠ [] ∧ (0 <= coverage < 100)%Q
  end.
Proof.
  cbn zeta.
  pose proof (find_missing_artists_lists rows public_folders) as (Hm & Hp & Ht).
  cbn zeta in *.
  pose proof (filter_split_length (λ a, Finder.slug a ∈ public_folders)
                (Finder.get_database_artists rows)) as Hlen.
  cbn beta in Hlen. rewrite <- Hm, <- Hp in Hlen.
  assert (length (Finder.get_database_artists rows) = length rows) as Hrows.
  { unfold Finder.get_database_artists. apply length_map. }
  rewrite Hrows, <- Ht in Hlen.
  unfold Finder.print_summary_coverage.
  destruct (Finder.missing _) as [|a l] eqn:E; [done|]. simpl in Hlen.
  destruct (Finder.total_db _) as [|n] eqn:En; [lia|].
  split; [done|]. apply percentage_below. lia.
Qed.

Section cross_facts.
Context {U : UnicodeData} {O : SetOrder}.

Lemma present_count (public_folders : gset str) (rows : list Reconciler.row) :
  length (filter (λ a, Reconciler.slug a ∈ public_folders)
            (Reconciler.get_database_artists rows))
  = length (filter (λ a, Finder.slug a ∈ public_folders)
              (Finder.get_database_artists rows)).
Proof.
  induction rows as [|r rows IH]; [done|].
  unfold Reconciler.get_database_artists, Finder.get_database_artists in *.
  cbn [map].
  destruct (decide (Reconciler.slugify r.1.2 ∈ public_folders)) as [Hs|Hs].
  - rewrite !filter_cons_True by done. simpl. by rewrite IH.
  - by rewrite !filter_cons_False by done.
Qed.
End cross_facts.

(** X20: the two tools count the same artists as present: the exact matches of
    [analyze_coverage] are as many as the artists that
    [find_missing_artists] finds present, and each of these is matched by
    [find_potential_matches]. *)
Theorem present_artists_are_matched (U : UnicodeData) (O : SetOrder)
    (rows : list Reconciler.row) (public_folders : gset str) :
  let present :=
    Finder.present (Finder.find_missing_artists rows public_folders) in
  (∀ a, a ∈ present →
        Finder.id a
          ∈ Reconciler.matched_artists (Reconciler.get_database_artists rows)
              public_folders)
  ∧ match Report.analyze_coverage rows public_folders with
    | None => rows = []
    | Some r => Report.exact_matches r = length present
    end.
Proof.
  cbn zeta.
  pose proof (find_missing_artists_lists rows public_folders) as (_ & Hp & _).
  cbn zeta in Hp. rewrite Hp. split.
  - intros a [Hs Ha]%list_elem_of_filter.
    unfold Finder.get_database_artists in Ha.
    apply list_elem_of_fmap in Ha as (r & -> & Hr). simpl in *.
    apply matched_artists_spec.
    exists {| Reconciler.id := r.1.1; Reconciler.name := r.1.2;
              Reconciler.discogs_id := r.2;
              Reconciler.slug := Reconciler.slugify r.1.2;
              Reconciler.alternative_slugs :=
                Reconciler.alternative_slugify r.1.2 |}.
    assert ({| Reconciler.id := r.1.1; Reconciler.name := r.1.2;
               Reconciler.discogs_id := r.2;
               Reconciler.slug := Reconciler.slugify r.1.2;
               Reconciler.alternative_slugs :=
                 Reconciler.alternative_slugify r.1.2 |}
            ∈ Reconciler.get_database_artists rows) as Hin.
    { unfold Reconciler.get_database_artists. apply list_elem_of_fmap. by exists r. }
    split; [done|]. split; [done|].
    apply (first_on_disk_Some _ _ (Reconciler.slugify r.1.2)); [|done].
    by apply (slug_among_alternatives rows _ Hin).
  - unfold Report.analyze_coverage. cbn zeta.
    pose proof (coverage_fold_spec public_folders
                  (Reconciler.get_database_artists rows) (0%nat, 0%nat, [], ∅))
      as (_ & H2 & _ & _). cbn zeta in H2.
    destruct (fold_left _ _ _) as [[[e al] miss] mf]. cbn [fst snd] in H2.
    destruct (length (Reconciler.get_database_artists rows)) eqn:Hlen.
    { unfold Reconciler.get_database_artists in Hlen. rewrite length_map in Hlen.
      by destruct rows. }
    cbn [Report.exact_matches]. rewrite H2. simpl. apply present_count.
Qed.

Lemma present_artists_are_matched_witness :
  1%Z ∈ Reconciler.matched_artists
          (Reconciler.get_database_artists (U := Excerpt.table) (O := by_encoding)
             [(1%Z, py "Björk", None)])
          {[ py "bjork" ]}.
Proof.
  pose proof (present_artists_are_matched Excerpt.table by_encoding
                [(1%Z, py "Björk", None)] {[ py "bjork" ]}) as [H _].
  apply (H {| Finder.id := 1; Finder.name := py "Björk";
              Finder.discogs_id := None; Finder.slug := py "bjork" |}).
  apply list_elem_of_In. vm_compute. by left.
Defined.

(** ** The checker and the search for the folder *)

Section checker_statuses.
Context {U : UnicodeData} {fs : Type} {P : Probe fs}.
Import Checker.

Lemma check_entity_cases (self : SanitizationChecker) (d : fs) (name : str)
    (entity_id : option str) :
  let expected := expected_name_of name entity_id in
  match check_entity self d name entity_id with
  | Some (r, self') =>
      status_of r ≠ conflict
      ∧ conflicts self' = conflicts self
      ∧ (probe_exists d expected = Some true →
         status_of r = correct ∧ current_folder r = expected)
      ∧ (status_of r = needs_change → probe_exists d expected = Some false)
  | None => probe_exists d expected ≠ Some true
  end.
Proof.
  cbn zeta. unfold check_entity. cbn zeta.
  pose proof (find_existing_folder_first_probe d name entity_id) as Hp.
  destruct (probe_exists d (expected_name_of name entity_id)) as [[|]|] eqn:Ee.
  - rewrite Hp.
    rewrite truthy_Some by apply expected_name_of_nonempty.
    cbn [negb default]. unfold str_eqb. rewrite bool_decide_eq_true_2 by done.
    cbn [status_of set_status conflicts current_folder]. done.
  - destruct (find_existing_folder d name entity_id) as [found|]; [|done].
   
    destruct (negb (truthy found)).
    { cbn [status_of set_status conflicts]. done. }
    destruct (str_eqb _ _); cbn [status_of set_status conflicts]; done.
  - by rewrite Hp.
Qed.

Lemma check_all_conflicts (d : fs) (entities : list (str * option str))
    (self : SanitizationChecker) :
  conflicts (check_all d self entities).1.2 = conflicts self.
Proof.
  revert self. induction entities as [|e entities IH]; intros self; [done|].
  cbn [check_all].
  pose proof (check_entity_cases self d e.1 e.2) as H. cbn zeta in H.
  destruct (check_entity self d e.1 e.2) as [[r self1]|]; [|done].
  specialize (IH self1). destruct (check_all d self1 entities) as [[rs self'] pending].
  cbn [fst snd] in *. rewrite IH. by destruct H as (_ & -> & _).
Qed.
End checker_statuses.

(** X21: [check_entity] never reports a conflict, and the list of the conflicts
    stays as it was, whatever is checked: a folder with the expected name
    is found first, and the entity is then reported as correct. A change
    is reported only where the expected name is free. A call raises only
    where the probe of the expected name does not answer yes. *)
Theorem check_entity_never_conflict (U : UnicodeData) (fs : Type) (P : Probe fs)
    (self : Checker.SanitizationChecker) (d : fs) :
  (∀ name entity_id,
     let expected := Checker.expected_name_of name entity_id in
     match Checker.check_entity self d name entity_id with
     | Some (r, self') =>
         Checker.status_of r ≠ Checker.conflict
         ∧ Checker.conflicts self' = Checker.conflicts self
         ∧ (probe_exists d expected = Some true →
            Checker.status_of r = Checker.correct
            ∧ Checker.current_folder r = expected)
         ∧ (Checker.status_of r = Checker.needs_change →
            probe_exists d expected = Some false)
     | None => probe_exists d expected ≠ Some true
     end)
  ∧ ∀ entities,
      Checker.conflicts (Checker.check_all d self entities).1.2
      = Checker.conflicts self.
Proof.
  split; [intros name entity_id; apply check_entity_cases|].
  intros entities. apply check_all_conflicts.
Qed.

Lemma check_entity_never_conflict_witness :
  ∃ r self',
    Checker.check_entity (U := Excerpt.table) (P := answering FlatDisk.flat)
      Checker.init {[ py "Bjork"; py "bjork" ]} (py "Björk") None
    = Some (r, self')
    ∧ Checker.status_of r = Checker.correct.
Proof.
  pose proof (check_entity_never_conflict Excerpt.table (gset str)
                (answering FlatDisk.flat)
                Checker.init {[ py "Bjork"; py "bjork" ]}) as [H _].
  specialize (H (py "Björk") None). cbn zeta in H.
  destruct (Checker.check_entity _ _ _ _) as [[r self']|].
  - exists r, self'. split; [done|].
    destruct H as (_ & _ & H & _). apply H. vm_compute. reflexivity.
  - exfalso. apply H. vm_compute. reflexivity.
Defined.

Section substring_facts.

Lemma is_prefix_refl (p z : str) : is_prefix p (p ++ z) = true.
Proof. induction p as [|c p IH]; [done|]. simpl. by rewrite N.eqb_refl. Qed.

Lemma contains_here (p z : str) : contains p (p ++ z) = true.
Proof.
  destruct (p ++ z) as [|c r] eqn:E.
  - destruct p; [done | discriminate].
  - simpl. rewrite <- E. by rewrite is_prefix_refl.
Qed.

Lemma contains_app_r (p x y : str) :
  contains p y = true → contains p (x ++ y) = true.
Proof.
  intros Hy. induction x as [|c x IH]; [done|]. simpl. rewrite IH.
  apply orb_true_r.
Qed.

Lemma contains_suffix (p x : str) : contains p (x ++ p) = true.
Proof.
  apply contains_app_r. rewrite <- (app_nil_r p) at 2. apply contains_here.
Qed.

Lemma find_Some_elem {A} (f : A → bool) (l : list A) (x : A) :
  List.find f l = Some x → x ∈ l ∧ f x = true.
Proof. intros H. apply find_some in H as [H1 H2]. by rewrite list_elem_of_In. Qed.

End substring_facts.

Section search_facts.
Context {U : UnicodeData} {fs : Type} {P : Probe fs}.

End search_facts.



(** X23: what the migrator finds for an entity is a path that exists under one
    of the spellings that it tries, or, for a name of more than five
    characters only, a listed directory whose lowercase name holds the
    first five characters of the name in lowercase. With an id, the name
    found holds the id. *)
Theorem migrator_finds_existing (U : UnicodeData) (fs : Type) (D : Disk fs)
    (d : fs) (artist_name : str) (discogs_id : option str) (folder : str) :
  Migrator.find_existing_folder d artist_name discogs_id = Some folder →
  (path_exists d folder = true
   ∨ (5 < length artist_name)%nat
     ∧ (folder, true) ∈ iterdir d
     ∧ contains (lower (take 5 artist_name)) (lower folder) = true)
  ∧ ∀ i, discogs_id = Some i → contains i folder = true.
Proof.
  unfold Migrator.find_existing_folder. cbn zeta.
  destruct (List.find (path_exists d) _) as [variant|] eqn:Ef.
  { intros [= <-]. apply find_Some_elem in Ef as [Hin Hex].
    split; [by left|]. intros i ->.
    destruct i as [|c i]; [by destruct variant|].
    cbn [truthy default] in Hin.
    apply list_elem_of_fmap in Hin as (v & -> & _).
    unfold Migrator.join_id. rewrite app_assoc. apply contains_suffix. }
  destruct (5 <? length artist_name)%nat eqn:El; [|done].
  intros H. apply fmap_Some in H as ([f b] & Hfind & ->).
  apply find_Some_elem in Hfind as [Hin Hp]. simpl in *.
  apply andb_true_iff in Hp as [[-> Hk]%andb_true_iff Hi]. split.
  - right. apply Nat.ltb_lt in El. done.
  - intros i ->. done.
Qed.

Lemma migrator_finds_existing_witness :
  path_exists (Disk := FlatDisk.flat) ({[ py "Sigur Ros" ]} : gset str)
    (py "Sigur Ros") = true
  ∨ (5 < length (py "Sigur Rós"))%nat
    ∧ (py "Sigur Ros", true)
        ∈ iterdir (Disk := FlatDisk.flat) ({[ py "Sigur Ros" ]} : gset str)
    ∧ contains (lower (U := Excerpt.table) (take 5 (py "Sigur Rós")))
        (lower (U := Excerpt.table) (py "Sigur Ros")) = true.
Proof.
  apply (migrator_finds_existing Excerpt.table (gset str) FlatDisk.flat
           {[ py "Sigur Ros" ]} (py "Sigur Rós") None (py "Sigur Ros")).
  vm_compute. reflexivity.
Defined.

(** ** The books of the migrator *)

Section migrator_books.
Context {U : UnicodeData} {fs : Type} {D : Disk fs}.
Import Migrator.

Lemma analyze_folder_differs (self : FolderMigrator) (d : fs) (cur exp : str) :
  analyze_folder self d cur exp ≠ correct → cur ≠ exp.
Proof.
  unfold analyze_folder, str_eqb. case_bool_decide as E; [done|]. by intros _.
Qed.

Lemma dict_set_keys {V} (d : list (str * V)) (k k' : str) (v : V) :
  k' ∈ map fst (Dict.set d k v) → k' ∈ map fst d ∨ k' = k.
Proof.
  intros ([k0 v0] & -> & Hin)%list_elem_of_fmap.
  apply dict_set_elem in Hin as [Hin|[= -> ->]]; [left | by right].
  apply list_elem_of_fmap. by exists (k0, v0).
Qed.

Lemma migrate_entity_books (st : run_state) (existing : option str) (expected : str) :
  books_balanced st → books_balanced (migrate_entity st existing expected).
Proof.
  destruct st as [[m w] mappings]. unfold books_balanced. cbn [fst snd].
  intros (Ha & Hb & Hc & Hd & He). unfold migrate_entity.
  destruct (truthy existing); [|done].
  set (old := default [] existing).
  destruct (analyze_folder m (disk w) old expected) eqn:Ea; try done.
  - (* conflict *)
    cbn [fst snd migrations_completed migrations_needed dry_run conflicts].
    split; [done|]. split; [done|]. split; [done|]. split; [|done].
    rewrite app_assoc. apply Forall_app. split; [done|]. repeat constructor.
    simpl. apply (analyze_folder_differs m (disk w)). by rewrite Ea.
  - (* needs_migration *)
    assert (old ≠ expected) as Hne.
    { apply (analyze_folder_differs m (disk w)). by rewrite Ea. }
    assert (Forall (λ p : str * str, p.1 ≠ p.2)
              ((migrations_needed m ++ [(old, expected)]) ++ conflicts m)) as Hd'.
    { apply Forall_app in Hd as [Hd1 Hd2]. apply Forall_app. split; [|done].
      apply Forall_app. split; [done|]. by repeat constructor. }
    assert (∀ k (ms : list (str * str)),
              (∀ o, o ∈ map fst ms → o ∈ map fst (migrations_needed m)) →
              k ∈ map fst (Dict.set ms old expected) ∨ k ∈ map fst ms →
              k ∈ map fst (migrations_needed m ++ [(old, expected)])) as Hkeys.
    { intros k ms Hms Hk. rewrite map_app, elem_of_app. simpl.
      rewrite list_elem_of_singleton.
      destruct Hk as [[Hk| ->]%dict_set_keys|Hk]; auto. }
    unfold migrate_folder.
    cbn [dry_run migrations_needed migrations_completed conflicts].
    destruct (dry_run m) eqn:Edry.
    + cbn [fst snd migrations_completed migrations_needed dry_run conflicts].
      split; [by apply sublist_inserts_r|]. split; [done|].
      split; [done|]. split; [done|]. intros k Hk. apply (Hkeys k mappings He).
      by left.
    + destruct (shutil_move (disk w) old expected) as [d' returned].
      destruct returned;
        cbn [fst snd migrations_completed migrations_needed dry_run conflicts
             moves disk].
      * split; [by apply sublist_app|]. split; [done|]. split.
        -- intros _. rewrite map_app, Hc by done. done.
        -- split; [done|]. intros k Hk. apply (Hkeys k mappings He). by left.
      * split; [by apply sublist_inserts_r|]. split; [done|]. split.
        -- intros _. rewrite map_app, Hc by done. done.
        -- split; [done|]. intros k Hk. apply (Hkeys k mappings He). by right.
Qed.

Lemma migrate_loop_books {A} (f : fs → A → option str * str) (l : list A)
    (st : run_state) :
  books_balanced st →
  books_balanced
    (fold_left (λ st x, migrate_entity st (f (disk st.1.2) x).1
                          (f (disk st.1.2) x).2) l st).
Proof.
  revert st. induction l as [|x l IH]; intros st Hst; [done|].
  cbn [fold_left]. apply IH. by apply migrate_entity_books.
Qed.

Lemma books_balanced_start (dry : bool) (d : fs) :
  books_balanced (init dry, {| disk := d; moves := [] |}, []).
Proof.
  unfold books_balanced. cbn. split; [done|]. split; [done|]. split; [done|].
  split; [done|]. by intros old ?%elem_of_nil.
Qed.
End migrator_books.

(** X24: the books of the two loops of [main] agree at the end: the migrations
    completed are among those needed, in their order; a dry run completes
    none; a real run calls [shutil.move] once for every migration needed;
    the two names of a pair that is needed or in conflict differ; and
    every folder in the dictionary of the moves was needed. *)
Theorem migration_books (U : UnicodeData) (fs : Type) (D : Disk fs)
    (dry_run : bool) (d : fs) (artists : list str) (releases : list (str * str)) :
  let start := (Migrator.init dry_run,
                {| Migrator.disk := d; Migrator.moves := [] |}, []) in
  books_balanced (Migrator.migrate_artists start artists)
  ∧ books_balanced (Migrator.migrate_releases start releases).
Proof.
  cbn zeta. split.
  - apply (migrate_loop_books
             (λ d artist_name, (Migrator.find_existing_folder d artist_name None,
                                sanitize_folder_name artist_name))).
    apply books_balanced_start.
  - apply (migrate_loop_books
             (λ d release,
                (Migrator.find_existing_folder d release.1 (Some release.2),
                 Migrator.join_id (sanitize_folder_name release.1) release.2))).
    apply books_balanced_start.
Qed.

(** ** The names of the release folders *)

Section release_names.

Lemma first_split_unique {A} (d : A) (a1 a2 b1 b2 : list A) :
  d ∉ a1 → d ∉ a2 → a1 ++ d :: b1 = a2 ++ d :: b2 → a1 = a2 ∧ b1 = b2.
Proof.
  revert a2. induction a1 as [|x a1 IH]; intros [|y a2] H1 H2 Heq; simpl in *.
  - by injection Heq as ->.
  - injection Heq as <- _. exfalso. apply H2. by left.
  - injection Heq as -> _. exfalso. apply H1. by left.
  - injection Heq as -> Heq.
    destruct (IH a2) as [-> ->]; try done.
    + intros ?. apply H1. by right.
    + intros ?. apply H2. by right.
Qed.

Lemma last_split_unique {A} (d : A) (a1 a2 b1 b2 : list A) :
  d ∉ b1 → d ∉ b2 → a1 ++ d :: b1 = a2 ++ d :: b2 → a1 = a2 ∧ b1 = b2.
Proof.
  intros H1 H2 Heq. apply (f_equal reverse) in Heq.
  rewrite !reverse_app, !reverse_cons, <- !app_assoc in Heq. simpl in Heq.
  apply first_split_unique in Heq as [Hb Ha].
  - split; [by apply (inj reverse) | by apply (inj reverse)].
  - by rewrite elem_of_reverse.
  - by rewrite elem_of_reverse.
Qed.
End release_names.

(** X25: the name of a release folder tells the id and the slug of the title:
    two releases get the same expected name, from the migrator as from the
    checker, only if their ids are the same and their titles have the same
    slug, provided that no id holds a dash. *)
Theorem release_folder_names_distinct (U : UnicodeData)
    (title1 title2 id1 id2 : str) :
  DASH ∉ id1 → DASH ∉ id2 →
  (Migrator.join_id (sanitize_folder_name title1) id1
   = Migrator.join_id (sanitize_folder_name title2) id2 →
   sanitize_folder_name title1 = sanitize_folder_name title2 ∧ id1 = id2)
  ∧ (id1 ≠ [] → id2 ≠ [] →
     Checker.expected_name_of title1 (Some id1)
     = Checker.expected_name_of title2 (Some id2) →
     sanitize_folder_name title1 = sanitize_folder_name title2 ∧ id1 = id2).
Proof.
  intros H1 H2. split.
  - unfold Migrator.join_id. by apply last_split_unique.
  - intros Hn1 Hn2. unfold Checker.expected_name_of.
    rewrite !truthy_Some by done. by apply last_split_unique.
Qed.

Lemma release_folder_names_distinct_witness :
  sanitize_folder_name (U := Excerpt.table) (py "Ágætis byrjun")
  = sanitize_folder_name (U := Excerpt.table) (py "agaetis byrjun")
  ∧ py "1234" = py "1234".
Proof.
  assert (DASH ∉ py "1234") as Hid.
  { intros H. apply list_elem_of_In in H. vm_compute in H. intuition discriminate. }
  destruct (release_folder_names_distinct Excerpt.table (py "Ágætis byrjun")
              (py "agaetis byrjun") (py "1234") (py "1234") Hid Hid) as [H _].
  apply H. vm_compute. reflexivity.
Defined.

(** ** The list of the artists *)

Section artists_list.
Context {A : Type} (name : A → str).
Import Collection.

Lemma add_artists_spec (l : list A) (names : gset str) (artists : list A) :
  let st' := fold_left (add_artist name) l (names, artists) in
  (∀ n, n ∈ names ↔ n ∈ map name artists) → NoDup (map name artists) →
  (∀ n, n ∈ st'.1 ↔ n ∈ map name st'.2)
  ∧ NoDup (map name st'.2)
  ∧ ∃ new, st'.2 = artists ++ new
      ∧ new `sublist_of` l
      ∧ (∀ n, n ∈ map name st'.2 ↔ n ∈ map name artists ∨ n ∈ map name l)
      ∧ ∀ a, a ∈ new →
          (name a ∉ map name artists)
          ∧ ∃ l1 l2, l = l1 ++ a :: l2 ∧ name a ∉ map name l1.
Proof.
  cbn zeta. revert names artists.
  induction l as [|x l IH]; intros names artists Hnames Hnd.
  - cbn [fold_left fst snd]. split; [done|]. split; [done|]. exists [].
    rewrite app_nil_r.
    split; [done|]. split; [done|]. split.
    + intros n. rewrite elem_of_nil. tauto.
    + by intros a ?%elem_of_nil.
  - cbn [fold_left].
    change (add_artist name (names, artists) x)
      with (if bool_decide (name x ∉ names)
            then (names ∪ {[name x]}, artists ++ [x]) else (names, artists)).
    case_bool_decide as Hx.
    + destruct (IH (names ∪ {[name x]}) (artists ++ [x]))
        as (I1 & I2 & new & Hnew & Hsub & Hel & Hfirst).
      * intros n. rewrite elem_of_union, elem_of_singleton, map_app, elem_of_app.
        simpl. rewrite list_elem_of_singleton, Hnames. tauto.
      * rewrite map_app. apply NoDup_app. split; [done|].
        split; [|apply NoDup_singleton].
        intros n Hn ->%list_elem_of_singleton. by apply Hx, Hnames.
      * split; [done|]. split; [done|]. exists (x :: new).
        split; [by rewrite Hnew, <- app_assoc|].
        split; [by apply sublist_skip|]. split.
        -- intros n. rewrite Hel, map_app, elem_of_app. simpl.
           rewrite list_elem_of_singleton, elem_of_cons. tauto.
        -- intros a [->|Ha]%elem_of_cons.
           ++ split; [by rewrite <- Hnames|]. exists [], l. split; [done|].
              apply not_elem_of_nil.
           ++ destruct (Hfirst a Ha) as (Hna & l1 & l2 & -> & Hl1).
              rewrite map_app, elem_of_app in Hna. simpl in Hna.
              rewrite list_elem_of_singleton in Hna.
              split; [tauto|]. exists (x :: l1), l2. split; [done|].
              simpl. rewrite not_elem_of_cons. split; [|done]. tauto.
    + destruct (IH names artists Hnames Hnd)
        as (I1 & I2 & new & Hnew & Hsub & Hel & Hfirst).
      split; [done|]. split; [done|]. exists new. split; [done|].
      split; [by apply sublist_cons|]. split.
      * intros n. rewrite Hel. simpl. rewrite elem_of_cons.
        assert (name x ∈ map name artists) as Hin.
        { by apply Hnames. }
        split; [tauto|]. intros [?|[->|?]]; tauto.
      * intros a Ha. destruct (Hfirst a Ha) as (Hna & l1 & l2 & -> & Hl1).
        split; [done|]. exists (x :: l1), l2. split; [done|].
        simpl. rewrite not_elem_of_cons. split; [|done].
        intros Heq. apply Hna. rewrite Heq. by apply Hnames.
Qed.

Lemma unique_artists_flat (releases : list (list A)) (st : gset str * list A) :
  fold_left (λ st artists_of_release, fold_left (add_artist name) artists_of_release st)
    releases st
  = fold_left (add_artist name) (concat releases) st.
Proof.
  revert st. induction releases as [|r releases IH]; intros st; [done|].
  simpl. by rewrite IH, fold_left_app.
Qed.
End artists_list.

(** X26: the list [artists] of the two [main] functions has every name of an
    artist of a release once; the artist kept for a name is the first of
    that name in the order of the releases, and the artists stand in that
    order. *)
Theorem unique_artists_first (A : Type) (name : A → str) (releases : list (list A)) :
  let artists := Collection.unique_artists name releases in
  NoDup (map name artists)
  ∧ artists `sublist_of` concat releases
  ∧ (∀ n, n ∈ map name artists ↔ n ∈ map name (concat releases))
  ∧ ∀ a, a ∈ artists →
      ∃ l1 l2, concat releases = l1 ++ a :: l2 ∧ name a ∉ map name l1.
Proof.
  cbn zeta. unfold Collection.unique_artists. rewrite unique_artists_flat.
  destruct (add_artists_spec name (concat releases) ∅ [])
    as (_ & Hnd & new & Hnew & Hsub & Hel & Hfirst).
  - intros n. simpl. rewrite elem_of_nil. split; [by intros ?%not_elem_of_empty | done].
  - constructor.
  - simpl in Hnew. rewrite Hnew in *. split; [done|]. split; [done|]. split.
    + intros n. rewrite Hel. simpl. rewrite elem_of_nil. tauto.
    + intros a Ha. by destruct (Hfirst a Ha) as [_ ?].
Qed.
